(** * Word <-> Markdown table converter: the conversion core

    A shallow embedding of [tableModel.js], [markdownToHtml.js] and
    [htmlToMarkdown.js], of [containsTable] and of the step of
    [sanitizeWordHtml] on the attributes of one element
    ([htmlSanitizer.js]), and the properties of the table model, the two
    parsers and the two generators.

    Conventions of the embedding.
    - A JavaScript string is a list of code units; the development covers
      the code units U+0000..U+00FF, one [ascii] each.
    - A JavaScript number that holds a count is an integer of [Z], without
      the rounding of very large values; the result of [parseInt] is
      [option Z], [None] standing for [NaN].
    - [null] results are [None].
    - The functions of the parsers build fresh tables and are given as
      functions on values; [normalizeTable], which updates its argument in
      place, is given on values and on a store of objects, and the two are
      related by [normalizeTable_refines]. *)

From Stdlib Require Import ZArith List Ascii String Lia Bool DecimalString.
From stdpp Require Import base option list gmap.
Import ListNotations.

Local Open Scope Z_scope.

(** ** JavaScript strings *)

Abbreviation jsstring := (list ascii).

(** String literals of the source. *)
Definition lit (s : string) : jsstring := list_ascii_of_string s.

(** [l.length === 0] *)
Definition is_nil {A} (l : list A) : bool :=
  match l with
  | [] => true
  | _ :: _ => false
  end.

Module Js.

(** The characters matched by [\s] and removed by [trim]: TAB, LF, VT, FF,
    CR, SPACE and NO-BREAK SPACE (the members below U+0100). *)
Definition isSpace (c : ascii) : bool :=
  let n := N_of_ascii c in
  ((9 <=? n) && (n <=? 13) || (n =? 32) || (n =? 160))%N.

Definition isDigit (c : ascii) : bool :=
  let n := N_of_ascii c in ((48 <=? n) && (n <=? 57))%N.

Arguments isSpace : simpl never.
Arguments isDigit : simpl never.

Fixpoint dropWhile {A} (p : A -> bool) (l : list A) : list A :=
  match l with
  | [] => []
  | x :: l' => if p x then dropWhile p l' else l
  end.

Fixpoint takeWhile {A} (p : A -> bool) (l : list A) : list A :=
  match l with
  | [] => []
  | x :: l' => if p x then x :: takeWhile p l' else []
  end.

(** [s.trimStart()], [s.trimEnd()] and [s.trim()]. *)
Definition trimStart (s : jsstring) : jsstring := dropWhile isSpace s.

Fixpoint trimEnd (s : jsstring) : jsstring :=
  match s with
  | [] => []
  | c :: r =>
      match trimEnd r with
      | [] => if isSpace c then [] else [c]
      | r' => c :: r'
      end
  end.

Definition trim (s : jsstring) : jsstring := trimEnd (trimStart s).

(** Put [c] in front of the first piece of a split. *)
Definition consHead (c : ascii) (ps : list jsstring) : list jsstring :=
  match ps with
  | [] => [[c]]
  | p :: ps' => (c :: p) :: ps'
  end.

(** [s.split(sep)] for a one-character separator; never empty. *)
Fixpoint split (sep : ascii) (s : jsstring) : list jsstring :=
  match s with
  | [] => [[]]
  | c :: r => if Ascii.eqb c sep then [] :: split sep r
              else consHead c (split sep r)
  end.

(** [parts.join(sep)]. *)
Fixpoint join (sep : jsstring) (parts : list jsstring) : jsstring :=
  match parts with
  | [] => []
  | [p] => p
  | p :: ps => p ++ sep ++ join sep ps
  end.

Definition startsWith (c : ascii) (s : jsstring) : bool :=
  match s with
  | x :: _ => Ascii.eqb x c
  | [] => false
  end.

Definition endsWith (c : ascii) (s : jsstring) : bool :=
  match last s with
  | Some x => Ascii.eqb x c
  | None => false
  end.

(** [s.padEnd(w)]: spaces are added on the right up to length [w]. *)
Definition padEnd (w : nat) (s : jsstring) : jsstring :=
  s ++ replicate (w - length s)%nat " "%char.

(** [c.repeat(n)]. *)
Definition repeatChar (c : ascii) (n : nat) : jsstring := replicate n c.

(** [s.replace(/c/g, rep)]: every occurrence of the character [c]. *)
Definition replaceChar (c : ascii) (rep : jsstring) (s : jsstring) : jsstring :=
  flat_map (fun x => if Ascii.eqb x c then rep else [x]) s.

(** [s.replace(/\s+/g, ' ')]: a maximal run of white space becomes one
    space; [inRun] tells that the previous character was white space. *)
Fixpoint collapseRuns (inRun : bool) (s : jsstring) : jsstring :=
  match s with
  | [] => []
  | c :: r =>
      if isSpace c
      then (if inRun then collapseRuns true r else " "%char :: collapseRuns true r)
      else c :: collapseRuns false r
  end.

Definition collapseWhitespace (s : jsstring) : jsstring := collapseRuns false s.

(** [s.toLowerCase()] on U+0000..U+00FF. *)
Definition lowerChar (c : ascii) : ascii :=
  let n := N_of_ascii c in
  if ((65 <=? n) && (n <=? 90) || (192 <=? n) && (n <=? 222) && negb (n =? 215))%N
  then ascii_of_N (n + 32) else c.

Definition toLowerCase (s : jsstring) : jsstring := map lowerChar s.

(** The value of a run of decimal digits. *)
Definition digitsValue (ds : jsstring) : Z :=
  fold_left (fun acc d => 10 * acc + (Z.of_N (N_of_ascii d) - 48)) ds 0.

(** [parseInt(s, 10)]: leading white space is skipped, a sign is read,
    then the longest run of digits; no digit gives [NaN]. *)
Definition parseInt (s : jsstring) : option Z :=
  let s1 := trimStart s in
  let '(neg, s2) :=
    match s1 with
    | "-"%char :: r => (true, r)
    | "+"%char :: r => (false, r)
    | _ => (false, s1)
    end in
  match takeWhile isDigit s2 with
  | [] => None
  | ds => Some (if neg then - digitsValue ds else digitsValue ds)
  end.

(** Decimal rendering of a number in a template literal. *)
Definition showZ (z : Z) : jsstring :=
  lit (NilEmpty.string_of_int (Z.to_int z)).

End Js.

(** ** tableModel.js *)

Record Cell := mkCell { content : jsstring; colspan : Z; rowspan : Z }.
Record Row := mkRow { isHeader : bool; cells : list Cell }.
Record Table := mkTable { alignments : list jsstring; rows : list Row }.

(** [createCell(content = '', colspan = 1, rowspan = 1)]; the source calls
    it with no argument, or with the content alone. *)
Definition createCell (content : jsstring) (colspan rowspan : Z) : Cell :=
  {| content := content; colspan := colspan; rowspan := rowspan |}.
Definition createCell1 (content : jsstring) : Cell := createCell content 1 1.
Definition createCell0 : Cell := createCell [] 1 1.

Definition createRow (cells : list Cell) (isHeader : bool) : Row :=
  {| isHeader := isHeader; cells := cells |}.

Definition createTable (rows : list Row) (alignments : list jsstring) : Table :=
  {| alignments := alignments; rows := rows |}.

(** The inner loop of [getColumnCount] and [normalizeTable]:
    [count += cell.colspan] over the cells of a row. *)
Definition colspanSum (cs : list Cell) : Z :=
  fold_left (fun count cell => count + colspan cell) cs 0.

(** The outer loop of [getColumnCount], with [max] starting at [m]. *)
Definition maxFrom (m : Z) (rs : list Row) : Z :=
  fold_left (fun max row =>
               let count := colspanSum (cells row) in
               if max <? count then count else max)
            rs m.

Definition getColumnCount (table : Table) : Z := maxFrom 0 (rows table).

(** [while (currentCols < colCount) { row.cells.push(createCell()); currentCols++; }] *)
Definition padCells (colCount : Z) (cs : list Cell) : list Cell :=
  cs ++ replicate (Z.to_nat (colCount - colspanSum cs)) createCell0.

Definition padRow (colCount : Z) (row : Row) : Row :=
  {| isHeader := isHeader row; cells := padCells colCount (cells row) |}.

(** [while (a.length < colCount) a.push('left')]. *)
Definition padAlignments (colCount : Z) (a : list jsstring) : list jsstring :=
  a ++ replicate (Z.to_nat (colCount - Z.of_nat (length a))) (lit "left").

(** The table that [normalizeTable] leaves behind, as a value. *)
Definition normalizeTable (table : Table) : Table :=
  let colCount := getColumnCount table in
  {| alignments := take (Z.to_nat colCount) (padAlignments colCount (alignments table));
     rows := map (padRow colCount) (rows table) |}.

(** ** The same module on a store of objects

    [normalizeTable] updates its argument in place: it pushes onto the
    [cells] array of every row and onto the [alignments] array, and then
    assigns a fresh array (the result of [slice]) to [table.alignments].
    Arrays and table objects live in a store and are named by locations, so
    that two rows may share one [cells] array.  Row objects and the [rows]
    array are only read by this module and are kept by value. *)

Module Heap.

Abbreviation loc := positive.

Record RowObj := mkRowObj { rowIsHeader : bool; rowCells : loc }.
Record TableObj := mkTableObj { tableAlignments : loc; tableRows : list RowObj }.

Record store := mkStore {
  cellArrays : gmap loc (list Cell);
  stringArrays : gmap loc (list jsstring);
  tables : gmap loc TableObj
}.

Definition setCells (l : loc) (cs : list Cell) (s : store) : store :=
  {| cellArrays := <[l := cs]> (cellArrays s);
     stringArrays := stringArrays s; tables := tables s |}.

Definition setStrings (l : loc) (a : list jsstring) (s : store) : store :=
  {| cellArrays := cellArrays s;
     stringArrays := <[l := a]> (stringArrays s); tables := tables s |}.

Definition setTable (l : loc) (t : TableObj) (s : store) : store :=
  {| cellArrays := cellArrays s; stringArrays := stringArrays s;
     tables := <[l := t]> (tables s) |}.

(** A location that holds no array of strings yet. *)
Definition freshStrings (s : store) : loc := fresh (dom (stringArrays s)).

(** The rows of a table object with their cells, as the store has them. *)
Fixpoint readRows (s : store) (rs : list RowObj) : option (list Row) :=
  match rs with
  | [] => Some []
  | r :: rs' =>
      match cellArrays s !! rowCells r, readRows s rs' with
      | Some cs, Some rows' => Some (mkRow (rowIsHeader r) cs :: rows')
      | _, _ => None
      end
  end.

(** The table value a location denotes. *)
Definition readTable (s : store) (t : loc) : option Table :=
  match tables s !! t with
  | Some tbl =>
      match stringArrays s !! tableAlignments tbl, readRows s (tableRows tbl) with
      | Some a, Some rs => Some (mkTable a rs)
      | _, _ => None
      end
  | None => None
  end.

Definition getColumnCount (s : store) (t : loc) : option Z :=
  getColumnCount <$> readTable s t.

(** The loop over [table.rows]: each row's [cells] array is padded where
    it lives. *)
Fixpoint padRows (colCount : Z) (rs : list RowObj) (s : store) : option store :=
  match rs with
  | [] => Some s
  | r :: rs' =>
      match cellArrays s !! rowCells r with
      | Some cs => padRows colCount rs' (setCells (rowCells r) (padCells colCount cs) s)
      | None => None
      end
  end.

(** [normalizeTable(table)]: the returned reference and the store after the
    call; [None] when a reference dangles. *)
Definition normalizeTable (t : loc) (s : store) : option (loc * store) :=
  match getColumnCount s t, tables s !! t with
  | Some colCount, Some tbl =>
      match padRows colCount (tableRows tbl) s with
      | Some s1 =>
          match stringArrays s1 !! tableAlignments tbl with
          | Some a =>
              let padded := padAlignments colCount a in
              let s2 := setStrings (tableAlignments tbl) padded s1 in
              let sliced := freshStrings s2 in
              let s3 := setStrings sliced (take (Z.to_nat colCount) padded) s2 in
              Some (t, setTable t (mkTableObj sliced (tableRows tbl)) s3)
          | None => None
          end
      | None => None
      end
  | _, _ => None
  end.

End Heap.

(** A store in which the two rows of the table share one array of cells. *)
Definition sharedCellsStore : Heap.store :=
  {| Heap.cellArrays := {[ 1%positive := [createCell1 (lit "a")] ]};
     Heap.stringArrays := {[ 1%positive := [lit "center"; lit "right"] ]};
     Heap.tables := {[ 1%positive :=
        Heap.mkTableObj 1 [Heap.mkRowObj true 1; Heap.mkRowObj false 1] ]} |}.

(** ** markdownToHtml.js *)

Definition nl : ascii := "010"%char.
Definition dquote : ascii := "034"%char.

(** [[\s:|-]] *)
Definition isSeparatorChar (c : ascii) : bool :=
  Js.isSpace c || Ascii.eqb c ":" || Ascii.eqb c "|" || Ascii.eqb c "-".

(** [SEPARATOR_RE.test(line)] for [/^\|[\s:|-]+\|$/]: a pipe, one or more
    characters of the class, a pipe, and nothing else.  The pipe is in the
    class, so the line matches when its first and last characters are pipes
    and what lies between is not empty and within the class. *)
Definition SEPARATOR_RE_test (line : jsstring) : bool :=
  match line with
  | "|"%char :: rest =>
      match rev rest with
      | "|"%char :: dim => negb (is_nil dim) && forallb isSeparatorChar dim
      | _ => false
      end
  | _ => false
  end.

(** [s.replace(/^\|/, '')] and [s.replace(/\|$/, '')]. *)
Definition stripLeadingPipe (s : jsstring) : jsstring :=
  match s with
  | "|"%char :: r => r
  | _ => s
  end.

Definition stripTrailingPipe (s : jsstring) : jsstring :=
  match rev s with
  | "|"%char :: r => rev r
  | _ => s
  end.

Definition stripPipes (line : jsstring) : jsstring :=
  stripTrailingPipe (stripLeadingPipe line).

Definition alignmentOfSegment (seg : jsstring) : jsstring :=
  let trimmed := Js.trim seg in
  let left := Js.startsWith ":" trimmed in
  let right := Js.endsWith ":" trimmed in
  if left && right then lit "center"
  else if right then lit "right"
  else lit "left".

Definition parseAlignments (separatorLine : jsstring) : list jsstring :=
  let raw := stripPipes separatorLine in
  map alignmentOfSegment (Js.split "|" raw).

(** [inner.split(/(?<!\\)\|/)]: the pieces between the pipes that do not
    follow a backslash; [afterBackslash] tells that the previous character
    was a backslash. *)
Fixpoint splitPipes (afterBackslash : bool) (s : jsstring) : list jsstring :=
  match s with
  | [] => [[]]
  | c :: r =>
      if Ascii.eqb c "|" && negb afterBackslash
      then [] :: splitPipes false r
      else Js.consHead c (splitPipes (Ascii.eqb c "\") r)
  end.

(** [p.replace(/\\\|/g, '|')] *)
Fixpoint unescapePipes (s : jsstring) : jsstring :=
  match s with
  | [] => []
  | "\"%char :: "|"%char :: r => "|"%char :: unescapePipes r
  | c :: r => c :: unescapePipes r
  end.

Definition parseCells (line : jsstring) : list jsstring :=
  let inner := stripPipes line in
  let parts := splitPipes false inner in
  map (fun p => unescapePipes (Js.trim p)) parts.

(** The search loop for the separator row, from index [i]. *)
Fixpoint findSeparator (i : nat) (lines : list jsstring) : option nat :=
  match lines with
  | [] => None
  | l :: ls => if SEPARATOR_RE_test l then Some i else findSeparator (S i) ls
  end.

(** [markdown.split('\n').map(l => l.trim()).filter(l => l.length > 0)] *)
Definition markdownLines (markdown : jsstring) : list jsstring :=
  List.filter (fun l => negb (is_nil l)) (map Js.trim (Js.split nl markdown)).

Definition rowOfLine (header : bool) (line : jsstring) : Row :=
  createRow (map createCell1 (parseCells line)) header.

Definition parseMarkdownTable (markdown : jsstring) : option Table :=
  let lines := markdownLines markdown in
  if (length lines <? 2)%nat then None
  else
    match findSeparator 0 lines with
    | None => None
    | Some separatorIndex =>
        let alignments := parseAlignments (nth separatorIndex lines []) in
        let headerLines := take separatorIndex lines in
        let dataLines := drop (S separatorIndex) lines in
        let rows := map (rowOfLine true) headerLines ++ map (rowOfLine false) dataLines in
        Some (normalizeTable (createTable rows alignments))
    end.

Definition jsEq (a : jsstring) (b : string) : bool :=
  bool_decide (a = lit b).

Definition alignStyle (alignment : jsstring) : jsstring :=
  if jsEq alignment "center" then lit "text-align: center;"
  else if jsEq alignment "right" then lit "text-align: right;"
  else lit "text-align: left;".

Definition escapeHtml (str : jsstring) : jsstring :=
  Js.replaceChar dquote (lit "&quot;")
    (Js.replaceChar ">" (lit "&gt;")
       (Js.replaceChar "<" (lit "&lt;")
          (Js.replaceChar "&" (lit "&amp;") str))).

(** [table.alignments[i] || 'left'] *)
Definition alignmentAt (al : list jsstring) (i : nat) : jsstring :=
  match al !! i with
  | Some (c :: s) => c :: s
  | _ => lit "left"
  end.

Definition cellStyle : jsstring := lit "border: 1px solid black; padding: 6px 12px;".

(** One [<th>] or [<td>] line of the markup. *)
Definition htmlCell (tag : jsstring) (bold : bool) (al : list jsstring) (i : nat) (cell : Cell) : jsstring :=
  let align := alignmentAt al i in
  let attrs := lit "style=" ++ [dquote] ++ cellStyle ++ lit " " ++ alignStyle align
               ++ (if bold then lit " font-weight: bold;" else []) ++ [dquote] in
  lit "      <" ++ tag ++ lit " " ++ attrs ++ lit ">" ++ escapeHtml (content cell)
    ++ lit "</" ++ tag ++ lit ">" ++ [nl].

Definition htmlRow (tag : jsstring) (bold : bool) (al : list jsstring) (row : Row) : jsstring :=
  lit "    <tr>" ++ [nl]
    ++ concat (imap (htmlCell tag bold al) (cells row))
    ++ lit "    </tr>" ++ [nl].

Definition tableModelToHtml (table : Table) : jsstring :=
  let headerRows := List.filter isHeader (rows table) in
  let dataRows := List.filter (fun r => negb (isHeader r)) (rows table) in
  lit "<table style=" ++ [dquote] ++ lit "border-collapse: collapse; border: 1px solid black;"
    ++ [dquote] ++ lit ">" ++ [nl]
    ++ (if is_nil headerRows then []
        else lit "  <thead>" ++ [nl]
             ++ concat (map (htmlRow (lit "th") true (alignments table)) headerRows)
             ++ lit "  </thead>" ++ [nl])
    ++ (if is_nil dataRows then []
        else lit "  <tbody>" ++ [nl]
             ++ concat (map (htmlRow (lit "td") false (alignments table)) dataRows)
             ++ lit "  </tbody>" ++ [nl])
    ++ lit "</table>".

Definition markdownToHtml (markdown : jsstring) : option jsstring :=
  tableModelToHtml <$> parseMarkdownTable markdown.

(** ** The table element handed to the HTML parser

    What [htmlTableToModel] reads of a DOM table without nested tables: the
    sections in document order, the rows of each section, and for every cell
    element its text and the attributes and style the code asks for. *)

Record CellEl := mkCellEl {
  textContent : jsstring;
  colspanAttr : option jsstring;   (* getAttribute('colspan') *)
  rowspanAttr : option jsstring;   (* getAttribute('rowspan') *)
  alignAttr : option jsstring;     (* getAttribute('align') *)
  styleTextAlign : jsstring        (* style.textAlign, empty when unset *)
}.

Inductive SectionKind := THead | TBody | TFoot.

Record SectionEl := mkSectionEl { sectionKind : SectionKind; sectionRows : list (list CellEl) }.

Record TableEl := mkTableEl { sections : list SectionEl }.

Definition isTHead (k : SectionKind) : bool :=
  match k with
  | THead => true
  | _ => false
  end.

(** [tableEl.querySelectorAll('tr')] in document order; each row comes with
    the answer of [theadRows.has(tr)], that is whether it belongs to the
    first [<thead>] of the table ([tableEl.querySelector('thead')]). *)
Fixpoint trElementsFrom (seenTHead : bool) (ss : list SectionEl) : list (bool * list CellEl) :=
  match ss with
  | [] => []
  | s :: ss' =>
      map (pair (isTHead (sectionKind s) && negb seenTHead)) (sectionRows s)
        ++ trElementsFrom (seenTHead || isTHead (sectionKind s)) ss'
  end.

Definition trElements (tableEl : TableEl) : list (bool * list CellEl) :=
  trElementsFrom false (sections tableEl).

(** [tableEl.querySelectorAll('td, th')] *)
Definition cellElementsOf (tableEl : TableEl) : list CellEl :=
  concat (map snd (trElements tableEl)).

(** ** htmlToMarkdown.js *)

(** [a || d] for an attribute value: [null] and the empty string give [d]. *)
Definition attrOr (a : option jsstring) (d : jsstring) : jsstring :=
  match a with
  | Some (c :: s) => c :: s
  | _ => d
  end.

(** [cellEl.getAttribute('align') || (cellEl.style && cellEl.style.textAlign) || null] *)
Definition cellAlign (cellEl : CellEl) : option jsstring :=
  match alignAttr cellEl with
  | Some (c :: s) => Some (c :: s)
  | _ => match styleTextAlign cellEl with
         | [] => None
         | c :: s => Some (c :: s)
         end
  end.

(** [n > 1] for a parsed number, false for [NaN]. *)
Definition gt1 (n : option Z) : bool :=
  match n with
  | Some z => 1 <? z
  | None => false
  end.

(** The number of turns of [for (let c = 0; c < n; c++)]. *)
Definition turns (n : option Z) : nat :=
  match n with
  | Some z => Z.to_nat z
  | None => O
  end.

(** The ledger [rowspanTracker]: a sparse array of [{ remaining }] entries. *)
Abbreviation ledger := (list (option Z)).

(** [rowspanTracker[colIdx] && rowspanTracker[colIdx].remaining > 0] *)
Definition owed (rowspanTracker : ledger) (colIdx : nat) : bool :=
  match rowspanTracker !! colIdx with
  | Some (Some remaining) => 0 <? remaining
  | _ => false
  end.

(** [rowspanTracker[colIdx].remaining--] *)
Definition decrement (rowspanTracker : ledger) (colIdx : nat) : ledger :=
  match rowspanTracker !! colIdx with
  | Some (Some remaining) => <[colIdx := Some (remaining - 1)]> rowspanTracker
  | _ => rowspanTracker
  end.

(** [rowspanTracker[colIdx] = { remaining }]: an assignment past the end
    extends the array, leaving holes. *)
Definition assign (rowspanTracker : ledger) (colIdx : nat) (remaining : Z) : ledger :=
  if (colIdx <? length rowspanTracker)%nat
  then <[colIdx := Some remaining]> rowspanTracker
  else rowspanTracker ++ replicate (colIdx - length rowspanTracker)%nat None ++ [Some remaining].

(** The variables of the loop over one row. *)
Record RowState := mkRowState {
  outCells : list Cell;
  colIdx : nat;
  cellElIdx : nat;
  rowspanTracker : ledger;
  alignmentsOut : list jsstring
}.

(** Lines 43-45: a filler for a column covered from above. *)
Definition emitFiller (st : RowState) : RowState :=
  {| outCells := outCells st ++ [createCell1 []];
     colIdx := S (colIdx st);
     cellElIdx := cellElIdx st;
     rowspanTracker := decrement (rowspanTracker st) (colIdx st);
     alignmentsOut := alignmentsOut st |}.

(** Lines 67-86: the loop [for (let c = 0; c < colspan; c++)], with [n]
    turns left; [first] holds in the turn [c === 0], [capture] is
    [isHeader && !alignmentsSet]. *)
Fixpoint expandCell (n : nat) (first : bool) (cellContent : jsstring) (rowspan : option Z)
    (align : option jsstring) (capture : bool) (st : RowState) : RowState :=
  match n with
  | O => st
  | S n' =>
      expandCell n' false cellContent rowspan align capture
        {| outCells := outCells st ++ [createCell1 (if first then cellContent else [])];
           colIdx := S (colIdx st);
           cellElIdx := cellElIdx st;
           rowspanTracker :=
             (if gt1 rowspan
              then assign (rowspanTracker st) (colIdx st) (default 0 rowspan - 1)
              else rowspanTracker st);
           alignmentsOut :=
             (if capture
              then alignmentsOut st ++ [match align with
                                        | Some a => Js.toLowerCase a
                                        | None => lit "left"
                                        end]
              else alignmentsOut st) |}
  end.

(** Lines 51-88: one cell element is read and expanded. *)
Definition consumeCell (capture : bool) (cellEl : CellEl) (st : RowState) : RowState :=
  let content := Js.trim (Js.collapseWhitespace (textContent cellEl)) in
  let colspan := Js.parseInt (attrOr (colspanAttr cellEl) (lit "1")) in
  let rowspan := Js.parseInt (attrOr (rowspanAttr cellEl) (lit "1")) in
  let align := cellAlign cellEl in
  let st' := expandCell (turns colspan) true content rowspan align capture st in
  {| outCells := outCells st'; colIdx := colIdx st'; cellElIdx := S (cellElIdx st');
     rowspanTracker := rowspanTracker st'; alignmentsOut := alignmentsOut st' |}.

(** Lines 40-89: the [while] loop over the columns of a row, run for at
    most [fuel] turns. *)
Fixpoint rowLoop (fuel : nat) (capture : bool) (cellElements : list CellEl) (st : RowState) : RowState :=
  match fuel with
  | O => st
  | S fuel' =>
      if (cellElIdx st <? length cellElements)%nat || owed (rowspanTracker st) (colIdx st)
      then
        if owed (rowspanTracker st) (colIdx st)
        then rowLoop fuel' capture cellElements (emitFiller st)
        else
          match cellElements !! cellElIdx st with
          | None => st
          | Some cellEl => rowLoop fuel' capture cellElements (consumeCell capture cellEl st)
          end
      else st
  end.

(** Lines 92-96: the [while] loop after the cells of the row. *)
Fixpoint drainLoop (fuel : nat) (st : RowState) : RowState :=
  match fuel with
  | O => st
  | S fuel' =>
      if owed (rowspanTracker st) (colIdx st)
      then drainLoop fuel' (emitFiller st)
      else st
  end.

(** A number of turns the loops of a row cannot exceed: every turn either
    reads a cell element or moves one column to the right inside the
    ledger. *)
Definition rowFuel (cellElements : list CellEl) (st : RowState) : nat :=
  ((length cellElements - cellElIdx st) + (length (rowspanTracker st) - colIdx st))%nat.

(** Lines 37-96: the two loops of a row, one after the other. *)
Definition runRow (capture : bool) (cellElements : list CellEl) (st0 : RowState) : RowState :=
  let st1 := rowLoop (rowFuel cellElements st0) capture cellElements st0 in
  drainLoop (rowFuel cellElements st1) st1.

(** The same walk told cell by cell: the fillers owed at the current
    column and the columns after it are emitted, then the next cell element
    is read, and so on until the cells are exhausted and no filler is owed
    at the current column. *)
Definition drainAll (st : RowState) : RowState :=
  drainLoop (length (rowspanTracker st) - colIdx st) st.

Fixpoint walkRow (capture : bool) (remainingCells : list CellEl) (st : RowState) : RowState :=
  match remainingCells with
  | [] => drainAll st
  | cellEl :: cellEls => walkRow capture cellEls (consumeCell capture cellEl (drainAll st))
  end.

(** A state of the walk with another count of cell elements read. *)
Definition withCellElIdx (i : nat) (st : RowState) : RowState :=
  {| outCells := outCells st; colIdx := colIdx st; cellElIdx := i;
     rowspanTracker := rowspanTracker st; alignmentsOut := alignmentsOut st |}.

(** The variables that live across the rows of a table. *)
Record TableState := mkTableState {
  rowsOut : list Row;
  alignmentsAcc : list jsstring;
  alignmentsSet : bool;
  trackerAcc : ledger
}.

(** Lines 32-102: the body of the loop over the rows. *)
Definition processRow (treatFirstAsHeader : bool) (rowIdx : nat)
    (tr : bool * list CellEl) (ts : TableState) : TableState :=
  let isHeader := fst tr || (treatFirstAsHeader && (rowIdx =? 0)%nat) in
  let cellElements := snd tr in
  let capture := isHeader && negb (alignmentsSet ts) in
  let st0 := {| outCells := []; colIdx := O; cellElIdx := O;
                rowspanTracker := trackerAcc ts; alignmentsOut := alignmentsAcc ts |} in
  let st2 := runRow capture cellElements st0 in
  {| rowsOut := rowsOut ts ++ [createRow (outCells st2) isHeader];
     alignmentsAcc := alignmentsOut st2;
     alignmentsSet := alignmentsSet ts || isHeader;
     trackerAcc := rowspanTracker st2 |}.

Fixpoint processRows (treatFirstAsHeader : bool) (rowIdx : nat)
    (trs : list (bool * list CellEl)) (ts : TableState) : TableState :=
  match trs with
  | [] => ts
  | tr :: trs' =>
      processRows treatFirstAsHeader (S rowIdx) trs' (processRow treatFirstAsHeader rowIdx tr ts)
  end.

Definition initialTableState : TableState :=
  {| rowsOut := []; alignmentsAcc := []; alignmentsSet := false; trackerAcc := [] |}.

Definition htmlTableToModel (tableEl : TableEl) : option Table :=
  let trs := trElements tableEl in
  if is_nil trs then None
  else
    let treatFirstAsHeader := negb (existsb fst trs) in
    let ts := processRows treatFirstAsHeader O trs initialTableState in
    Some (normalizeTable (createTable (rowsOut ts) (alignmentsAcc ts))).

Definition escapeMarkdownCell (content : jsstring) : jsstring :=
  Js.replaceChar "|" (lit "\|") content.

(** Lines 124-130: the column widths, one row at a time. *)
Definition widenBy (row : Row) (widths : list nat) : list nat :=
  imap (fun i w =>
          match cells row !! i with
          | Some cell => Nat.max w (length (escapeMarkdownCell (content cell)))
          | None => w
          end) widths.

Definition columnWidths (colCount : nat) (rs : list Row) : list nat :=
  fold_left (fun widths row => widenBy row widths) rs (replicate colCount 3%nat).

(** Lines 147-152 and 172-177: one line of the table. *)
Definition markdownRow (colCount : nat) (widths : list nat) (row : Row) : jsstring :=
  let cellTexts :=
    map (fun i =>
           let content := match cells row !! i with
                          | Some cell => escapeMarkdownCell (content cell)
                          | None => []
                          end in
           lit " " ++ Js.padEnd (nth i widths O) content ++ lit " ")
        (seq 0 colCount) in
  lit "|" ++ Js.join (lit "|") cellTexts ++ lit "|".

(** Lines 156-168: the separator line. *)
Definition markdownSeparator (colCount : nat) (widths : list nat) (al : list jsstring) : jsstring :=
  let separators :=
    map (fun i =>
           let align := alignmentAt al i in
           let w := nth i widths O in
           if jsEq align "center" then lit ":" ++ Js.repeatChar "-" w ++ lit ":"
           else if jsEq align "right" then Js.repeatChar "-" w ++ lit "-:"
           else Js.repeatChar "-" (w + 2))
        (seq 0 colCount) in
  lit "|" ++ Js.join (lit "|") separators ++ lit "|".

Definition tableModelToMarkdown (table : Table) : jsstring :=
  match rows table with
  | [] => []
  | row0 :: rest =>
      let colCount := length (alignments table) in
      let widths := columnWidths colCount (rows table) in
      let headerRows := List.filter isHeader (rows table) in
      let dataRows := List.filter (fun r => negb (isHeader r)) (rows table) in
      let '(actualHeaders, actualData) :=
        if is_nil headerRows then ([row0], rest) else (headerRows, dataRows) in
      Js.join [nl]
        (map (markdownRow colCount widths) actualHeaders
           ++ [markdownSeparator colCount widths (alignments table)]
           ++ map (markdownRow colCount widths) actualData)
  end.

(** The two warnings of [htmlToMarkdown]; the dash of the first is kept in
    its UTF-8 encoding. *)
Definition tablesWarning (tableCount : Z) : jsstring :=
  lit "Found " ++ Js.showZ tableCount ++ lit " tables — only the first was converted.".

Definition mergedWarning : jsstring :=
  lit "Merged cells were expanded into separate cells.".

Definition isMerged (cell : CellEl) : bool :=
  let colspan := Js.parseInt (attrOr (colspanAttr cell) (lit "1")) in
  let rowspan := Js.parseInt (attrOr (rowspanAttr cell) (lit "1")) in
  gt1 colspan || gt1 rowspan.

Definition jsstring_eq_dec : forall a b : jsstring, {a = b} + {a <> b} :=
  List.list_eq_dec ascii_dec.

Record Sanitized := mkSanitized { table : TableEl; tableCount : Z }.
Record Converted := mkConverted { markdown : jsstring; warnings : list jsstring }.

Section HtmlToMarkdown.

(** The sanitizer is a collaborator of this module: a function from the
    markup to [null] or to a clean table element and the number of tables
    of the markup. *)
Variable sanitizeWordHtml : jsstring -> option Sanitized.

Definition htmlToMarkdown (htmlString : jsstring) : option Converted :=
  match sanitizeWordHtml htmlString with
  | None => None
  | Some result =>
      match htmlTableToModel (table result) with
      | None => None
      | Some model =>
          let warnings1 :=
            if 1 <? tableCount result then [tablesWarning (tableCount result)] else [] in
          let warnings2 :=
            if existsb isMerged (cellElementsOf (table result)) then [mergedWarning] else [] in
          Some {| markdown := tableModelToMarkdown model;
                  warnings := warnings1 ++ warnings2 |}
      end
  end.

End HtmlToMarkdown.

(** ** htmlSanitizer.js: [containsTable] *)

(** The folding of a character under the flag [i] of a regular expression,
    for the comparison with an ASCII letter of the pattern: among the code
    units below U+0100 only the two cases of the letter match it. *)
Definition foldCase (c : ascii) : ascii :=
  let n := N_of_ascii c in
  if ((65 <=? n) && (n <=? 90))%N then ascii_of_N (n + 32) else c.

(** The text after the pattern [pat], given in lower case, when [s] begins
    with it in either case. *)
Fixpoint afterPrefix (pat s : jsstring) : option jsstring :=
  match pat, s with
  | [], _ => Some s
  | p :: pat', c :: s' => if Ascii.eqb (foldCase c) p then afterPrefix pat' s' else None
  | _ :: _, [] => None
  end.

(** [/<table[\s>]/i] matches at the beginning of [s]. *)
Definition tableTagAt (s : jsstring) : bool :=
  match afterPrefix (lit "<table") s with
  | Some (c :: _) => Js.isSpace c || Ascii.eqb c ">"
  | _ => false
  end.

(** [/<table[\s>]/i.test(s)]: the pattern matches somewhere in [s]. *)
Fixpoint tableTagIn (s : jsstring) : bool :=
  tableTagAt s
  || match s with
     | [] => false
     | _ :: r => tableTagIn r
     end.

(** [containsTable(htmlString)]; the argument may be [null]. *)
Definition containsTable (htmlString : option jsstring) : bool :=
  match htmlString with
  | None => false
  | Some [] => false
  | Some s => tableTagIn s
  end.

(** ** htmlSanitizer.js: the attributes of an element

    The loop of [sanitizeWordHtml] over the elements of the table works on
    one element at a time and only through [getAttribute],
    [removeAttribute] and [setAttribute].  The attributes of an element are
    a finite map from names to values. *)
Abbreviation attributeMap := (gmap jsstring jsstring).

(** The word [pat], given in lower case, at the beginning of [s], as it is
    spelled there. *)
Definition wordAt (pat s : jsstring) : option jsstring :=
  match afterPrefix pat s with
  | Some _ => Some (take (length pat) s)
  | None => None
  end.

(** [/text-align:\s*(left|center|right)/i] at the beginning of [s]: the
    text of the group. *)
Definition alignMatchAt (s : jsstring) : option jsstring :=
  match afterPrefix (lit "text-align:") s with
  | Some r =>
      let word := Js.dropWhile Js.isSpace r in
      match wordAt (lit "left") word with
      | Some w => Some w
      | None =>
          match wordAt (lit "center") word with
          | Some w => Some w
          | None => wordAt (lit "right") word
          end
      end
  | None => None
  end.

(** [style.match(/text-align:\s*(left|center|right)/i)]: the group of the
    leftmost match, [None] for [null]. *)
Fixpoint alignMatch (style : jsstring) : option jsstring :=
  match alignMatchAt style with
  | Some w => Some w
  | None =>
      match style with
      | [] => None
      | _ :: r => alignMatch r
      end
  end.

(** Lines 30-32: the alignment of an element, from its [align] attribute
    or else from its [style] attribute. *)
Definition elementAlign (attrs : attributeMap) : option jsstring :=
  let style := attrOr (attrs !! lit "style") [] in
  match attrs !! lit "align" with
  | Some (c :: s) => Some (c :: s)
  | _ => Js.toLowerCase <$> alignMatch style
  end.

(** Lines 29-44: the body of the loop over the elements of the table. *)
Definition cleanElement (attrs : attributeMap) : attributeMap :=
  let align := elementAlign attrs in
  let attrs' :=
    delete (lit "valign")
      (delete (lit "height")
         (delete (lit "width")
            (delete (lit "class")
               (delete (lit "style") attrs)))) in
  match align with
  | Some (c :: s) => <[lit "align" := c :: s]> attrs'
  | _ => attrs'
  end.

(** ** The platform: parsing table markup into a table element

    [htmlTableToModel] takes a DOM element; the round trip of the tests
    obtains it from the markup with
    [new DOMParser().parseFromString(html, 'text/html').querySelector('table')].
    The parser is the platform's, not this repository's.  It is modelled
    here for table markup: the tags [table], [thead], [tbody], [tfoot],
    [tr], [th] and [td] (any other tag leaves its text to the open cell),
    attributes with double-quoted or unquoted values, and the character
    references [&amp;], [&lt;], [&gt;] and [&quot;].  As the platform
    does, the model normalizes the line breaks of the markup before it
    reads it (a carriage return, with the line feed that follows it if
    there is one, becomes one line feed), and it ignores the character
    U+0000 in text.  How the [style] attribute is read is the platform's
    matter too: [style.textAlign] is taken as a function [textAlign] of
    the text of the [style] attribute and is not interpreted here.  The markup is read
    one character at a time. *)

Module DOMParser.

(** *** The input stream *)

Definition cr : ascii := "013"%char.
Definition nul : ascii := "000"%char.

(** The line breaks of the input stream are normalized before it is
    read; [afterCR] tells that the previous character was a carriage
    return. *)
Fixpoint normalizeNewlinesFrom (afterCR : bool) (s : jsstring) : jsstring :=
  match s with
  | [] => []
  | c :: r =>
      if Ascii.eqb c cr then nl :: normalizeNewlinesFrom true r
      else if Ascii.eqb c nl && afterCR then normalizeNewlinesFrom false r
      else c :: normalizeNewlinesFrom false r
  end.

Definition normalizeNewlines (s : jsstring) : jsstring := normalizeNewlinesFrom false s.

Inductive Mode :=
| Data                                      (* between tags *)
| Reference (name : jsstring)               (* after [&] *)
| Tag (text : jsstring) (quoted : bool).    (* after [<] *)

Record Builder := mkBuilder {
  mode : Mode;
  cellOpen : option CellEl;                          (* the open cell and its text so far *)
  rowOpen : option (list CellEl);                    (* the cells of the open row *)
  sectionOpen : option (SectionKind * list (list CellEl));
  sectionsDone : list SectionEl;
  tableSeen : bool;
  tableClosed : bool
}.

Definition initial : Builder :=
  {| mode := Data; cellOpen := None; rowOpen := None; sectionOpen := None;
     sectionsDone := []; tableSeen := false; tableClosed := false |}.

Definition setMode (m : Mode) (b : Builder) : Builder :=
  {| mode := m; cellOpen := cellOpen b; rowOpen := rowOpen b;
     sectionOpen := sectionOpen b; sectionsDone := sectionsDone b;
     tableSeen := tableSeen b; tableClosed := tableClosed b |}.

(** Text belongs to the open cell; between the cells of a table there is
    only white space, which belongs to no cell. *)
Definition addText (t : jsstring) (b : Builder) : Builder :=
  match cellOpen b with
  | Some cell =>
      {| mode := mode b;
         cellOpen := Some {| textContent := textContent cell ++ t;
                             colspanAttr := colspanAttr cell;
                             rowspanAttr := rowspanAttr cell;
                             alignAttr := alignAttr cell;
                             styleTextAlign := styleTextAlign cell |};
         rowOpen := rowOpen b; sectionOpen := sectionOpen b;
         sectionsDone := sectionsDone b;
         tableSeen := tableSeen b; tableClosed := tableClosed b |}
  | None => b
  end.

Definition closeCell (b : Builder) : Builder :=
  match cellOpen b with
  | Some cell =>
      {| mode := mode b; cellOpen := None;
         rowOpen := Some (default [] (rowOpen b) ++ [cell]);
         sectionOpen := sectionOpen b; sectionsDone := sectionsDone b;
         tableSeen := tableSeen b; tableClosed := tableClosed b |}
  | None => b
  end.

Definition closeRow (b : Builder) : Builder :=
  let b := closeCell b in
  match rowOpen b with
  | Some cells =>
      {| mode := mode b; cellOpen := None; rowOpen := None;
         sectionOpen := Some (match sectionOpen b with
                              | Some (k, rows) => (k, rows ++ [cells])
                              | None => (TBody, [cells])
                              end);
         sectionsDone := sectionsDone b;
         tableSeen := tableSeen b; tableClosed := tableClosed b |}
  | None => b
  end.

Definition closeSection (b : Builder) : Builder :=
  let b := closeRow b in
  match sectionOpen b with
  | Some (k, rows) =>
      {| mode := mode b; cellOpen := None; rowOpen := None; sectionOpen := None;
         sectionsDone := sectionsDone b ++ [mkSectionEl k rows];
         tableSeen := tableSeen b; tableClosed := tableClosed b |}
  | None => b
  end.

Definition openSection (k : SectionKind) (b : Builder) : Builder :=
  let b := closeSection b in
  {| mode := mode b; cellOpen := None; rowOpen := None; sectionOpen := Some (k, []);
     sectionsDone := sectionsDone b;
     tableSeen := tableSeen b; tableClosed := tableClosed b |}.

(** A row outside a section opens a [tbody]. *)
Definition openRow (b : Builder) : Builder :=
  let b := closeRow b in
  {| mode := mode b; cellOpen := None; rowOpen := Some [];
     sectionOpen := Some (default (TBody, []) (sectionOpen b));
     sectionsDone := sectionsDone b;
     tableSeen := tableSeen b; tableClosed := tableClosed b |}.

(** A cell outside a row opens a row. *)
Definition openCell (cell : CellEl) (b : Builder) : Builder :=
  let b := closeCell b in
  let b := match rowOpen b with
           | Some _ => b
           | None => openRow b
           end in
  {| mode := mode b; cellOpen := Some cell; rowOpen := rowOpen b;
     sectionOpen := sectionOpen b; sectionsDone := sectionsDone b;
     tableSeen := tableSeen b; tableClosed := tableClosed b |}.

(** *** Attributes *)

Inductive AttrPhase :=
| Between
| Name (name : jsstring)
| Equals (name : jsstring)
| Quoted (name value : jsstring)
| Unquoted (name value : jsstring).

Definition attrStep (st : list (jsstring * jsstring) * AttrPhase) (c : ascii)
  : list (jsstring * jsstring) * AttrPhase :=
  let '(done, phase) := st in
  match phase with
  | Between => if Js.isSpace c then (done, Between) else (done, Name [c])
  | Name name =>
      if Ascii.eqb c "=" then (done, Equals name)
      else if Js.isSpace c then (done ++ [(name, [])], Between)
      else (done, Name (name ++ [c]))
  | Equals name =>
      if Ascii.eqb c dquote then (done, Quoted name [])
      else if Js.isSpace c then (done, Equals name)
      else (done, Unquoted name [c])
  | Quoted name value =>
      if Ascii.eqb c dquote then (done ++ [(name, value)], Between)
      else (done, Quoted name (value ++ [c]))
  | Unquoted name value =>
      if Js.isSpace c then (done ++ [(name, value)], Between)
      else (done, Unquoted name (value ++ [c]))
  end.

Definition attributes (text : jsstring) : list (jsstring * jsstring) :=
  match fold_left attrStep text ([], Between) with
  | (done, Name name) => done ++ [(name, [])]
  | (done, Equals name) => done ++ [(name, [])]
  | (done, Quoted name value) => done ++ [(name, value)]
  | (done, Unquoted name value) => done ++ [(name, value)]
  | (done, Between) => done
  end.

(** [el.getAttribute(name)]: the first attribute of that name. *)
Fixpoint getAttribute (name : jsstring) (attrs : list (jsstring * jsstring)) : option jsstring :=
  match attrs with
  | [] => None
  | (n, v) :: rest =>
      if bool_decide (Js.toLowerCase n = name) then Some v else getAttribute name rest
  end.

Section Style.

(** [el.style.textAlign] as the platform reads it from the text of the
    [style] attribute. *)
Variable textAlign : jsstring -> jsstring.

(** [el.style.textAlign]: the empty string for an element without a
    [style] attribute. *)
Definition styleTextAlignOf (style : option jsstring) : jsstring :=
  match style with
  | None => []
  | Some s => textAlign s
  end.

Definition cellElement (attrText : jsstring) : CellEl :=
  let attrs := attributes attrText in
  {| textContent := [];
     colspanAttr := getAttribute (lit "colspan") attrs;
     rowspanAttr := getAttribute (lit "rowspan") attrs;
     alignAttr := getAttribute (lit "align") attrs;
     styleTextAlign := styleTextAlignOf (getAttribute (lit "style") attrs) |}.

(** *** Tags *)

Definition notSpace (c : ascii) : bool := negb (Js.isSpace c).

Definition startTag (text : jsstring) (b : Builder) : Builder :=
  let name := Js.toLowerCase (Js.takeWhile notSpace text) in
  let attrText := Js.dropWhile notSpace text in
  if negb (tableSeen b) then
    if bool_decide (name = lit "table")
    then {| mode := mode b; cellOpen := None; rowOpen := None; sectionOpen := None;
            sectionsDone := []; tableSeen := true; tableClosed := false |}
    else b
  else if bool_decide (name = lit "thead") then openSection THead b
  else if bool_decide (name = lit "tbody") then openSection TBody b
  else if bool_decide (name = lit "tfoot") then openSection TFoot b
  else if bool_decide (name = lit "tr") then openRow b
  else if bool_decide (name = lit "td") || bool_decide (name = lit "th")
       then openCell (cellElement attrText) b
  else b.

Definition endTag (text : jsstring) (b : Builder) : Builder :=
  let name := Js.toLowerCase (Js.trim text) in
  if negb (tableSeen b) then b
  else if bool_decide (name = lit "td") || bool_decide (name = lit "th") then closeCell b
  else if bool_decide (name = lit "tr") then closeRow b
  else if bool_decide (name = lit "thead") || bool_decide (name = lit "tbody")
          || bool_decide (name = lit "tfoot") then closeSection b
  else if bool_decide (name = lit "table") then
    let b := closeSection b in
    {| mode := mode b; cellOpen := None; rowOpen := None; sectionOpen := None;
       sectionsDone := sectionsDone b; tableSeen := true; tableClosed := true |}
  else b.

Definition applyTag (text : jsstring) (b : Builder) : Builder :=
  match text with
  | "/"%char :: name => endTag name b
  | _ => startTag text b
  end.

(** *** Character references *)

Definition decodeReference (name : jsstring) : jsstring :=
  if bool_decide (name = lit "amp") then lit "&"
  else if bool_decide (name = lit "lt") then lit "<"
  else if bool_decide (name = lit "gt") then lit ">"
  else if bool_decide (name = lit "quot") then [dquote]
  else lit "&" ++ name ++ lit ";".

Definition isAlnum (c : ascii) : bool :=
  let n := N_of_ascii c in
  ((48 <=? n) && (n <=? 57) || (65 <=? n) && (n <=? 90) || (97 <=? n) && (n <=? 122))%N.

(** *** The machine *)

(** A character of text: U+0000 is ignored. *)
Definition dataStep (b : Builder) (c : ascii) : Builder :=
  if Ascii.eqb c "<" then setMode (Tag [] false) b
  else if Ascii.eqb c "&" then setMode (Reference []) b
  else if Ascii.eqb c nul then b
  else addText [c] b.

Definition charStep (b : Builder) (c : ascii) : Builder :=
  if tableClosed b then b
  else
    match mode b with
    | Data => dataStep b c
    | Reference name =>
        if Ascii.eqb c ";" then addText (decodeReference name) (setMode Data b)
        else if isAlnum c then setMode (Reference (name ++ [c])) b
        else dataStep (addText ("&"%char :: name) (setMode Data b)) c
    | Tag text quoted =>
        if Ascii.eqb c dquote then setMode (Tag (text ++ [c]) (negb quoted)) b
        else if Ascii.eqb c ">" && negb quoted then applyTag text (setMode Data b)
        else setMode (Tag (text ++ [c]) quoted) b
    end.

(** The first table element of the markup, [null] without one. *)
Definition parseTable (html : jsstring) : option TableEl :=
  let b := fold_left charStep (normalizeNewlines html) initial in
  if tableSeen b then Some (mkTableEl (sectionsDone (closeSection b))) else None.

End Style.

End DOMParser.

(** ** The table element of the generated markup *)

(** The states of the parser inside a table: between sections, between the
    rows of a section, between the cells of a row, and in the text of a
    cell. *)
Definition inTable (done : list SectionEl) : DOMParser.Builder :=
  {| DOMParser.mode := DOMParser.Data; DOMParser.cellOpen := None;
     DOMParser.rowOpen := None; DOMParser.sectionOpen := None;
     DOMParser.sectionsDone := done;
     DOMParser.tableSeen := true; DOMParser.tableClosed := false |}.

Definition inSection (k : SectionKind) (rs : list (list CellEl)) (done : list SectionEl)
  : DOMParser.Builder :=
  {| DOMParser.mode := DOMParser.Data; DOMParser.cellOpen := None;
     DOMParser.rowOpen := None; DOMParser.sectionOpen := Some (k, rs);
     DOMParser.sectionsDone := done;
     DOMParser.tableSeen := true; DOMParser.tableClosed := false |}.

Definition inRow (cs : list CellEl) (k : SectionKind) (rs : list (list CellEl))
    (done : list SectionEl) : DOMParser.Builder :=
  {| DOMParser.mode := DOMParser.Data; DOMParser.cellOpen := None;
     DOMParser.rowOpen := Some cs; DOMParser.sectionOpen := Some (k, rs);
     DOMParser.sectionsDone := done;
     DOMParser.tableSeen := true; DOMParser.tableClosed := false |}.

Definition inCell (cell : CellEl) (cs : list CellEl) (k : SectionKind)
    (rs : list (list CellEl)) (done : list SectionEl) : DOMParser.Builder :=
  {| DOMParser.mode := DOMParser.Data; DOMParser.cellOpen := Some cell;
     DOMParser.rowOpen := Some cs; DOMParser.sectionOpen := Some (k, rs);
     DOMParser.sectionsDone := done;
     DOMParser.tableSeen := true; DOMParser.tableClosed := false |}.

(** The alignment that [alignStyle] declares. *)
Definition alignWord (alignment : jsstring) : jsstring :=
  if jsEq alignment "center" then lit "center"
  else if jsEq alignment "right" then lit "right"
  else lit "left".

(** The text of the [style] attribute that [tableModelToHtml] writes for a
    cell (lines 94 and 108). *)
Definition cellStyleAttr (bold : bool) (align : jsstring) : jsstring :=
  cellStyle ++ lit " " ++ alignStyle align ++ (if bold then lit " font-weight: bold;" else []).

(** A text without the character U+0000, and the text that the parser
    makes of the text of the markup. *)
Definition withoutNul (s : jsstring) : jsstring :=
  List.filter (fun c => negb (Ascii.eqb c DOMParser.nul)) s.

Definition parsedText (s : jsstring) : jsstring :=
  withoutNul (DOMParser.normalizeNewlines s).

Section Element.

Variable textAlign : jsstring -> jsstring.

(** The element of a cell of the markup: its text is the content of the
    cell as the parser reads it, it has no [colspan], [rowspan] or [align]
    attribute, and its [style.textAlign] is what the platform reads from
    the [style] attribute of the cell. *)
Definition cellElOf (header : bool) (al : list jsstring) (i : nat) (cell : Cell) : CellEl :=
  {| textContent := parsedText (content cell); colspanAttr := None; rowspanAttr := None;
     alignAttr := None;
     styleTextAlign := textAlign (cellStyleAttr header (alignmentAt al i)) |}.

Definition rowElOf (header : bool) (al : list jsstring) (row : Row) : list CellEl :=
  imap (cellElOf header al) (cells row).

(** The element of the markup of a table: a [thead] with the header rows
    if there are any, then a [tbody] with the other rows if there are
    any. *)
Definition tableElOf (t : Table) : TableEl :=
  let headerRows := List.filter isHeader (rows t) in
  let dataRows := List.filter (fun r => negb (isHeader r)) (rows t) in
  {| sections :=
       (if is_nil headerRows then []
        else [mkSectionEl THead (map (rowElOf true (alignments t)) headerRows)])
       ++ (if is_nil dataRows then []
           else [mkSectionEl TBody (map (rowElOf false (alignments t)) dataRows)]) |}.

End Element.

(** A text without a carriage return. *)
Definition noCR (s : jsstring) : bool :=
  forallb (fun c => negb (Ascii.eqb c DOMParser.cr)) s.

(** What [escapeHtml] makes of one character. *)
Definition escapeHtmlChar (c : ascii) : jsstring :=
  if Ascii.eqb c "&" then lit "&amp;"
  else if Ascii.eqb c "<" then lit "&lt;"
  else if Ascii.eqb c ">" then lit "&gt;"
  else if Ascii.eqb c dquote then lit "&quot;"
  else [c].

(** The content that comes back from the markup:
    [textContent.replace(/\s+/g, ' ').trim()]. *)
Definition normalizeContent (s : jsstring) : jsstring :=
  Js.trim (Js.collapseWhitespace s).

(** A cell element with more text. *)
Definition withText (t : jsstring) (cell : CellEl) : CellEl :=
  {| textContent := textContent cell ++ t; colspanAttr := colspanAttr cell;
     rowspanAttr := rowspanAttr cell; alignAttr := alignAttr cell;
     styleTextAlign := styleTextAlign cell |}.

(** The opening and the closing tag of a cell, as [htmlCell] writes
    them. *)
Definition cellOpenTag (tag : jsstring) (bold : bool) (align : jsstring) : jsstring :=
  lit "      <" ++ tag ++ lit " "
    ++ (lit "style=" ++ [dquote] ++ cellStyleAttr bold align ++ [dquote])
    ++ lit ">".

Definition cellCloseTag (tag : jsstring) : jsstring :=
  lit "</" ++ tag ++ lit ">" ++ [nl].

(** A cell element without [colspan] and [rowspan] attributes, and the cell
    that [htmlTableToModel] makes of it. *)
Definition plainCellEl (el : CellEl) : Prop :=
  colspanAttr el = None /\ rowspanAttr el = None.

Definition cellOfEl (el : CellEl) : Cell :=
  createCell1 (normalizeContent (textContent el)).

(** The header rows of a table come before its other rows. *)
Definition headersFirst (t : Table) : Prop :=
  List.filter isHeader (rows t) ++ List.filter (fun r => negb (isHeader r)) (rows t) = rows t.

(** ** Vocabulary of the specification *)

(** The separator pattern in the words of the specification: the line
    starts and ends with a pipe and has only ['-'], [':'], ['|'] and white
    space in between.  To be compared with [SEPARATOR_RE_test]. *)
Definition separatorAsWorded (line : jsstring) : bool :=
  match line with
  | "|"%char :: rest =>
      match rev rest with
      | "|"%char :: dim => forallb isSeparatorChar dim
      | _ => false
      end
  | _ => false
  end.

(** A well-formed table: it has a row, every row has as many cells as the
    table has columns, every cell has colspan 1 and rowspan 1, and there is
    one alignment for each column. *)
Definition WellFormed (t : Table) : Prop :=
  rows t <> []
  /\ (forall r, In r (rows t) ->
        Z.of_nat (length (cells r)) = getColumnCount t
        /\ forall c, In c (cells r) -> colspan c = 1 /\ rowspan c = 1)
  /\ Z.of_nat (length (alignments t)) = getColumnCount t.

(** ** Vocabulary of the proofs *)

(** The state of the look-behind after the characters of [p]. *)
Definition afterBackslashAt (b : bool) (p : jsstring) : bool :=
  match last p with
  | Some c => Ascii.eqb c "\"
  | None => b
  end.

(** A piece without a pipe that would split it. *)
Definition unsplit (b : bool) (p : jsstring) : Prop := splitPipes b p = [p].

(** The text of one cell in a line of the table. *)
Definition cellText (w : nat) (c : jsstring) : jsstring :=
  lit " " ++ Js.padEnd w (escapeMarkdownCell c) ++ lit " ".

(** The content of the cell of [row] in column [i], or [''] when the row is
    too short. *)
Definition contentAt (row : Row) (i : nat) : jsstring :=
  match cells row !! i with
  | Some cell => content cell
  | None => []
  end.

(** A number that [parseInt] could not read, or that does not exceed
    [bound]. *)
Definition nanOrAtMost (bound : Z) (n : option Z) : Prop :=
  n = None \/ exists z, n = Some z /\ z <= bound.

(** A string that does not begin, or does not end, with white space. *)
Definition firstNonSpace (s : jsstring) : Prop :=
  match s with
  | [] => True
  | c :: _ => Js.isSpace c = false
  end.

Definition lastNonSpace (s : jsstring) : Prop :=
  match last s with
  | None => True
  | Some c => Js.isSpace c = false
  end.

(** [rowspanTracker[j]] read as a count: undefined at a hole of the array
    and past its end. *)
Definition remainingAt (tr : ledger) (j : nat) : option Z :=
  match tr !! j with
  | Some (Some remaining) => Some remaining
  | _ => None
  end.

(** The spans that [htmlTableToModel] reads of a cell element, and the
    alignment that it captures for it. *)
Definition colspanOf (cellEl : CellEl) : option Z :=
  Js.parseInt (attrOr (colspanAttr cellEl) (lit "1")).

Definition rowspanOf (cellEl : CellEl) : option Z :=
  Js.parseInt (attrOr (rowspanAttr cellEl) (lit "1")).

Definition capturedAlignment (cellEl : CellEl) : jsstring :=
  match cellAlign cellEl with
  | Some a => Js.toLowerCase a
  | None => lit "left"
  end.

(** The cells of [n] columns spanned by one cell element: the content comes
    first, the other cells are empty. *)
Definition expandedCells (n : nat) (cellContent : jsstring) : list Cell :=
  match n with
  | O => []
  | S n' => createCell1 cellContent :: replicate n' (createCell1 [])
  end.

(** The alignments captured from the cell elements of a row. *)
Definition capturedAlignments (cellElements : list CellEl) : list jsstring :=
  flat_map (fun el => replicate (turns (colspanOf el)) (capturedAlignment el)) cellElements.

(** [theadRows.has(tr) || (treatFirstAsHeader && rowIdx === 0)] *)
Definition headerFlag (treatFirstAsHeader : bool) (rowIdx : nat) (tr : bool * list CellEl) : bool :=
  fst tr || (treatFirstAsHeader && (rowIdx =? 0)%nat).

(** A cell that spans one row and one column. *)
Definition unitCell (c : Cell) : Prop := colspan c = 1 /\ rowspan c = 1.

(** A text whose white space is single spaces: every white space character
    is a space and is not next to another one; [afterSpace] tells that the
    character before the text is a space. *)
Fixpoint singleSpaced (afterSpace : bool) (s : jsstring) : bool :=
  match s with
  | [] => true
  | c :: r =>
      if Js.isSpace c
      then Ascii.eqb c " " && negb afterSpace && singleSpaced true r
      else singleSpaced false r
  end.

(** The rows that [tableModelToMarkdown] writes above and below the
    separator line: [actualHeaders] and [actualData]. *)
Definition actualHeaders (t : Table) : list Row :=
  if is_nil (List.filter isHeader (rows t)) then take 1 (rows t)
  else List.filter isHeader (rows t).

Definition actualData (t : Table) : list Row :=
  if is_nil (List.filter isHeader (rows t)) then drop 1 (rows t)
  else List.filter (fun r => negb (isHeader r)) (rows t).

(** A character of the class of the separator pattern other than the
    pipe. *)
Definition dashLike (c : ascii) : bool :=
  Js.isSpace c || Ascii.eqb c ":" || Ascii.eqb c "-".

(** A reading of the [style] attribute: the first alignment that the
    sanitizer's pattern finds in it, in lower case. *)
Definition declaredTextAlign (style : jsstring) : jsstring :=
  match alignMatch style with
  | Some w => Js.toLowerCase w
  | None => []
  end.

(** The cell element with the text [text] and the attributes [attrs], as
    [htmlTableToModel] reads it; [textAlign] is the platform's reading of
    the [style] attribute. *)
Definition cellOfAttributes (textAlign : jsstring -> jsstring) (text : jsstring)
    (attrs : attributeMap) : CellEl :=
  {| textContent := text;
     colspanAttr := attrs !! lit "colspan";
     rowspanAttr := attrs !! lit "rowspan";
     alignAttr := attrs !! lit "align";
     styleTextAlign := DOMParser.styleTextAlignOf textAlign (attrs !! lit "style") |}.

(** The attribute names that the loop over the elements removes. *)
Definition removedNames : list jsstring :=
  [lit "style"; lit "class"; lit "width"; lit "height"; lit "valign"].

(** * Properties *)

(** ** The table model *)

Section TableModel.

Lemma colspanSum_from (cs : list Cell) (a : Z) :
  fold_left (fun count cell => count + colspan cell) cs a = a + colspanSum cs.
Proof.
  unfold colspanSum. revert a.
  induction cs as [|c cs IH]; intros a; simpl; [lia|].
  rewrite (IH (a + colspan c)), (IH (0 + colspan c)). lia.
Qed.

Lemma colspanSum_cons (c : Cell) (cs : list Cell) :
  colspanSum (c :: cs) = colspan c + colspanSum cs.
Proof. unfold colspanSum at 1. simpl. rewrite colspanSum_from. lia. Qed.

Lemma colspanSum_app (cs ds : list Cell) :
  colspanSum (cs ++ ds) = colspanSum cs + colspanSum ds.
Proof.
  induction cs as [|c cs IH]; simpl; [reflexivity|].
  rewrite !colspanSum_cons, IH. lia.
Qed.

Lemma colspanSum_fillers (n : nat) :
  colspanSum (replicate n createCell0) = Z.of_nat n.
Proof.
  induction n as [|n IH]; [reflexivity|].
  change (replicate (S n) createCell0) with (createCell0 :: replicate n createCell0).
  rewrite colspanSum_cons, IH. simpl. lia.
Qed.

Lemma colspanSum_unit (cs : list Cell) :
  Forall (fun c => colspan c = 1) cs -> colspanSum cs = Z.of_nat (length cs).
Proof.
  induction 1 as [|c cs Hc _ IH]; [reflexivity|].
  rewrite colspanSum_cons, IH, Hc. simpl length. lia.
Qed.

Lemma colspanSum_padCells (n : Z) (cs : list Cell) :
  colspanSum (padCells n cs) = Z.max (colspanSum cs) n.
Proof. unfold padCells. rewrite colspanSum_app, colspanSum_fillers. lia. Qed.

Lemma padCells_full (n : Z) (cs : list Cell) :
  n <= colspanSum cs -> padCells n cs = cs.
Proof.
  intros H. unfold padCells.
  replace (Z.to_nat (n - colspanSum cs)) with O by lia.
  apply app_nil_r.
Qed.

Lemma padCells_idem (n : Z) (cs : list Cell) :
  padCells n (padCells n cs) = padCells n cs.
Proof. apply padCells_full. rewrite colspanSum_padCells. lia. Qed.

Lemma maxFrom_lower (rs : list Row) (m : Z) : m <= maxFrom m rs.
Proof.
  revert m. induction rs as [|r rs IH]; intros m; simpl; [lia|].
  destruct (Z.ltb_spec m (colspanSum (cells r))); etransitivity; [|apply IH| |apply IH]; lia.
Qed.

Lemma maxFrom_upper (rs : list Row) (m : Z) (r : Row) :
  In r rs -> colspanSum (cells r) <= maxFrom m rs.
Proof.
  revert m. induction rs as [|r0 rs IH]; intros m; simpl; [tauto|].
  intros [->|Hin]; [|apply IH, Hin].
  destruct (Z.ltb_spec m (colspanSum (cells r))).
  - apply maxFrom_lower.
  - etransitivity; [|apply maxFrom_lower]. lia.
Qed.

Lemma maxFrom_attained (rs : list Row) (m : Z) :
  maxFrom m rs = m \/ exists r, In r rs /\ colspanSum (cells r) = maxFrom m rs.
Proof.
  revert m. induction rs as [|r0 rs IH]; intros m; simpl; [now left|].
  destruct (Z.ltb_spec m (colspanSum (cells r0))) as [Hlt|Hge].
  - destruct (IH (colspanSum (cells r0))) as [->|(r & Hr & Heq)].
    + right. exists r0. tauto.
    + right. exists r. tauto.
  - destruct (IH m) as [->|(r & Hr & Heq)]; [now left|].
    right. exists r. tauto.
Qed.

Lemma getColumnCount_nonneg (t : Table) : 0 <= getColumnCount t.
Proof. apply (maxFrom_lower (rows t) 0). Qed.

Lemma getColumnCount_upper (t : Table) (r : Row) :
  In r (rows t) -> colspanSum (cells r) <= getColumnCount t.
Proof. apply maxFrom_upper. Qed.

Lemma getColumnCount_attained (t : Table) :
  getColumnCount t = 0 \/ exists r, In r (rows t) /\ colspanSum (cells r) = getColumnCount t.
Proof. apply (maxFrom_attained (rows t) 0). Qed.

Lemma colspanSum_padRow (t : Table) (r : Row) :
  In r (rows t) -> colspanSum (cells (padRow (getColumnCount t) r)) = getColumnCount t.
Proof.
  intros Hr. simpl. rewrite colspanSum_padCells.
  pose proof (getColumnCount_upper t r Hr). lia.
Qed.

Lemma maxFrom_const (n : Z) (rs : list Row) (m : Z) :
  Forall (fun r => colspanSum (cells r) = n) rs -> m <= n -> rs <> [] -> maxFrom m rs = n.
Proof.
  intros Hall Hm Hne.
  destruct (maxFrom_attained rs m) as [Heq|(r & Hr & Heq)].
  - destruct rs as [|r rs]; [congruence|].
    pose proof (maxFrom_upper (r :: rs) m r (or_introl eq_refl)) as Hup.
    rewrite Heq in Hup |- *.
    apply List.Forall_inv in Hall. lia.
  - rewrite List.Forall_forall in Hall. rewrite <- Heq. now apply Hall.
Qed.

Lemma getColumnCount_normalizeTable (t : Table) :
  getColumnCount (normalizeTable t) = getColumnCount t.
Proof.
  unfold getColumnCount at 1.
  destruct (rows t) as [|r rs] eqn:Hrows.
  - unfold normalizeTable. rewrite Hrows. simpl. unfold getColumnCount. now rewrite Hrows.
  - apply maxFrom_const.
    + unfold normalizeTable. simpl rows. rewrite List.Forall_forall.
      intros r' Hr'. apply in_map_iff in Hr' as (r0 & <- & Hr0).
      now apply colspanSum_padRow.
    + apply getColumnCount_nonneg.
    + unfold normalizeTable. simpl. rewrite Hrows. discriminate.
Qed.

Lemma padAlignments_length (n : Z) (a : list jsstring) :
  Z.of_nat (length (padAlignments n a)) = Z.max (Z.of_nat (length a)) n.
Proof. unfold padAlignments. rewrite length_app, length_replicate. lia. Qed.

Lemma normalizeTable_alignments_length (t : Table) :
  Z.of_nat (length (alignments (normalizeTable t))) = getColumnCount t.
Proof.
  unfold normalizeTable. simpl. rewrite length_take.
  pose proof (padAlignments_length (getColumnCount t) (alignments t)).
  pose proof (getColumnCount_nonneg t). lia.
Qed.

Lemma normalizeTable_alignments_shape (t : Table) :
  alignments (normalizeTable t)
  = take (Z.to_nat (getColumnCount t)) (alignments t)
      ++ replicate (Z.to_nat (getColumnCount t) - length (alignments t)) (lit "left").
Proof.
  unfold normalizeTable, padAlignments. simpl.
  rewrite take_app. f_equal.
  rewrite take_replicate. f_equal.
  generalize (getColumnCount t) (length (alignments t)). intros z n. lia.
Qed.

Lemma normalizeTable_idem (t : Table) :
  normalizeTable (normalizeTable t) = normalizeTable t.
Proof.
  unfold normalizeTable at 1. rewrite getColumnCount_normalizeTable.
  unfold normalizeTable at 3. f_equal.
  - pose proof (normalizeTable_alignments_length t) as Hlen.
    change (take (Z.to_nat (getColumnCount t)) (padAlignments (getColumnCount t) (alignments t)))
      with (alignments (normalizeTable t)).
    revert Hlen. generalize (alignments (normalizeTable t)) (getColumnCount t).
    intros a n Hlen. unfold padAlignments.
    replace (Z.to_nat (n - Z.of_nat (length a))) with O by lia.
    rewrite app_nil_r. apply take_ge. lia.
  - unfold normalizeTable. simpl rows. rewrite map_map.
    apply map_ext. intros r. unfold padRow. simpl. now rewrite padCells_idem.
Qed.

End TableModel.

(** ** The store model refines the value model *)

Section StoreModel.

Lemma padRows_spec (n : Z) (rs : list Heap.RowObj) (s : Heap.store) :
  (forall r, In r rs -> is_Some (Heap.cellArrays s !! Heap.rowCells r)) ->
  exists s',
    Heap.padRows n rs s = Some s'
    /\ Heap.stringArrays s' = Heap.stringArrays s
    /\ Heap.tables s' = Heap.tables s
    /\ (forall l cs, In l (map Heap.rowCells rs) -> Heap.cellArrays s !! l = Some cs ->
          Heap.cellArrays s' !! l = Some (padCells n cs))
    /\ (forall l, ~ In l (map Heap.rowCells rs) -> Heap.cellArrays s' !! l = Heap.cellArrays s !! l).
Proof.
  revert s. induction rs as [|r rs IH]; intros s Hdef.
  - exists s. simpl. repeat split; auto. intros l cs [].
  - destruct (Hdef r (or_introl eq_refl)) as [cs Hcs].
    simpl. rewrite Hcs.
    destruct (IH (Heap.setCells (Heap.rowCells r) (padCells n cs) s)) as (s' & Hrun & Hstr & Htab & Hin & Hout).
    { intros r' Hr'. simpl.
      destruct (decide (Heap.rowCells r = Heap.rowCells r')) as [->|Hne].
      - rewrite lookup_insert_eq. eauto.
      - rewrite lookup_insert_ne by exact Hne. apply Hdef. now right. }
    exists s'. split; [exact Hrun|]. split; [exact Hstr|]. split; [exact Htab|]. split.
    + intros l ds Hl Hds.
      destruct (in_dec Pos.eq_dec l (map Heap.rowCells rs)) as [Hlater|Hnot].
      * destruct (decide (Heap.rowCells r = l)) as [<-|Hne].
        -- rewrite (Hin (Heap.rowCells r) (padCells n cs) Hlater).
           ++ rewrite padCells_idem. congruence.
           ++ simpl. apply lookup_insert_eq.
        -- apply Hin; [exact Hlater|]. simpl.
           rewrite lookup_insert_ne by exact Hne. exact Hds.
      * destruct Hl as [<-|Hl]; [|contradiction].
        rewrite (Hout _ Hnot). simpl. rewrite lookup_insert_eq. congruence.
    + intros l Hl. rewrite Hout.
      * simpl. apply lookup_insert_ne. intros Heq. apply Hl. now left.
      * intros Hin'. apply Hl. now right.
Qed.

Lemma readRows_defined (s : Heap.store) (rs : list Heap.RowObj) (rows0 : list Row) :
  Heap.readRows s rs = Some rows0 ->
  forall r, In r rs -> is_Some (Heap.cellArrays s !! Heap.rowCells r).
Proof.
  revert rows0. induction rs as [|r rs IH]; intros rows0 Hread r' Hr'; [destruct Hr'|].
  simpl in Hread.
  destruct (Heap.cellArrays s !! Heap.rowCells r) as [cs|] eqn:Hcs; [|discriminate].
  destruct (Heap.readRows s rs) as [rows'|] eqn:Hrs; [|discriminate].
  destruct Hr' as [<-|Hr']; [eauto|]. eapply IH; eauto.
Qed.

Lemma readRows_padded (n : Z) (s s' : Heap.store) (rs : list Heap.RowObj) (rows0 : list Row) :
  (forall l cs, In l (map Heap.rowCells rs) -> Heap.cellArrays s !! l = Some cs ->
     Heap.cellArrays s' !! l = Some (padCells n cs)) ->
  Heap.readRows s rs = Some rows0 ->
  Heap.readRows s' rs = Some (map (padRow n) rows0).
Proof.
  revert rows0. induction rs as [|r rs IH]; intros rows0 Hpad Hread.
  - simpl in *. now inversion Hread.
  - simpl in Hread.
    destruct (Heap.cellArrays s !! Heap.rowCells r) as [cs|] eqn:Hcs; [|discriminate].
    destruct (Heap.readRows s rs) as [rows'|] eqn:Hrs; [|discriminate].
    inversion Hread; subst rows0; clear Hread.
    simpl. rewrite (Hpad (Heap.rowCells r) cs (or_introl eq_refl) Hcs).
    rewrite (IH rows'); [reflexivity| |reflexivity].
    intros l ds Hl. apply Hpad. now right.
Qed.

Lemma readRows_same_cells (s s' : Heap.store) (rs : list Heap.RowObj) :
  Heap.cellArrays s' = Heap.cellArrays s -> Heap.readRows s' rs = Heap.readRows s rs.
Proof.
  intros Heq. induction rs as [|r rs IH]; simpl; [reflexivity|].
  now rewrite Heq, IH.
Qed.

(** Running [normalizeTable] on a location that denotes the table [T]
    returns that location, and leaves there the table object with the same
    rows, which now denotes the normalized value of [T]; the other table
    objects are as before. *)
Lemma normalizeTable_refines (s : Heap.store) (t : Heap.loc) (T : Table) :
  Heap.readTable s t = Some T ->
  exists s',
    Heap.normalizeTable t s = Some (t, s')
    /\ Heap.readTable s' t = Some (normalizeTable T)
    /\ (Heap.tableRows <$> Heap.tables s' !! t) = (Heap.tableRows <$> Heap.tables s !! t)
    /\ (forall t', t' <> t -> Heap.tables s' !! t' = Heap.tables s !! t').
Proof.
  intros Hread. unfold Heap.normalizeTable, Heap.getColumnCount. rewrite Hread. simpl.
  unfold Heap.readTable in Hread.
  destruct (Heap.tables s !! t) as [tbl|] eqn:Htbl; [|discriminate].
  destruct (Heap.stringArrays s !! Heap.tableAlignments tbl) as [a|] eqn:Ha; [|discriminate].
  destruct (Heap.readRows s (Heap.tableRows tbl)) as [rows0|] eqn:Hrows; [|discriminate].
  inversion Hread; subst T; clear Hread.
  set (n := getColumnCount _).
  destruct (padRows_spec n (Heap.tableRows tbl) s (readRows_defined _ _ _ Hrows))
    as (s1 & Hrun & Hstr & Htab & Hin & _).
  rewrite Hrun, Hstr, Ha.
  eexists. split; [reflexivity|]. split; [|split].
  - unfold Heap.readTable. simpl. rewrite lookup_insert_eq. simpl.
    rewrite lookup_insert_eq.
    rewrite (readRows_same_cells s1) by reflexivity.
    rewrite (readRows_padded n s s1 _ rows0 Hin Hrows). reflexivity.
  - simpl. now rewrite lookup_insert_eq.
  - intros t' Hne. simpl. rewrite lookup_insert_ne by congruence. now rewrite Htab.
Qed.

End StoreModel.

(** ** Claims on [normalizeTable] *)

Lemma lookup_map {A B} (f : A -> B) (l : list A) (i : nat) :
  map f l !! i = f <$> (l !! i).
Proof.
  revert i. induction l as [|x l IH]; intros [|i]; simpl; auto.
Qed.

Lemma normalizeTable_rows_sum (t : Table) (r' : Row) :
  In r' (rows (normalizeTable t)) -> colspanSum (cells r') = getColumnCount t.
Proof.
  intros Hr'. unfold normalizeTable in Hr'. simpl in Hr'.
  apply in_map_iff in Hr' as (r & <- & Hr). now apply colspanSum_padRow.
Qed.

Lemma normalizeTable_unit_cells (t : Table) (r' : Row) (c : Cell) :
  (forall r c, In r (rows t) -> In c (cells r) -> colspan c = 1) ->
  In r' (rows (normalizeTable t)) -> In c (cells r') -> colspan c = 1.
Proof.
  intros Hunit Hr' Hc. unfold normalizeTable in Hr'. simpl in Hr'.
  apply in_map_iff in Hr' as (r & <- & Hr).
  simpl in Hc. unfold padCells in Hc. apply in_app_iff in Hc as [Hc|Hc].
  - eapply Hunit; eauto.
  - apply list_elem_of_In, elem_of_replicate in Hc as [-> _]. reflexivity.
Qed.

Lemma normalizeTable_rows_count (t : Table) (r' : Row) :
  (forall r c, In r (rows t) -> In c (cells r) -> colspan c = 1) ->
  In r' (rows (normalizeTable t)) -> Z.of_nat (length (cells r')) = getColumnCount t.
Proof.
  intros Hunit Hr'. rewrite <- (normalizeTable_rows_sum t r' Hr'). symmetry.
  apply colspanSum_unit, List.Forall_forall. intros c Hc.
  now apply (normalizeTable_unit_cells t r' c).
Qed.

(** C2, as the code has it.  With [n = getColumnCount t], the maximum over
    the rows of the sum of the colspans of a row (and 0 for a table without
    rows): [normalizeTable] appends to every row as many cells with empty
    content, colspan 1 and rowspan 1 as the sum of its colspans is short of [n];
    afterwards the colspans of every row sum up to exactly [n], so a row has
    exactly [n] cells when every cell of the table has colspan 1; and the
    alignments have length exactly [n], the entries beyond [n] removed and
    the missing ones filled with ['left']. *)
Theorem normalizeTable_column_count (t : Table) :
  let n := getColumnCount t in
  (0 <= n
   /\ (forall r, In r (rows t) -> colspanSum (cells r) <= n)
   /\ (n = 0 \/ exists r, In r (rows t) /\ colspanSum (cells r) = n))
  /\ rows (normalizeTable t)
     = map (fun r => mkRow (isHeader r)
                       (cells r ++ replicate (Z.to_nat (n - colspanSum (cells r)))
                                             (mkCell [] 1 1)))
           (rows t)
  /\ (forall r', In r' (rows (normalizeTable t)) -> colspanSum (cells r') = n)
  /\ ((forall r c, In r (rows t) -> In c (cells r) -> colspan c = 1) ->
      forall r', In r' (rows (normalizeTable t)) -> Z.of_nat (length (cells r')) = n)
  /\ Z.of_nat (length (alignments (normalizeTable t))) = n
  /\ alignments (normalizeTable t)
     = take (Z.to_nat n) (alignments t)
         ++ replicate (Z.to_nat n - length (alignments t)) (lit "left").
Proof.
  intros n. split; [|split; [|split; [|split; [|split]]]].
  - split; [apply getColumnCount_nonneg|].
    split; [apply getColumnCount_upper|apply getColumnCount_attained].
  - reflexivity.
  - apply normalizeTable_rows_sum.
  - intros Hunit r'. now apply normalizeTable_rows_count.
  - apply normalizeTable_alignments_length.
  - apply normalizeTable_alignments_shape.
Qed.

(** A table whose second row is short and whose three alignments are too
    many for its two columns. *)
Lemma normalizeTable_column_count_witness :
  let t := createTable [createRow [createCell1 (lit "a"); createCell1 (lit "b")] true;
                        createRow [createCell1 (lit "1")] false]
                       [lit "right"; lit "center"; lit "right"] in
  Z.of_nat (length (cells (createRow [createCell1 (lit "1"); createCell0] false)))
  = getColumnCount t.
Proof.
  intros t.
  apply (proj1 (proj2 (proj2 (proj2 (normalizeTable_column_count t))))).
  - intros r c Hr Hc. simpl in Hr.
    destruct Hr as [<-|[<-|[]]]; simpl in Hc; intuition (subst; reflexivity).
  - right. left. reflexivity.
Defined.

(** C2, as stated, fails on a row with a merged cell: the row counts two
    columns and keeps its single cell. *)
Lemma normalizeTable_cell_count_counterexample :
  let t := createTable [createRow [createCell (lit "a") 2 1] false] [] in
  ~ (forall r, In r (rows (normalizeTable t)) ->
               Z.of_nat (length (cells r)) = getColumnCount t).
Proof.
  intros t H.
  specialize (H (createRow [createCell (lit "a") 2 1] false)).
  discriminate H. now left.
Qed.

(** C10.  [normalizeTable] only appends: the rows stay in their order with
    their [isHeader] flags, every cell stays where it was with its content,
    colspan and rowspan, behind it come only cells with empty content,
    colspan 1 and rowspan 1; the first [getColumnCount t] alignments are
    unchanged, behind them come only ['left'] entries, and the entries
    beyond the column count are removed. *)
Theorem normalizeTable_only_appends (t : Table) :
  let t' := normalizeTable t in
  let n := Z.to_nat (getColumnCount t) in
  map isHeader (rows t') = map isHeader (rows t)
  /\ (forall i r, rows t !! i = Some r ->
        exists k, rows t' !! i
                  = Some (mkRow (isHeader r) (cells r ++ replicate k (mkCell [] 1 1))))
  /\ (forall i r j c, rows t !! i = Some r -> cells r !! j = Some c ->
        exists r', rows t' !! i = Some r' /\ cells r' !! j = Some c)
  /\ (forall i, (i < n)%nat -> (i < length (alignments t))%nat ->
        alignments t' !! i = alignments t !! i)
  /\ (exists k, alignments t' = take n (alignments t) ++ replicate k (lit "left"))
  /\ length (alignments t') = n.
Proof.
  intros t' n.
  assert (Hrow : forall i r, rows t !! i = Some r ->
            rows t' !! i = Some (padRow (getColumnCount t) r)).
  { intros i r Hr. unfold t', normalizeTable. simpl rows.
    rewrite lookup_map, Hr. reflexivity. }
  split; [|split; [|split; [|split; [|split]]]].
  - unfold t', normalizeTable. simpl rows. rewrite map_map. reflexivity.
  - intros i r Hr. eexists. rewrite (Hrow i r Hr). reflexivity.
  - intros i r j c Hr Hc. eexists. split; [apply (Hrow i r Hr)|].
    simpl. unfold padCells. now apply lookup_app_l_Some.
  - intros i Hi Hlen. unfold t'. rewrite normalizeTable_alignments_shape. fold n.
    rewrite lookup_app_l by (rewrite length_take; lia).
    apply lookup_take_lt. exact Hi.
  - eexists. apply normalizeTable_alignments_shape.
  - pose proof (normalizeTable_alignments_length t) as Hlen. fold t' in Hlen.
    unfold n. rewrite <- Hlen. now rewrite Nat2Z.id.
Qed.

Lemma normalizeTable_only_appends_witness :
  let t := createTable [createRow [createCell1 (lit "a"); createCell1 (lit "b")] true;
                        createRow [createCell1 (lit "1")] false]
                       [lit "right"; lit "center"; lit "right"] in
  exists r', rows (normalizeTable t) !! 1%nat = Some r'
             /\ cells r' !! 0%nat = Some (createCell1 (lit "1")).
Proof.
  intros t.
  apply (proj1 (proj2 (proj2 (normalizeTable_only_appends t))) 1%nat
           (createRow [createCell1 (lit "1")] false) 0%nat); reflexivity.
Defined.

(** C5.  For a location [t] of the store that denotes the table [T]:
    [normalizeTable(t)] returns [t] itself; the table object at [t] keeps
    its rows and now denotes the normalized value of [T], the arrays having
    been updated where they live; a second call returns [t] again and the
    table it denotes is the same as after the first call.  On values,
    normalizing twice is normalizing once. *)
Theorem normalizeTable_in_place_idempotent (s : Heap.store) (t : Heap.loc) (T : Table) :
  Heap.readTable s t = Some T ->
  normalizeTable (normalizeTable T) = normalizeTable T
  /\ exists s1,
       Heap.normalizeTable t s = Some (t, s1)
       /\ Heap.readTable s1 t = Some (normalizeTable T)
       /\ (Heap.tableRows <$> Heap.tables s1 !! t) = (Heap.tableRows <$> Heap.tables s !! t)
       /\ exists s2,
            Heap.normalizeTable t s1 = Some (t, s2)
            /\ Heap.readTable s2 t = Heap.readTable s1 t.
Proof.
  intros Hread. split; [apply normalizeTable_idem|].
  destruct (normalizeTable_refines s t T Hread) as (s1 & Hrun1 & Hread1 & Hrows1 & _).
  exists s1. split; [exact Hrun1|]. split; [exact Hread1|]. split; [exact Hrows1|].
  destruct (normalizeTable_refines s1 t _ Hread1) as (s2 & Hrun2 & Hread2 & _).
  exists s2. split; [exact Hrun2|].
  now rewrite Hread2, Hread1, normalizeTable_idem.
Qed.

Lemma normalizeTable_in_place_idempotent_witness :
  exists s1,
    Heap.normalizeTable 1 sharedCellsStore = Some (1%positive, s1)
    /\ Heap.readTable s1 1
       = Some (createTable [createRow [createCell1 (lit "a")] true;
                            createRow [createCell1 (lit "a")] false] [lit "center"]).
Proof.
  destruct (normalizeTable_in_place_idempotent sharedCellsStore 1
              (createTable [createRow [createCell1 (lit "a")] true;
                            createRow [createCell1 (lit "a")] false]
                           [lit "center"; lit "right"]) eq_refl)
    as (_ & s1 & Hrun & Hread & _).
  exists s1. split; [exact Hrun|exact Hread].
Defined.

(** ** The Markdown parser *)

Lemma startsWith_spec (c : ascii) (s : jsstring) :
  Js.startsWith c s = true <-> exists r, s = c :: r.
Proof.
  destruct s as [|x s]; simpl.
  - split; [discriminate|]. intros (r & Hr). discriminate.
  - rewrite Ascii.eqb_eq. split.
    + intros ->. eauto.
    + intros (r & Hr). congruence.
Qed.

Lemma endsWith_spec (c : ascii) (s : jsstring) :
  Js.endsWith c s = true <-> exists r, s = r ++ [c].
Proof.
  unfold Js.endsWith. destruct (last s) as [x|] eqn:Hlast.
  - apply last_Some in Hlast as (r & ->). rewrite Ascii.eqb_eq. split.
    + intros ->. eauto.
    + intros (r' & Hr'). now apply app_inj_tail in Hr' as [_ ?].
  - apply last_None in Hlast as ->. split; [discriminate|].
    intros (r & Hr). now destruct r.
Qed.

Lemma normalizeTable_alignment_kept (T : Table) (i : nat) (a : jsstring) :
  alignments T !! i = Some a ->
  Z.of_nat i < getColumnCount T ->
  alignments (normalizeTable T) !! i = Some a.
Proof.
  intros Ha Hi. unfold normalizeTable, padAlignments. simpl.
  rewrite lookup_take_lt by lia.
  rewrite lookup_app_l by (apply lookup_lt_Some in Ha; exact Ha). exact Ha.
Qed.

(** C6.  The alignment of a column is read from its segment of the
    separator line, white space trimmed: ['center'] when the segment both
    starts and ends with a colon, ['right'] when it ends with a colon and
    does not start with one, ['left'] in every other case, a leading colon
    alone included; and this is the alignment of the column in the table
    that [parseMarkdownTable] returns. *)
Theorem parseAlignments_segment (separatorLine seg : jsstring) (i : nat) :
  Js.split "|" (stripPipes separatorLine) !! i = Some seg ->
  let trimmed := Js.trim seg in
  let leading := exists r, trimmed = ":"%char :: r in
  let trailing := exists r, trimmed = r ++ [":"%char] in
  length (parseAlignments separatorLine) = length (Js.split "|" (stripPipes separatorLine))
  /\ exists a,
       parseAlignments separatorLine !! i = Some a
       /\ (leading /\ trailing -> a = lit "center")
       /\ (trailing /\ ~ leading -> a = lit "right")
       /\ (~ trailing -> a = lit "left")
       /\ (forall markdown t k,
             parseMarkdownTable markdown = Some t ->
             findSeparator 0 (markdownLines markdown) = Some k ->
             nth k (markdownLines markdown) [] = separatorLine ->
             Z.of_nat i < getColumnCount t ->
             alignments t !! i = Some a).
Proof.
  intros Hseg trimmed leading trailing.
  unfold parseAlignments. split; [apply length_map|].
  rewrite lookup_map, Hseg. simpl.
  exists (alignmentOfSegment seg). split; [reflexivity|].
  assert (Hkinds : (leading /\ trailing -> alignmentOfSegment seg = lit "center")
                   /\ (trailing /\ ~ leading -> alignmentOfSegment seg = lit "right")
                   /\ (~ trailing -> alignmentOfSegment seg = lit "left")).
  { unfold alignmentOfSegment. fold trimmed.
    pose proof (startsWith_spec ":" trimmed) as Hl.
    pose proof (endsWith_spec ":" trimmed) as Hr.
    fold leading in Hl. fold trailing in Hr.
    destruct (Js.startsWith ":" trimmed), (Js.endsWith ":" trimmed); simpl;
      repeat split; intros; try reflexivity; exfalso; intuition congruence. }
  destruct Hkinds as (Hcenter & Hright & Hleft).
  split; [exact Hcenter|]. split; [exact Hright|]. split; [exact Hleft|].
  intros markdown t k Hparse Hfind Hline Hi.
  unfold parseMarkdownTable in Hparse. rewrite Hfind, Hline in Hparse.
  destruct (length (markdownLines markdown) <? 2)%nat; [discriminate|].
  injection Hparse as <-.
  rewrite getColumnCount_normalizeTable in Hi.
  apply normalizeTable_alignment_kept; [|exact Hi].
  simpl. unfold parseAlignments. now rewrite lookup_map, Hseg.
Qed.

(** The separator [|:---|---:|:-:| - |]: its first segment has a leading
    colon only. *)
Lemma parseAlignments_segment_witness :
  exists a,
    parseAlignments (lit "|:---|---:|:-:| - |") !! 0%nat = Some a
    /\ ((exists r, lit ":---" = r ++ [":"%char]) /\ ~ (exists r, lit ":---" = ":"%char :: r) ->
        a = lit "right")
    /\ (~ (exists r, lit ":---" = r ++ [":"%char]) -> a = lit "left").
Proof.
  destruct (parseAlignments_segment (lit "|:---|---:|:-:| - |") (lit ":---") 0 eq_refl)
    as (_ & a & Ha & _ & Hright & Hleft & _).
  exists a. split; [exact Ha|]. split; [exact Hright|exact Hleft].
Defined.

Lemma SEPARATOR_RE_test_spec (line : jsstring) :
  SEPARATOR_RE_test line = true
  <-> exists dim, dim <> [] /\ line = "|"%char :: dim ++ ["|"%char]
                  /\ forallb isSeparatorChar dim = true.
Proof.
  unfold SEPARATOR_RE_test. split.
  - destruct line as [|c rest]; [discriminate|].
    destruct c as [[] [] [] [] [] [] [] []]; try discriminate.
    destruct (rev rest) as [|d dim] eqn:Hrev; [discriminate|].
    destruct d as [[] [] [] [] [] [] [] []]; try discriminate.
    intros H. destruct (andb_prop _ _ H) as [Hne Hall]. clear H.
    exists (rev dim). split; [|split].
    + destruct dim; [discriminate|]. simpl. intros Heq. now apply app_eq_nil in Heq as [_ ?].
    + f_equal. rewrite <- (rev_involutive rest), Hrev. reflexivity.
    + rewrite forallb_forall in Hall |- *. intros x Hx. apply Hall. now apply in_rev.
  - intros (dim & Hne & -> & Hall).
    rewrite rev_app_distr. simpl.
    apply andb_true_iff. split.
    + destruct (rev dim) eqn:Hrev; [|reflexivity].
      apply (f_equal (@rev ascii)) in Hrev. rewrite rev_involutive in Hrev. now elim Hne.
    + rewrite forallb_forall in Hall |- *. intros x Hx. apply Hall. now apply in_rev in Hx.
Qed.

Lemma isSeparatorChar_spec (c : ascii) :
  isSeparatorChar c = true
  <-> c = "-"%char \/ c = ":"%char \/ c = "|"%char \/ Js.isSpace c = true.
Proof.
  unfold isSeparatorChar. rewrite !orb_true_iff, !Ascii.eqb_eq. tauto.
Qed.

Lemma findSeparator_None (lines : list jsstring) (i : nat) :
  findSeparator i lines = None <-> forall l, In l lines -> SEPARATOR_RE_test l = false.
Proof.
  revert i. induction lines as [|l ls IH]; intros i; simpl.
  - split; [intros _ l []|reflexivity].
  - destruct (SEPARATOR_RE_test l) eqn:Hl.
    + split; [discriminate|]. intros H. rewrite H in Hl by now left. discriminate.
    + rewrite IH. split.
      * intros H l' [<-|Hl']; auto.
      * intros H l' Hl'. apply H. now right.
Qed.

Lemma findSeparator_Some (lines : list jsstring) (i k : nat) :
  findSeparator i lines = Some k ->
  (i <= k < i + length lines)%nat
  /\ SEPARATOR_RE_test (nth (k - i) lines []) = true.
Proof.
  revert i. induction lines as [|l ls IH]; intros i; simpl; [discriminate|].
  destruct (SEPARATOR_RE_test l) eqn:Hl.
  - intros [= <-]. rewrite Nat.sub_diag. split; [lia|exact Hl].
  - intros H. apply IH in H as (Hk & Htest). split; [lia|].
    replace (k - i)%nat with (S (k - S i)) by lia. exact Htest.
Qed.

Lemma normalizeTable_WellFormed (T : Table) :
  rows T <> [] ->
  (forall r c, In r (rows T) -> In c (cells r) -> colspan c = 1 /\ rowspan c = 1) ->
  WellFormed (normalizeTable T).
Proof.
  intros Hne Hunit.
  assert (Hcol : forall r c, In r (rows T) -> In c (cells r) -> colspan c = 1)
    by (intros r c Hr Hc; now apply (Hunit r c)).
  split; [|split].
  - unfold normalizeTable. simpl. destruct (rows T); [congruence|discriminate].
  - intros r' Hr'. rewrite getColumnCount_normalizeTable. split.
    + now apply normalizeTable_rows_count.
    + intros c Hc. unfold normalizeTable in Hr'. simpl in Hr'.
      apply in_map_iff in Hr' as (r & <- & Hr). simpl in Hc.
      apply in_app_iff in Hc as [Hc|Hc]; [now apply (Hunit r c)|].
      apply list_elem_of_In, elem_of_replicate in Hc as [-> _]. now split.
  - rewrite getColumnCount_normalizeTable. apply normalizeTable_alignments_length.
Qed.

Lemma consHead_nonempty (c : ascii) (ps : list jsstring) : Js.consHead c ps <> [].
Proof. now destruct ps. Qed.

Lemma splitPipes_nonempty (b : bool) (s : jsstring) : splitPipes b s <> [].
Proof.
  destruct s as [|c s]; simpl; [discriminate|].
  destruct (Ascii.eqb c "|" && negb b); [discriminate|apply consHead_nonempty].
Qed.

Lemma rowOfLine_cells (h : bool) (line : jsstring) :
  cells (rowOfLine h line) <> []
  /\ forall c, In c (cells (rowOfLine h line)) -> colspan c = 1 /\ rowspan c = 1.
Proof.
  unfold rowOfLine, parseCells. simpl. split.
  - pose proof (splitPipes_nonempty false (stripPipes line)).
    destruct (splitPipes false (stripPipes line)); [congruence|discriminate].
  - intros c Hc. apply in_map_iff in Hc as (x & <- & _). now split.
Qed.

Lemma markdownLines_empty : markdownLines [] = [].
Proof. reflexivity. Qed.

(** C4, as the code has it.  [parseMarkdownTable] has two outcomes, [null]
    and a table, and no other; it returns
    [null] exactly when fewer than 2 lines remain after trimming and
    dropping the empty ones (an empty input among them), or when no
    remaining line starts and ends with a pipe and has in between at least
    one character, all of them ['-'], [':'], ['|'] or white space;
    otherwise it returns a well-formed table with at least one column. *)
Theorem parseMarkdownTable_null_iff (markdown : jsstring) :
  let lines := markdownLines markdown in
  let separatorLine (l : jsstring) :=
    exists dim, dim <> [] /\ l = "|"%char :: dim ++ ["|"%char]
                /\ forall c, In c dim ->
                     c = "-"%char \/ c = ":"%char \/ c = "|"%char \/ Js.isSpace c = true in
  (parseMarkdownTable markdown = None
   <-> (length lines < 2)%nat \/ forall l, In l lines -> ~ separatorLine l)
  /\ (markdown = [] -> parseMarkdownTable markdown = None)
  /\ (forall t, parseMarkdownTable markdown = Some t ->
        WellFormed t /\ 1 <= getColumnCount t)
  /\ (parseMarkdownTable markdown = None
      \/ exists t, parseMarkdownTable markdown = Some t).
Proof.
  intros lines separatorLine.
  assert (Hsep : forall l, SEPARATOR_RE_test l = true <-> separatorLine l).
  { intros l. rewrite SEPARATOR_RE_test_spec. unfold separatorLine.
    split; intros (dim & Hne & Hl & Hall); exists dim;
      (split; [exact Hne|split; [exact Hl|]]).
    - intros c Hc. apply isSeparatorChar_spec.
      rewrite forallb_forall in Hall. now apply Hall.
    - apply forallb_forall. intros c Hc. now apply isSeparatorChar_spec, Hall. }
  split; [|split; [|split]];
    [| | |destruct (parseMarkdownTable markdown); eauto];
    unfold parseMarkdownTable; fold lines.
  - destruct (Nat.ltb_spec (length lines) 2) as [Hlt|Hge].
    + split; [now left|reflexivity].
    + destruct (findSeparator 0 lines) as [k|] eqn:Hfind.
      * split; [discriminate|]. intros [Hlt|Hnone]; [lia|].
        apply findSeparator_Some in Hfind as (Hk & Htest).
        exfalso. apply (Hnone (nth (k - 0) lines [])).
        -- apply nth_In. lia.
        -- now apply Hsep.
      * split; [|reflexivity]. intros _. right.
        intros l Hl Hline. apply Hsep in Hline.
        rewrite findSeparator_None in Hfind. rewrite (Hfind l Hl) in Hline. discriminate.
  - intros ->. reflexivity.
  - intros t. destruct (Nat.ltb_spec (length lines) 2) as [Hlt|Hge]; [discriminate|].
    destruct (findSeparator 0 lines) as [k|] eqn:Hfind; [|discriminate].
    intros [= <-].
    apply findSeparator_Some in Hfind as (Hk & _).
    set (rows0 := map (rowOfLine true) (take k lines)
                    ++ map (rowOfLine false) (drop (S k) lines)).
    assert (Hrows0 : forall r, In r rows0 ->
              cells r <> [] /\ forall c, In c (cells r) -> colspan c = 1 /\ rowspan c = 1).
    { intros r Hr. unfold rows0 in Hr.
      apply in_app_iff in Hr as [Hr|Hr]; apply in_map_iff in Hr as (l & <- & _);
        apply rowOfLine_cells. }
    assert (Hne : rows0 <> []).
    { intros Heq. apply (f_equal (@length Row)) in Heq. unfold rows0 in Heq.
      rewrite length_app, !length_map, length_take, length_drop in Heq.
      simpl in Heq. lia. }
    split.
    + apply normalizeTable_WellFormed; [exact Hne|].
      intros r c Hr Hc. now apply (Hrows0 r).
    + rewrite getColumnCount_normalizeTable.
      destruct rows0 as [|r rs] eqn:Hr0; [congruence|].
      destruct (Hrows0 r (or_introl eq_refl)) as (Hcells & Hunit).
      pose proof (getColumnCount_upper (createTable (r :: rs) (parseAlignments (nth k lines [])))
                    r (or_introl eq_refl)) as Hup.
      rewrite colspanSum_unit in Hup.
      * destruct (cells r); [congruence|]. simpl length in Hup. lia.
      * apply List.Forall_forall. intros c Hc. now apply Hunit.
Qed.

Lemma parseMarkdownTable_null_iff_witness :
  WellFormed (createTable [createRow [createCell1 (lit "A")] true;
                           createRow [createCell1 (lit "1")] false] [lit "left"])
  /\ 1 <= 1.
Proof.
  apply (proj1 (proj2 (proj2 (parseMarkdownTable_null_iff
                                (lit "| A |" ++ [nl] ++ lit "|---|" ++ [nl] ++ lit "| 1 |"))))).
  reflexivity.
Defined.

(** C4, as stated, fails on the lines [a] and [||]: the input is not empty,
    two lines remain, the second starts and ends with a pipe with nothing
    else in between, and the result is [null]. *)
Lemma parseMarkdownTable_separator_counterexample :
  let markdown := lit "a" ++ [nl] ++ lit "||" in
  parseMarkdownTable markdown = None
  /\ markdown <> []
  /\ ~ (length (markdownLines markdown) < 2)%nat
  /\ ~ (forall l, In l (markdownLines markdown) -> separatorAsWorded l = false).
Proof.
  split; [reflexivity|]. split; [discriminate|]. split.
  - simpl. lia.
  - intros H. specialize (H (lit "||")). discriminate H. right. now left.
Qed.

(** ** Escaped pipes *)

Lemma escapeMarkdownCell_cons (c : ascii) (s : jsstring) :
  escapeMarkdownCell (c :: s)
  = if Ascii.eqb c "|" then "\"%char :: "|"%char :: escapeMarkdownCell s
    else c :: escapeMarkdownCell s.
Proof. unfold escapeMarkdownCell, Js.replaceChar. simpl. now destruct (Ascii.eqb c "|"). Qed.

Lemma escapeMarkdownCell_app (s r : jsstring) :
  escapeMarkdownCell (s ++ r) = escapeMarkdownCell s ++ escapeMarkdownCell r.
Proof. unfold escapeMarkdownCell, Js.replaceChar. apply flat_map_app. Qed.

Lemma escapeMarkdownCell_head (s : jsstring) :
  Js.startsWith "|" (escapeMarkdownCell s) = false.
Proof.
  destruct s as [|c s]; [reflexivity|].
  rewrite escapeMarkdownCell_cons.
  destruct (Ascii.eqb c "|") eqn:Hc; [reflexivity|exact Hc].
Qed.

Lemma unescapePipes_cons (c : ascii) (s : jsstring) :
  Js.startsWith "|" s = false -> unescapePipes (c :: s) = c :: unescapePipes s.
Proof.
  intros Hs. destruct s as [|d s]; [now destruct c as [[] [] [] [] [] [] [] []]|].
  simpl in Hs. apply Ascii.eqb_neq in Hs.
  destruct c as [[] [] [] [] [] [] [] []]; try reflexivity.
  destruct d as [[] [] [] [] [] [] [] []]; try reflexivity. now elim Hs.
Qed.

Lemma unescape_escape (s : jsstring) : unescapePipes (escapeMarkdownCell s) = s.
Proof.
  induction s as [|c s IH]; [reflexivity|].
  rewrite escapeMarkdownCell_cons.
  destruct (Ascii.eqb_spec c "|") as [->|Hc].
  - simpl. now rewrite IH.
  - rewrite unescapePipes_cons by apply escapeMarkdownCell_head. now rewrite IH.
Qed.

Lemma afterBackslashAt_cons (b : bool) (c : ascii) (p : jsstring) :
  afterBackslashAt b (c :: p) = afterBackslashAt (Ascii.eqb c "\") p.
Proof.
  unfold afterBackslashAt. destruct p as [|d p]; [reflexivity|].
  rewrite last_cons_cons.
  destruct (last (d :: p)) eqn:Hlast; [reflexivity|].
  now apply last_None in Hlast.
Qed.

Lemma splitPipes_app (b : bool) (p q : jsstring) :
  unsplit b p ->
  splitPipes b (p ++ q)
  = match splitPipes (afterBackslashAt b p) q with
    | x :: xs => (p ++ x) :: xs
    | [] => [p]
    end.
Proof.
  unfold unsplit. revert b. induction p as [|c p IH]; intros b Hp.
  - simpl. unfold afterBackslashAt. simpl.
    pose proof (splitPipes_nonempty b q). now destruct (splitPipes b q).
  - rewrite afterBackslashAt_cons. simpl in Hp |- *.
    destruct (Ascii.eqb c "|" && negb b); [discriminate|].
    assert (Hp' : splitPipes (Ascii.eqb c "\") p = [p]).
    { pose proof (splitPipes_nonempty (Ascii.eqb c "\") p).
      destruct (splitPipes (Ascii.eqb c "\") p) as [|x xs]; [congruence|].
      simpl in Hp. congruence. }
    rewrite (IH _ Hp').
    pose proof (splitPipes_nonempty (afterBackslashAt (Ascii.eqb c "\") p) q).
    now destruct (splitPipes (afterBackslashAt (Ascii.eqb c "\") p) q).
Qed.

Lemma unsplit_app (b : bool) (p q : jsstring) :
  unsplit b p -> unsplit (afterBackslashAt b p) q -> unsplit b (p ++ q).
Proof.
  intros Hp Hq. unfold unsplit. rewrite splitPipes_app by exact Hp.
  unfold unsplit in Hq. now rewrite Hq.
Qed.

Lemma unsplit_escape (b : bool) (s : jsstring) : unsplit b (escapeMarkdownCell s).
Proof.
  unfold unsplit. revert b. induction s as [|c s IH]; intros b; [reflexivity|].
  rewrite escapeMarkdownCell_cons.
  destruct (Ascii.eqb_spec c "|") as [->|Hc].
  - simpl. rewrite IH. reflexivity.
  - simpl. apply Ascii.eqb_neq in Hc. rewrite Hc. simpl. now rewrite IH.
Qed.

Lemma unsplit_spaces (b : bool) (n : nat) : unsplit b (replicate n " "%char).
Proof.
  unfold unsplit. revert b. induction n as [|n IH]; intros b; [reflexivity|].
  simpl. now rewrite IH.
Qed.

Lemma cellText_last (w : nat) (c : jsstring) : last (cellText w c) = Some " "%char.
Proof. unfold cellText. rewrite !app_assoc. apply last_snoc. Qed.

Lemma unsplit_cons (b : bool) (c : ascii) (p : jsstring) :
  Ascii.eqb c "|" = false -> unsplit (Ascii.eqb c "\") p -> unsplit b (c :: p).
Proof. unfold unsplit. intros Hc Hp. simpl. now rewrite Hc, Hp. Qed.

Lemma unsplit_cellText (w : nat) (c : jsstring) : unsplit false (cellText w c).
Proof.
  unfold cellText, Js.padEnd.
  apply (unsplit_cons false " "); [reflexivity|].
  apply unsplit_app; [apply unsplit_app|].
  - apply unsplit_escape.
  - apply unsplit_spaces.
  - apply (unsplit_spaces _ 1).
Qed.

Lemma splitPipes_join (ps : list jsstring) :
  ps <> [] ->
  Forall (fun p => unsplit false p /\ afterBackslashAt false p = false) ps ->
  splitPipes false (Js.join (lit "|") ps) = ps.
Proof.
  induction ps as [|p ps IH]; intros Hne Hall; [congruence|].
  apply List.Forall_cons_iff in Hall as ((Hp & Hlast) & Hall).
  destruct ps as [|q ps]; [exact Hp|].
  change (Js.join (lit "|") (p :: q :: ps)) with (p ++ "|"%char :: Js.join (lit "|") (q :: ps)).
  rewrite splitPipes_app by exact Hp. rewrite Hlast.
  change (splitPipes false ("|"%char :: ?x)) with ([] :: splitPipes false x).
  rewrite IH by (congruence || exact Hall).
  now rewrite app_nil_r.
Qed.

Lemma trimEnd_spaces (sp : jsstring) :
  forallb Js.isSpace sp = true -> Js.trimEnd sp = [].
Proof.
  induction sp as [|c sp IH]; [reflexivity|]. simpl.
  intros H. destruct (andb_prop _ _ H) as [Hc Hsp]. now rewrite IH, Hc.
Qed.

Lemma trimEnd_app (s r : jsstring) :
  Js.trimEnd (s ++ r) = if is_nil (Js.trimEnd r) then Js.trimEnd s else s ++ Js.trimEnd r.
Proof.
  induction s as [|c s IH]; simpl.
  - now destruct (Js.trimEnd r).
  - rewrite IH. destruct (Js.trimEnd r) as [|x r'] eqn:Hr; simpl; [reflexivity|].
    now destruct s.
Qed.

Lemma trimEnd_app_spaces (s sp : jsstring) :
  forallb Js.isSpace sp = true -> Js.trimEnd (s ++ sp) = Js.trimEnd s.
Proof. intros Hsp. now rewrite trimEnd_app, trimEnd_spaces. Qed.

Lemma trimStart_cons (c : ascii) (s : jsstring) :
  Js.trimStart (c :: s) = if Js.isSpace c then Js.trimStart s else c :: s.
Proof. reflexivity. Qed.

Lemma trimStart_spaces (sp : jsstring) :
  forallb Js.isSpace sp = true -> Js.trimStart sp = [].
Proof.
  induction sp as [|c sp IH]; [reflexivity|]. simpl.
  intros H. destruct (andb_prop _ _ H) as [Hc Hsp].
  rewrite trimStart_cons, Hc. now apply IH.
Qed.

Lemma trim_app_spaces (s sp : jsstring) :
  forallb Js.isSpace sp = true -> Js.trim (s ++ sp) = Js.trim s.
Proof.
  intros Hsp. unfold Js.trim. induction s as [|c s IH].
  - simpl. now rewrite trimStart_spaces.
  - change ((c :: s) ++ sp) with (c :: s ++ sp). rewrite !trimStart_cons.
    destruct (Js.isSpace c); [exact IH|].
    now apply (trimEnd_app_spaces (c :: s)).
Qed.

Lemma forallb_spaces (n : nat) : forallb Js.isSpace (replicate n " "%char) = true.
Proof. induction n as [|n IH]; [reflexivity|exact IH]. Qed.

Lemma trim_cellText (w : nat) (c : jsstring) :
  Js.trim (cellText w c) = Js.trim (escapeMarkdownCell c).
Proof.
  unfold cellText, Js.padEnd.
  change (Js.trim (lit " " ++ ?x)) with (Js.trim x).
  rewrite <- app_assoc.
  apply trim_app_spaces. rewrite forallb_app, forallb_spaces. reflexivity.
Qed.

Lemma isSpace_pipe (c : ascii) : Js.isSpace c = true -> Ascii.eqb c "|" = false.
Proof. destruct c as [[] [] [] [] [] [] [] []]; try reflexivity; discriminate. Qed.

Lemma trimStart_escape (s : jsstring) :
  Js.trimStart (escapeMarkdownCell s) = escapeMarkdownCell (Js.trimStart s).
Proof.
  induction s as [|c s IH]; [reflexivity|].
  rewrite escapeMarkdownCell_cons, (trimStart_cons c s).
  destruct (Js.isSpace c) eqn:Hc.
  - rewrite (isSpace_pipe c Hc), trimStart_cons, Hc. exact IH.
  - rewrite escapeMarkdownCell_cons.
    destruct (Ascii.eqb c "|"); rewrite trimStart_cons; [reflexivity|]. now rewrite Hc.
Qed.

Lemma escapeMarkdownCell_nil (s : jsstring) :
  is_nil (escapeMarkdownCell s) = is_nil s.
Proof.
  destruct s as [|c s]; [reflexivity|]. rewrite escapeMarkdownCell_cons.
  now destruct (Ascii.eqb c "|").
Qed.

Lemma trimEnd_escape (s : jsstring) :
  Js.trimEnd (escapeMarkdownCell s) = escapeMarkdownCell (Js.trimEnd s).
Proof.
  induction s as [|c s IH]; [reflexivity|].
  change (Js.trimEnd (c :: s))
    with (match Js.trimEnd s with
          | [] => if Js.isSpace c then [] else [c]
          | r' => c :: r'
          end).
  change (c :: s) with ([c] ++ s).
  rewrite escapeMarkdownCell_app, trimEnd_app, IH, escapeMarkdownCell_nil.
  destruct (Js.trimEnd s) as [|x r] eqn:Hs; simpl is_nil; cbv iota.
  - destruct (Js.isSpace c) eqn:Hc.
    + rewrite escapeMarkdownCell_cons, (isSpace_pipe c Hc). simpl. now rewrite Hc.
    + rewrite escapeMarkdownCell_cons.
      destruct (Ascii.eqb c "|"); simpl; [reflexivity|]. now rewrite Hc.
  - now rewrite <- escapeMarkdownCell_app.
Qed.

Lemma trim_escape (s : jsstring) :
  Js.trim (escapeMarkdownCell s) = escapeMarkdownCell (Js.trim s).
Proof. unfold Js.trim. now rewrite trimStart_escape, trimEnd_escape. Qed.

Lemma parse_cellText (w : nat) (c : jsstring) :
  unescapePipes (Js.trim (cellText w c)) = Js.trim c.
Proof. now rewrite trim_cellText, trim_escape, unescape_escape. Qed.

Lemma markdownRow_cellText (n : nat) (widths : list nat) (row : Row) :
  markdownRow n widths row
  = lit "|"
      ++ Js.join (lit "|") (map (fun i => cellText (nth i widths O) (contentAt row i)) (seq 0 n))
      ++ lit "|".
Proof.
  unfold markdownRow. do 3 f_equal. apply map_ext. intros i.
  unfold cellText, contentAt. now destruct (cells row !! i).
Qed.

Lemma stripPipes_between (s : jsstring) : stripPipes (lit "|" ++ s ++ lit "|") = s.
Proof.
  unfold stripPipes. simpl. unfold stripTrailingPipe.
  rewrite rev_app_distr. simpl. apply rev_involutive.
Qed.

Lemma parseCells_markdownRow (n : nat) (widths : list nat) (row : Row) :
  (0 < n)%nat ->
  parseCells (markdownRow n widths row) = map (fun i => Js.trim (contentAt row i)) (seq 0 n).
Proof.
  intros Hn. rewrite markdownRow_cellText. unfold parseCells.
  rewrite stripPipes_between, splitPipes_join.
  - rewrite map_map. apply map_ext. intros i. apply parse_cellText.
  - destruct n; [lia|]. discriminate.
  - apply List.Forall_forall. intros p Hp.
    apply in_map_iff in Hp as (i & <- & _). split; [apply unsplit_cellText|].
    unfold afterBackslashAt. now rewrite cellText_last.
Qed.

Lemma join_consHead (c : ascii) (ps : list jsstring) :
  ps <> [] -> Js.join (lit "|") (Js.consHead c ps) = c :: Js.join (lit "|") ps.
Proof. destruct ps as [|p [|q ps]]; [congruence|reflexivity|reflexivity]. Qed.

(** The pieces of a line, put together again with pipes, are the line:
    the split removes pipes and nothing else. *)
Lemma join_splitPipes (b : bool) (s : jsstring) :
  Js.join (lit "|") (splitPipes b s) = s.
Proof.
  revert b. induction s as [|c s IH]; intros b; [reflexivity|]. simpl splitPipes.
  destruct (Ascii.eqb c "|" && negb b) eqn:Hc.
  - apply andb_prop in Hc as [Hc _]. apply Ascii.eqb_eq in Hc as ->.
    pose proof (splitPipes_nonempty false s) as Hne.
    destruct (splitPipes false s) as [|p ps] eqn:Hs; [congruence|].
    change (Js.join (lit "|") ([] :: p :: ps)) with ("|"%char :: Js.join (lit "|") (p :: ps)).
    now rewrite <- Hs, IH.
  - rewrite join_consHead by apply splitPipes_nonempty. now rewrite IH.
Qed.

Lemma tableModelToMarkdown_lines (t : Table) :
  rows t <> [] ->
  let n := length (alignments t) in
  let widths := columnWidths n (rows t) in
  exists headers data,
    tableModelToMarkdown t
    = Js.join [nl] (map (markdownRow n widths) headers
                      ++ [markdownSeparator n widths (alignments t)]
                      ++ map (markdownRow n widths) data)
    /\ forall r, In r (rows t) <-> In r (headers ++ data).
Proof.
  intros Hne n widths. unfold tableModelToMarkdown.
  destruct (rows t) as [|row0 rest] eqn:Hrows; [congruence|].
  fold n. fold widths.
  destruct (is_nil (List.filter isHeader (row0 :: rest))) eqn:Hnil.
  - exists [row0], rest. split; [reflexivity|]. intros r. reflexivity.
  - eexists _, _. split; [reflexivity|]. intros r.
    rewrite in_app_iff, !filter_In.
    destruct (isHeader r); simpl; intuition congruence.
Qed.

(** C8.  Every literal pipe of a cell content is rendered as a backslash
    and a pipe; the escaped content has no pipe that would split it and
    unescapes to the content; the split of a line removes pipes and
    nothing else; every row of a table is rendered as the
    escaped contents of its cells, padded, between pipes, and [parseCells]
    reads from that line the contents again, trimmed; and the table with
    header [Col] and data [a | b] is rendered with [a \| b] and parsed back
    to itself. *)
Theorem escaped_pipes_round_trip :
  (forall a b : jsstring,
      escapeMarkdownCell (a ++ "|"%char :: b)
      = escapeMarkdownCell a ++ lit "\|" ++ escapeMarkdownCell b)
  /\ (forall (s : jsstring) (afterBackslash : bool),
         splitPipes afterBackslash (escapeMarkdownCell s) = [escapeMarkdownCell s]
         /\ unescapePipes (escapeMarkdownCell s) = s)
  /\ (forall inner : jsstring, Js.join (lit "|") (splitPipes false inner) = inner)
  /\ (forall t : Table, rows t <> [] ->
        let n := length (alignments t) in
        let widths := columnWidths n (rows t) in
        exists headers data,
          tableModelToMarkdown t
          = Js.join [nl] (map (markdownRow n widths) headers
                            ++ [markdownSeparator n widths (alignments t)]
                            ++ map (markdownRow n widths) data)
          /\ forall r, In r (rows t) <-> In r (headers ++ data))
  /\ (forall (n : nat) (widths : list nat) (row : Row), (0 < n)%nat ->
        markdownRow n widths row
        = lit "|"
            ++ Js.join (lit "|")
                 (map (fun i => lit " "
                                  ++ Js.padEnd (nth i widths O) (escapeMarkdownCell (contentAt row i))
                                  ++ lit " ")
                      (seq 0 n))
            ++ lit "|"
        /\ parseCells (markdownRow n widths row)
           = map (fun i => Js.trim (contentAt row i)) (seq 0 n))
  /\ (let model := createTable [createRow [createCell1 (lit "Col")] true;
                                createRow [createCell1 (lit "a | b")] false]
                               [lit "left"] in
      tableModelToMarkdown model
      = lit "| Col    |" ++ [nl] ++ lit "|--------|" ++ [nl] ++ lit "| a \| b |"
      /\ parseMarkdownTable (tableModelToMarkdown model) = Some model).
Proof.
  split; [|split; [|split; [|split; [|split]]]].
  - intros a b. rewrite escapeMarkdownCell_app, escapeMarkdownCell_cons. reflexivity.
  - intros s b. split; [apply unsplit_escape|apply unescape_escape].
  - apply join_splitPipes.
  - exact tableModelToMarkdown_lines.
  - intros n widths row Hn. split.
    + apply markdownRow_cellText.
    + now apply parseCells_markdownRow.
  - split; reflexivity.
Qed.

Lemma escaped_pipes_round_trip_witness :
  parseCells (markdownRow 2 [5%nat; 3%nat]
                (createRow [createCell1 (lit "a | b"); createCell1 (lit "\|")] false))
  = [lit "a | b"; lit "\|"].
Proof.
  apply (proj2 (proj1 (proj2 (proj2 (proj2 (proj2 escaped_pipes_round_trip))))
                  2%nat [5%nat; 3%nat]
                  (createRow [createCell1 (lit "a | b"); createCell1 (lit "\|")] false)
                  ltac:(lia))).
Defined.

(** ** The HTML parser: the walk over one row *)

Lemma owed_lt (tr : ledger) (c : nat) : owed tr c = true -> (c < length tr)%nat.
Proof.
  unfold owed. destruct (tr !! c) eqn:Hc; [|discriminate].
  intros _. now apply lookup_lt_Some in Hc.
Qed.

Lemma owed_ge (tr : ledger) (c : nat) : (length tr <= c)%nat -> owed tr c = false.
Proof.
  intros H. destruct (owed tr c) eqn:Ho; [|reflexivity].
  apply owed_lt in Ho. lia.
Qed.

Lemma length_decrement (tr : ledger) (c : nat) : length (decrement tr c) = length tr.
Proof.
  unfold decrement. destruct (tr !! c) as [[r|]|]; try reflexivity. apply length_insert.
Qed.

Lemma length_assign (tr : ledger) (c : nat) (v : Z) :
  length (assign tr c v) = Nat.max (length tr) (S c).
Proof.
  unfold assign. destruct (Nat.ltb_spec c (length tr)).
  - rewrite length_insert. lia.
  - rewrite !length_app, length_replicate. simpl. lia.
Qed.

Lemma expandCell_cellElIdx n first content rs al capture st :
  cellElIdx (expandCell n first content rs al capture st) = cellElIdx st.
Proof.
  revert first st. induction n as [|n IH]; intros first st; [reflexivity|].
  simpl. now rewrite IH.
Qed.

Lemma expandCell_room n first content rs al capture st :
  (length (rowspanTracker (expandCell n first content rs al capture st))
   - colIdx (expandCell n first content rs al capture st)
   <= length (rowspanTracker st) - colIdx st)%nat.
Proof.
  revert first st. induction n as [|n IH]; intros first st; [reflexivity|].
  simpl. etransitivity; [apply IH|]. simpl.
  destruct (gt1 rs); [rewrite length_assign|]; lia.
Qed.

Lemma consumeCell_cellElIdx capture cellEl st :
  cellElIdx (consumeCell capture cellEl st) = S (cellElIdx st).
Proof. unfold consumeCell. simpl. now rewrite expandCell_cellElIdx. Qed.

Lemma consumeCell_room capture cellEl st :
  (length (rowspanTracker (consumeCell capture cellEl st))
   - colIdx (consumeCell capture cellEl st)
   <= length (rowspanTracker st) - colIdx st)%nat.
Proof. unfold consumeCell. simpl. apply expandCell_room. Qed.

Lemma drainLoop_unowed (fuel : nat) (st : RowState) :
  owed (rowspanTracker st) (colIdx st) = false -> drainLoop fuel st = st.
Proof. intros H. destruct fuel; [reflexivity|]. simpl. now rewrite H. Qed.

Lemma drainLoop_cellElIdx (fuel : nat) (st : RowState) :
  cellElIdx (drainLoop fuel st) = cellElIdx st.
Proof.
  revert st. induction fuel as [|fuel IH]; intros st; [reflexivity|]. simpl.
  destruct (owed (rowspanTracker st) (colIdx st)); [|reflexivity]. now rewrite IH.
Qed.

(** With fuel for the columns that are left in the ledger, the draining
    loop stops at a column that owes nothing, and more fuel changes
    nothing. *)
Lemma drainLoop_enough (fuel : nat) (st : RowState) :
  (length (rowspanTracker st) - colIdx st <= fuel)%nat ->
  drainLoop fuel st = drainAll st
  /\ owed (rowspanTracker (drainAll st)) (colIdx (drainAll st)) = false.
Proof.
  unfold drainAll.
  remember (length (rowspanTracker st) - colIdx st)%nat as room eqn:Hroom.
  revert st fuel Hroom. induction room as [|room IH]; intros st fuel Hroom Hfuel.
  - assert (Ho : owed (rowspanTracker st) (colIdx st) = false) by (apply owed_ge; lia).
    rewrite drainLoop_unowed by exact Ho. split; [reflexivity|exact Ho].
  - destruct fuel as [|fuel]; [lia|]. simpl.
    destruct (owed (rowspanTracker st) (colIdx st)) eqn:Ho.
    + apply IH; [|lia]. simpl. rewrite length_decrement. lia.
    + split; [reflexivity|exact Ho].
Qed.

Lemma drainAll_owed (st : RowState) :
  owed (rowspanTracker st) (colIdx st) = true -> drainAll st = drainAll (emitFiller st).
Proof.
  intros Ho. pose proof (owed_lt _ _ Ho) as Hlt.
  unfold drainAll at 1.
  destruct (length (rowspanTracker st) - colIdx st)%nat as [|room] eqn:Hroom; [lia|].
  simpl. rewrite Ho. apply drainLoop_enough. simpl. rewrite length_decrement. lia.
Qed.

Lemma drainAll_unowed (st : RowState) :
  owed (rowspanTracker st) (colIdx st) = false -> drainAll st = st.
Proof. apply drainLoop_unowed. Qed.

Lemma drainAll_idem (st : RowState) : drainAll (drainAll st) = drainAll st.
Proof.
  apply drainAll_unowed.
  now destruct (drainLoop_enough _ st (Nat.le_refl _)) as [_ H].
Qed.

Lemma walkRow_owed capture cellEls st :
  owed (rowspanTracker st) (colIdx st) = true ->
  walkRow capture cellEls st = walkRow capture cellEls (emitFiller st).
Proof. intros Ho. destruct cellEls; simpl; now rewrite (drainAll_owed st Ho). Qed.

(** With enough fuel the loop of the source is the walk cell by cell. *)
Lemma rowLoop_walkRow (fuel : nat) (capture : bool) (cellElements : list CellEl) (st : RowState) :
  (rowFuel cellElements st <= fuel)%nat ->
  rowLoop fuel capture cellElements st
  = walkRow capture (drop (cellElIdx st) cellElements) st.
Proof.
  revert st. induction fuel as [|fuel IH]; intros st Hfuel; unfold rowFuel in Hfuel.
  - simpl. rewrite drop_ge by lia. simpl.
    symmetry. apply drainAll_unowed, owed_ge. lia.
  - simpl. destruct (owed (rowspanTracker st) (colIdx st)) eqn:Ho.
    + rewrite orb_true_r. rewrite (walkRow_owed _ _ _ Ho).
      pose proof (owed_lt _ _ Ho).
      change (cellElIdx st) with (cellElIdx (emitFiller st)).
      apply IH. unfold rowFuel. simpl. rewrite length_decrement. lia.
    + rewrite orb_false_r.
      destruct (Nat.ltb_spec (cellElIdx st) (length cellElements)) as [Hlt|Hge].
      * destruct (cellElements !! cellElIdx st) as [cellEl|] eqn:Hcell.
        2:{ apply lookup_ge_None in Hcell. lia. }
        rewrite (drop_S _ _ _ Hcell). simpl. rewrite (drainAll_unowed st Ho).
        rewrite IH; [now rewrite consumeCell_cellElIdx|].
        unfold rowFuel. rewrite consumeCell_cellElIdx.
        pose proof (consumeCell_room capture cellEl st). lia.
      * rewrite drop_ge by lia. simpl. symmetry. now apply drainAll_unowed.
Qed.

Lemma walkRow_cellElIdx capture cellEls st :
  cellElIdx (walkRow capture cellEls st) = (cellElIdx st + length cellEls)%nat.
Proof.
  revert st. induction cellEls as [|c cs IH]; intros st; simpl.
  - unfold drainAll. rewrite drainLoop_cellElIdx. lia.
  - rewrite IH, consumeCell_cellElIdx. unfold drainAll. rewrite drainLoop_cellElIdx. lia.
Qed.

Lemma walkRow_unowed capture cellEls st :
  owed (rowspanTracker (walkRow capture cellEls st)) (colIdx (walkRow capture cellEls st)) = false.
Proof.
  revert st. induction cellEls as [|c cs IH]; intros st; simpl; [|apply IH].
  now destruct (drainLoop_enough _ st (Nat.le_refl _)) as [_ H].
Qed.

(** The two loops of a row, started before its first cell, are the walk
    over its cells. *)
Lemma runRow_walkRow capture cellElements st :
  cellElIdx st = O ->
  runRow capture cellElements st = walkRow capture cellElements st.
Proof.
  intros Hidx. unfold runRow.
  rewrite rowLoop_walkRow by reflexivity. rewrite Hidx. simpl drop.
  apply drainLoop_unowed, walkRow_unowed.
Qed.

Lemma walkRow_snoc capture cellEls cellEl st :
  walkRow capture (cellEls ++ [cellEl]) st
  = drainAll (consumeCell capture cellEl (walkRow capture cellEls st)).
Proof.
  revert st. induction cellEls as [|c cs IH]; intros st; [reflexivity|apply IH].
Qed.

Lemma owed_entry (tr : ledger) (c : nat) :
  owed tr c = true -> exists remaining, tr !! c = Some (Some remaining) /\ 0 < remaining.
Proof.
  unfold owed. destruct (tr !! c) as [[r|]|]; try discriminate.
  intros H. exists r. split; [reflexivity|]. now apply Z.ltb_lt.
Qed.

Lemma owed_decrement_ne (tr : ledger) (c j : nat) :
  c <> j -> owed (decrement tr c) j = owed tr j.
Proof.
  intros Hne. unfold owed, decrement.
  destruct (tr !! c) as [[r|]|]; try reflexivity.
  now rewrite list_lookup_insert_ne.
Qed.

Lemma emitFillers_shape (k : nat) (st : RowState) :
  outCells (Nat.iter k emitFiller st) = outCells st ++ replicate k (mkCell [] 1 1)
  /\ colIdx (Nat.iter k emitFiller st) = (colIdx st + k)%nat
  /\ cellElIdx (Nat.iter k emitFiller st) = cellElIdx st
  /\ alignmentsOut (Nat.iter k emitFiller st) = alignmentsOut st.
Proof.
  induction k as [|k (Hout & Hcol & Hidx & Hal)]; simpl.
  - rewrite app_nil_r. repeat split; try reflexivity. lia.
  - rewrite Hout, Hcol, Hidx, Hal. repeat split; try reflexivity; [|lia].
    rewrite <- app_assoc. f_equal.
    change ([createCell1 []]) with (replicate 1 (mkCell [] 1 1)).
    rewrite <- replicate_add, Nat.add_1_r. reflexivity.
Qed.

(** The draining emits the fillers of the consecutive columns that owe
    one, from the current column on, and stops at the first that owes
    none. *)
Lemma drainAll_consecutive (st : RowState) :
  exists k,
    drainAll st = Nat.iter k emitFiller st
    /\ (forall j, (j < k)%nat -> owed (rowspanTracker st) (colIdx st + j) = true)
    /\ owed (rowspanTracker st) (colIdx st + k) = false.
Proof.
  remember (length (rowspanTracker st) - colIdx st)%nat as room eqn:Hroom.
  revert st Hroom. induction room as [|room IH]; intros st Hroom.
  - exists O. rewrite Nat.add_0_r.
    assert (Ho : owed (rowspanTracker st) (colIdx st) = false) by (apply owed_ge; lia).
    split; [now apply drainAll_unowed|]. split; [lia|exact Ho].
  - destruct (owed (rowspanTracker st) (colIdx st)) eqn:Ho.
    + destruct (IH (emitFiller st)) as (k & Hrun & Hconsec & Hstop).
      { simpl. rewrite length_decrement. lia. }
      exists (S k). split; [|split].
      * rewrite (drainAll_owed st Ho), Hrun. symmetry. apply Nat.iter_succ_r.
      * intros [|j] Hj; [now rewrite Nat.add_0_r|].
        specialize (Hconsec j ltac:(lia)). simpl in Hconsec.
        rewrite owed_decrement_ne in Hconsec by lia.
        now replace (colIdx st + S j)%nat with (S (colIdx st + j)) by lia.
      * simpl in Hstop. rewrite owed_decrement_ne in Hstop by lia.
        now replace (colIdx st + S k)%nat with (S (colIdx st + k)) by lia.
    + exists O. rewrite Nat.add_0_r.
      split; [now apply drainAll_unowed|]. split; [lia|exact Ho].
Qed.

(** C3, as the code has it.  In the walk over the columns of a row, a turn
    of the loop that finds a filler owed at the current column emits an
    empty cell, decrements the ledger there and moves to the next column,
    and reads no cell element.  When the two loops of a row end, every cell
    element of the row has been read and no filler is owed at the current
    column: after the last cell element (or at once, in a row without
    cells) the fillers of the consecutive columns that owe one are emitted,
    up to the first column that owes none. *)
Theorem rowspan_fillers (capture : bool) (cellElements : list CellEl) :
  (forall fuel st,
      owed (rowspanTracker st) (colIdx st) = true ->
      exists remaining,
        rowspanTracker st !! colIdx st = Some (Some remaining) /\ 0 < remaining
        /\ rowLoop (S fuel) capture cellElements st
           = rowLoop fuel capture cellElements
               {| outCells := outCells st ++ [mkCell [] 1 1];
                  colIdx := S (colIdx st);
                  cellElIdx := cellElIdx st;
                  rowspanTracker := <[colIdx st := Some (remaining - 1)]> (rowspanTracker st);
                  alignmentsOut := alignmentsOut st |})
  /\ (forall st0, cellElIdx st0 = O ->
        let st2 := runRow capture cellElements st0 in
        cellElIdx st2 = length cellElements
        /\ owed (rowspanTracker st2) (colIdx st2) = false)
  /\ (forall st0 cellEl, cellElIdx st0 = O ->
        exists k,
          let st1 := consumeCell capture cellEl (runRow capture cellElements st0) in
          runRow capture (cellElements ++ [cellEl]) st0 = Nat.iter k emitFiller st1
          /\ outCells (Nat.iter k emitFiller st1) = outCells st1 ++ replicate k (mkCell [] 1 1)
          /\ (forall j, (j < k)%nat -> owed (rowspanTracker st1) (colIdx st1 + j) = true)
          /\ owed (rowspanTracker st1) (colIdx st1 + k) = false)
  /\ (forall st0, cellElIdx st0 = O ->
        exists k,
          runRow capture [] st0 = Nat.iter k emitFiller st0
          /\ outCells (Nat.iter k emitFiller st0) = outCells st0 ++ replicate k (mkCell [] 1 1)
          /\ (forall j, (j < k)%nat -> owed (rowspanTracker st0) (colIdx st0 + j) = true)
          /\ owed (rowspanTracker st0) (colIdx st0 + k) = false).
Proof.
  split; [|split; [|split]].
  - intros fuel st Ho. destruct (owed_entry _ _ Ho) as (remaining & Hentry & Hpos).
    exists remaining. split; [exact Hentry|]. split; [exact Hpos|].
    simpl. rewrite Ho, orb_true_r. unfold emitFiller, decrement. now rewrite Hentry.
  - intros st0 Hidx st2. unfold st2. rewrite runRow_walkRow by exact Hidx.
    split; [now rewrite walkRow_cellElIdx, Hidx|apply walkRow_unowed].
  - intros st0 cellEl Hidx. rewrite !runRow_walkRow by exact Hidx.
    rewrite walkRow_snoc.
    destruct (drainAll_consecutive (consumeCell capture cellEl (walkRow capture cellElements st0)))
      as (k & Hrun & Hconsec & Hstop).
    exists k. cbv zeta. split; [exact Hrun|]. split; [apply (proj1 (emitFillers_shape _ _))|]. now split.
  - intros st0 Hidx. rewrite runRow_walkRow by exact Hidx. simpl.
    destruct (drainAll_consecutive st0) as (k & Hrun & Hconsec & Hstop).
    exists k. split; [exact Hrun|]. split; [apply (proj1 (emitFillers_shape _ _))|]. now split.
Qed.

(** A row of one cell under a ledger that owes a filler in columns 0
    and 2. *)
Lemma rowspan_fillers_witness :
  let st0 := {| outCells := []; colIdx := O; cellElIdx := O;
                rowspanTracker := [Some 1; None; Some 2]; alignmentsOut := [] |} in
  let st2 := runRow false [mkCellEl (lit "x") None None None []] st0 in
  cellElIdx st2 = 1%nat /\ owed (rowspanTracker st2) (colIdx st2) = false.
Proof.
  intros st0.
  apply (proj1 (proj2 (rowspan_fillers false [mkCellEl (lit "x") None None None []])) st0).
  reflexivity.
Defined.

(** C3: the code does not drain every filler that a row owes.  The first
    row spans its second cell over two rows, the second row has no cell,
    the third row has two cells.  The loops of the second row look at
    column 0 only, where nothing is owed: no filler is emitted for that
    row, and the ledger still owes the filler of column 1 when the third
    row is processed.  That row gets the filler between its two cells, and
    the table is read with three columns instead of two. *)
Lemma rowspan_gap_counterexample :
  let tableEl :=
    mkTableEl [mkSectionEl TBody
                 [ [mkCellEl (lit "a") None None None [];
                    mkCellEl (lit "b") None (Some (lit "2")) None []];
                   [];
                   [mkCellEl (lit "c") None None None [];
                    mkCellEl (lit "d") None None None []] ]] in
  let ts := processRows true O (take 2 (trElements tableEl)) initialTableState in
  map (fun r => map content (cells r)) (rowsOut ts) = [[lit "a"; lit "b"]; []]
  /\ owed (trackerAcc ts) 1 = true
  /\ exists t,
       htmlTableToModel tableEl = Some t
       /\ map (fun r => map content (cells r)) (rows t)
          = [[lit "a"; lit "b"; []]; [[]; []; []]; [lit "c"; []; lit "d"]]
       /\ getColumnCount t = 3.
Proof.
  split; [reflexivity|]. split; [reflexivity|].
  eexists. split; [reflexivity|]. split; reflexivity.
Qed.

(** ** Degenerate span attributes *)

Lemma emitFiller_withCellElIdx i st :
  emitFiller (withCellElIdx i st) = withCellElIdx i (emitFiller st).
Proof. reflexivity. Qed.

Lemma drainLoop_withCellElIdx fuel i st :
  drainLoop fuel (withCellElIdx i st) = withCellElIdx i (drainLoop fuel st).
Proof.
  revert st. induction fuel as [|fuel IH]; intros st; [reflexivity|]. simpl.
  destruct (owed (rowspanTracker st) (colIdx st)); [|reflexivity].
  now rewrite <- IH.
Qed.

Lemma drainAll_withCellElIdx i st :
  drainAll (withCellElIdx i st) = withCellElIdx i (drainAll st).
Proof. apply drainLoop_withCellElIdx. Qed.

Lemma expandCell_withCellElIdx n first content rs al capture i st :
  expandCell n first content rs al capture (withCellElIdx i st)
  = withCellElIdx i (expandCell n first content rs al capture st).
Proof.
  revert first st. induction n as [|n IH]; intros first st; [reflexivity|].
  simpl. now rewrite <- IH.
Qed.

Lemma consumeCell_withCellElIdx capture cellEl i st :
  consumeCell capture cellEl (withCellElIdx i st)
  = withCellElIdx (S i) (consumeCell capture cellEl st).
Proof.
  unfold consumeCell. rewrite expandCell_withCellElIdx. reflexivity.
Qed.

Lemma walkRow_withCellElIdx capture cellEls i st :
  exists i', walkRow capture cellEls (withCellElIdx i st)
             = withCellElIdx i' (walkRow capture cellEls st).
Proof.
  revert i st. induction cellEls as [|c cs IH]; intros i st; simpl.
  - exists i. apply drainAll_withCellElIdx.
  - rewrite drainAll_withCellElIdx, consumeCell_withCellElIdx. apply IH.
Qed.

Lemma walkRow_drainAll capture cellEls st :
  walkRow capture cellEls (drainAll st) = walkRow capture cellEls st.
Proof. destruct cellEls; simpl; now rewrite drainAll_idem. Qed.

Lemma expandCell_no_rowspan n first content rs al capture st :
  gt1 rs = false ->
  rowspanTracker (expandCell n first content rs al capture st) = rowspanTracker st.
Proof.
  intros Hrs. revert first st. induction n as [|n IH]; intros first st; [reflexivity|].
  simpl. rewrite IH. simpl. now rewrite Hrs.
Qed.

Lemma expandCell_same_rowspan n first content rs rs' al capture st :
  gt1 rs = false -> gt1 rs' = false ->
  expandCell n first content rs al capture st
  = expandCell n first content rs' al capture st.
Proof.
  intros Hrs Hrs'. revert first st. induction n as [|n IH]; intros first st; [reflexivity|].
  simpl. rewrite Hrs, Hrs'. apply IH.
Qed.

Lemma turns_degenerate (n : option Z) : nanOrAtMost 0 n -> turns n = O.
Proof. intros [->|(z & -> & Hz)]; [reflexivity|]. simpl. lia. Qed.

Lemma gt1_degenerate (n : option Z) : nanOrAtMost 1 n -> gt1 n = false.
Proof. intros [->|(z & -> & Hz)]; [reflexivity|]. simpl. now apply Z.ltb_ge. Qed.

Lemma consumeCell_degenerate capture cellEl st :
  nanOrAtMost 0 (Js.parseInt (attrOr (colspanAttr cellEl) (lit "1"))) ->
  consumeCell capture cellEl st = withCellElIdx (S (cellElIdx st)) st.
Proof. intros H. unfold consumeCell. now rewrite (turns_degenerate _ H). Qed.

Lemma walkRow_degenerate capture pre bad post st :
  nanOrAtMost 0 (Js.parseInt (attrOr (colspanAttr bad) (lit "1"))) ->
  exists i, walkRow capture (pre ++ bad :: post) st
            = withCellElIdx i (walkRow capture (pre ++ post) st).
Proof.
  intros Hbad. revert st. induction pre as [|c pre IH]; intros st.
  - change ([] ++ bad :: post) with (bad :: post). change ([] ++ post) with post.
    change (walkRow capture (bad :: post) st)
      with (walkRow capture post (consumeCell capture bad (drainAll st))).
    rewrite (consumeCell_degenerate _ _ _ Hbad).
    destruct (walkRow_withCellElIdx capture post (S (cellElIdx (drainAll st))) (drainAll st))
      as (i & Hi).
    exists i. now rewrite Hi, walkRow_drainAll.
  - apply IH.
Qed.

(** C9.  A cell element whose [colspan] attribute is read by [parseInt] as
    [NaN], zero or a negative number is counted as read and leaves the
    cells, the column, the ledger and the alignments as they were: the row
    comes out as if the element were not there, and its text is lost.  A
    [rowspan] attribute read as [NaN] or as a number not above 1 writes
    nothing into the ledger: the element is read as if it had no [rowspan]
    attribute. *)
Theorem degenerate_spans (capture : bool) (cellEl : CellEl) :
  let colspan := Js.parseInt (attrOr (colspanAttr cellEl) (lit "1")) in
  let rowspan := Js.parseInt (attrOr (rowspanAttr cellEl) (lit "1")) in
  (nanOrAtMost 0 colspan ->
     (forall st,
         consumeCell capture cellEl st
         = {| outCells := outCells st; colIdx := colIdx st; cellElIdx := S (cellElIdx st);
              rowspanTracker := rowspanTracker st; alignmentsOut := alignmentsOut st |})
     /\ (forall treatFirstAsHeader rowIdx inTHead pre post ts,
           processRow treatFirstAsHeader rowIdx (inTHead, pre ++ cellEl :: post) ts
           = processRow treatFirstAsHeader rowIdx (inTHead, pre ++ post) ts))
  /\ (nanOrAtMost 1 rowspan ->
      forall st,
        rowspanTracker (consumeCell capture cellEl st) = rowspanTracker st
        /\ consumeCell capture cellEl st
           = consumeCell capture
               {| textContent := textContent cellEl; colspanAttr := colspanAttr cellEl;
                  rowspanAttr := None; alignAttr := alignAttr cellEl;
                  styleTextAlign := styleTextAlign cellEl |} st).
Proof.
  intros colspan rowspan. split.
  - intros Hcol. split.
    + intros st. now rewrite (consumeCell_degenerate _ _ _ Hcol).
    + intros tfh rowIdx inTHead pre post ts. unfold processRow. simpl snd.
      rewrite !runRow_walkRow by reflexivity.
      match goal with
      | |- context [walkRow ?c (pre ++ cellEl :: post) ?s] =>
          destruct (walkRow_degenerate c pre cellEl post s Hcol) as (i & ->)
      end.
      reflexivity.
  - intros Hrow st. pose proof (gt1_degenerate _ Hrow) as Hgt. split.
    + unfold consumeCell. simpl. now apply expandCell_no_rowspan.
    + unfold consumeCell. simpl.
      rewrite (expandCell_same_rowspan _ _ _ rowspan (Js.parseInt (lit "1"))); auto.
Qed.

(** A cell with [colspan="0"] between two cells, and a cell with
    [rowspan="x"]. *)
Lemma degenerate_spans_witness :
  (forall ts,
      processRow true O (false, [mkCellEl (lit "a") None None None [];
                                 mkCellEl (lit "lost") (Some (lit "0")) None None [];
                                 mkCellEl (lit "b") None None None []]) ts
      = processRow true O (false, [mkCellEl (lit "a") None None None [];
                                   mkCellEl (lit "b") None None None []]) ts)
  /\ (forall st,
        rowspanTracker (consumeCell true (mkCellEl (lit "c") None (Some (lit "x")) None []) st)
        = rowspanTracker st).
Proof.
  split.
  - intros ts.
    apply (proj2 (proj1 (degenerate_spans true
                           (mkCellEl (lit "lost") (Some (lit "0")) None None []))
                    (or_intror (ex_intro _ 0 (conj eq_refl (Z.le_refl 0)))))
             true O false [mkCellEl (lit "a") None None None []]
             [mkCellEl (lit "b") None None None []] ts).
  - intros st.
    apply (proj2 (degenerate_spans true (mkCellEl (lit "c") None (Some (lit "x")) None []))
             (or_introl eq_refl) st).
Defined.

(** ** The warnings of [htmlToMarkdown] *)

Lemma tablesWarning_not_merged (n : Z) : tablesWarning n <> mergedWarning.
Proof. discriminate. Qed.

(** An attribute reads as a number above 1 for the code exactly when it
    is there and [parseInt] reads a number above 1 from it. *)
Lemma gt1_attribute (attr : option jsstring) :
  gt1 (Js.parseInt (attrOr attr (lit "1"))) = true
  <-> exists a z, attr = Some a /\ Js.parseInt a = Some z /\ 1 < z.
Proof.
  split.
  - destruct attr as [[|c a]|]; try discriminate. simpl attrOr.
    destruct (Js.parseInt (c :: a)) as [z|] eqn:Hz; [|discriminate].
    simpl. intros H. exists (c :: a), z. split; [reflexivity|]. split; [exact Hz|].
    now apply Z.ltb_lt.
  - intros (a & z & -> & Hz & Hgt). destruct a as [|c a]; [discriminate|].
    simpl attrOr. rewrite Hz. simpl. now apply Z.ltb_lt.
Qed.

(** C7.  When [htmlToMarkdown] succeeds, its warnings hold the text
    [Found n tables — only the first was converted.], with the decimal
    digits of the number [n] of tables that the sanitizer counted, exactly
    when that number is above 1, and hold the text [Merged cells were
    expanded into separate cells.] exactly when some cell element of the
    table has a [colspan] or a [rowspan] attribute from which [parseInt]
    reads a number above 1; neither warning comes twice, and there is no
    other warning.  The conversion succeeds whenever the sanitizer finds a
    table that has a row, whatever the warnings. *)
Theorem htmlToMarkdown_warnings
    (sanitizeWordHtml : jsstring -> option Sanitized) (htmlString : jsstring) :
  (forall result,
      htmlToMarkdown sanitizeWordHtml htmlString = Some result ->
      exists sanitized model,
        let found :=
          lit "Found " ++ lit (NilEmpty.string_of_int (Z.to_int (tableCount sanitized)))
            ++ lit " tables — only the first was converted." in
        let merged := lit "Merged cells were expanded into separate cells." in
        sanitizeWordHtml htmlString = Some sanitized
        /\ htmlTableToModel (table sanitized) = Some model
        /\ markdown result = tableModelToMarkdown model
        /\ (In found (warnings result) <-> 1 < tableCount sanitized)
        /\ (In merged (warnings result)
            <-> exists cell,
                  In cell (cellElementsOf (table sanitized))
                  /\ ((exists a z, colspanAttr cell = Some a /\ Js.parseInt a = Some z /\ 1 < z)
                      \/ (exists a z, rowspanAttr cell = Some a /\ Js.parseInt a = Some z
                                      /\ 1 < z)))
        /\ (count_occ jsstring_eq_dec (warnings result) found <= 1)%nat
        /\ (count_occ jsstring_eq_dec (warnings result) merged <= 1)%nat
        /\ (forall w, In w (warnings result) -> w = found \/ w = merged)
        /\ (forall pre post, warnings result = pre ++ merged :: post -> post = []))
  /\ (forall sanitized,
        sanitizeWordHtml htmlString = Some sanitized ->
        trElements (table sanitized) <> [] ->
        exists result, htmlToMarkdown sanitizeWordHtml htmlString = Some result).
Proof.
  split.
  - intros result Hrun. unfold htmlToMarkdown in Hrun.
    destruct (sanitizeWordHtml htmlString) as [sanitized|] eqn:Hsan; [|discriminate].
    destruct (htmlTableToModel (table sanitized)) as [model|] eqn:Hmodel; [|discriminate].
    inversion Hrun; subst result; clear Hrun. cbn [markdown warnings].
    exists sanitized, model. cbv zeta.
    change (lit "Found " ++ lit (NilEmpty.string_of_int (Z.to_int (tableCount sanitized)))
              ++ lit " tables — only the first was converted.")
      with (tablesWarning (tableCount sanitized)).
    change (lit "Merged cells were expanded into separate cells.") with mergedWarning.
    split; [reflexivity|]. split; [exact Hmodel|]. split; [reflexivity|].
    assert (Hmerged : existsb isMerged (cellElementsOf (table sanitized)) = true
              <-> exists cell,
                    In cell (cellElementsOf (table sanitized))
                    /\ ((exists a z, colspanAttr cell = Some a /\ Js.parseInt a = Some z
                                     /\ 1 < z)
                        \/ (exists a z, rowspanAttr cell = Some a /\ Js.parseInt a = Some z
                                        /\ 1 < z))).
    { rewrite existsb_exists. unfold isMerged.
      split; intros (cell & Hin & H); exists cell; (split; [exact Hin|]).
      - apply orb_prop in H as [H|H]; [left|right]; now apply gt1_attribute.
      - apply orb_true_iff. destruct H as [H|H]; [left|right]; now apply gt1_attribute. }
    assert (Hne : tablesWarning (tableCount sanitized) <> mergedWarning)
      by apply tablesWarning_not_merged.
    assert (Hne' : mergedWarning <> tablesWarning (tableCount sanitized))
      by (intros H; now apply Hne).
    assert (Hlast : forall (l pre post : list jsstring),
              l = [] \/ l = [tablesWarning (tableCount sanitized)] ->
              l ++ [mergedWarning] = pre ++ mergedWarning :: post -> post = []).
    { intros l pre post Hl Heq.
      destruct post as [|w post]; [reflexivity|exfalso].
      assert (Hlen := f_equal (@length _) Heq).
      rewrite !length_app in Hlen. cbn [length] in Hlen.
      destruct Hl as [-> | ->]; cbn [length app] in *.
      - destruct pre as [|p [|p' pre]]; cbn in Hlen; lia.
      - destruct pre as [|p [|p' pre]]; cbn [app] in Heq; cbn [length] in Hlen; try lia.
        injection Heq as Heq _. now apply Hne. }
    assert (Hnone : forall (l pre post : list jsstring),
              l = [] \/ l = [tablesWarning (tableCount sanitized)] ->
              l = pre ++ mergedWarning :: post -> post = []).
    { intros l pre post [-> | ->] Heq.
      - now destruct pre.
      - destruct pre as [|p [|p' pre]]; discriminate. }
    destruct (Z.ltb_spec 1 (tableCount sanitized)) as [Hcount|Hcount];
      destruct (existsb isMerged (cellElementsOf (table sanitized))) eqn:Hex;
      cbn [app];
      repeat first
        [ rewrite (count_occ_cons_neq jsstring_eq_dec _ Hne)
        | rewrite (count_occ_cons_neq jsstring_eq_dec _ Hne')
        | rewrite (count_occ_cons_eq jsstring_eq_dec _ (eq_refl mergedWarning))
        | rewrite (count_occ_cons_eq jsstring_eq_dec _
                     (eq_refl (tablesWarning (tableCount sanitized)))) ];
      cbn [count_occ In].
    + split; [split; [intros _; exact Hcount|now left]|].
      split; [split; [intros _; now apply Hmerged|now right; left]|].
      split; [lia|]. split; [lia|]. split; [intros w; intuition congruence|].
      intros pre post. apply (Hlast [tablesWarning (tableCount sanitized)]). now right.
    + split; [split; [intros _; exact Hcount|now left]|].
      split; [split; [intros [H|[]]; now elim Hne|]|].
      { intros H. apply Hmerged in H. discriminate. }
      split; [lia|]. split; [lia|]. split; [intros w; intuition congruence|].
      intros pre post. apply Hnone. now right.
    + split; [split; [intros [H|[]]; now elim Hne'|lia]|].
      split; [split; [intros _; now apply Hmerged|now left]|].
      split; [lia|]. split; [lia|]. split; [intros w; intuition congruence|].
      intros pre post. apply (Hlast []). now left.
    + split; [split; [intros []|lia]|].
      split; [split; [intros []|]|].
      { intros H. apply Hmerged in H. discriminate. }
      split; [lia|]. split; [lia|]. split; [intros w; intuition congruence|].
      intros pre post. apply Hnone. now left.
  - intros sanitized Hsan Hrows. unfold htmlToMarkdown, htmlTableToModel.
    rewrite Hsan. destruct (trElements (table sanitized)); [congruence|].
    simpl. eauto.
Qed.

(** Two tables counted, and a cell with [colspan="2"]: both warnings,
    the one with the number 2 first. *)
Lemma htmlToMarkdown_warnings_witness :
  let tableEl :=
    mkTableEl [mkSectionEl TBody
                 [ [mkCellEl (lit "A") None None None []; mkCellEl (lit "B") None None None []];
                   [mkCellEl (lit "Merged") (Some (lit "2")) None None []] ]] in
  let sanitizer := fun _ : jsstring => Some {| table := tableEl; tableCount := 2 |} in
  exists result,
    htmlToMarkdown sanitizer (lit "<table>") = Some result
    /\ In (lit "Found 2 tables — only the first was converted.") (warnings result)
    /\ In (lit "Merged cells were expanded into separate cells.") (warnings result).
Proof.
  intros tableEl sanitizer.
  destruct (proj2 (htmlToMarkdown_warnings sanitizer (lit "<table>"))
              {| table := tableEl; tableCount := 2 |} eq_refl) as (result & Hresult);
    [discriminate|].
  exists result. split; [exact Hresult|].
  destruct (proj1 (htmlToMarkdown_warnings sanitizer (lit "<table>")) result Hresult)
    as (sanitized & model & Hsan & _ & _ & Hfound & Hmerged & _).
  injection Hsan as <-. split.
  - apply (proj2 Hfound). reflexivity.
  - apply (proj2 Hmerged).
    exists (mkCellEl (lit "Merged") (Some (lit "2")) None None []).
    split; [right; right; now left|].
    left. exists (lit "2"), 2. repeat split.
Defined.

(** ** The markup of a table parses to the element of the table *)

Lemma replaceChar_app (c : ascii) (rep s r : jsstring) :
  Js.replaceChar c rep (s ++ r) = Js.replaceChar c rep s ++ Js.replaceChar c rep r.
Proof. apply flat_map_app. Qed.

Lemma escapeHtml_cons (c : ascii) (s : jsstring) :
  escapeHtml (c :: s) = escapeHtmlChar c ++ escapeHtml s.
Proof.
  unfold escapeHtml.
  change (Js.replaceChar "&" (lit "&amp;") (c :: s))
    with ((if Ascii.eqb c "&" then lit "&amp;" else [c]) ++ Js.replaceChar "&" (lit "&amp;") s).
  rewrite !replaceChar_app. f_equal.
  unfold escapeHtmlChar.
  destruct (Ascii.eqb c "&") eqn:Hamp; [reflexivity|].
  unfold Js.replaceChar at 3. simpl flat_map.
  destruct (Ascii.eqb c "<") eqn:Hlt; [reflexivity|].
  unfold Js.replaceChar at 2. simpl flat_map.
  destruct (Ascii.eqb c ">") eqn:Hgt; [reflexivity|].
  unfold Js.replaceChar at 1. simpl flat_map.
  destruct (Ascii.eqb c dquote) eqn:Hq; reflexivity.
Qed.

Lemma withText_nil cell : withText [] cell = cell.
Proof. destruct cell. unfold withText. simpl. now rewrite app_nil_r. Qed.

Lemma withText_app t u cell : withText u (withText t cell) = withText (t ++ u) cell.
Proof. unfold withText. simpl. now rewrite app_assoc. Qed.

Lemma withoutNul_app (s r : jsstring) : withoutNul (s ++ r) = withoutNul s ++ withoutNul r.
Proof. apply List.filter_app. Qed.

Lemma htmlCell_split tag bold al i cell :
  htmlCell tag bold al i cell
  = cellOpenTag tag bold (alignmentAt al i) ++ escapeHtml (content cell) ++ cellCloseTag tag.
Proof. unfold htmlCell, cellOpenTag, cellCloseTag, cellStyleAttr. now rewrite <- !app_assoc. Qed.

(** *** Line breaks of the markup *)

Lemma normalizeNewlines_static (s r : jsstring) :
  noCR s = true ->
  DOMParser.normalizeNewlinesFrom false (s ++ r)
  = s ++ DOMParser.normalizeNewlinesFrom false r.
Proof.
  induction s as [|c s IH]; intros Hs; [reflexivity|].
  simpl in Hs. apply andb_true_iff in Hs as (Hc & Hs).
  apply negb_true_iff in Hc.
  simpl. rewrite Hc, andb_false_r, IH by exact Hs. reflexivity.
Qed.

Lemma normalizeNewlines_tag (b : bool) (q : jsstring) :
  DOMParser.normalizeNewlinesFrom b ("<"%char :: q)
  = "<"%char :: DOMParser.normalizeNewlinesFrom false q.
Proof. destruct b; reflexivity. Qed.

Lemma normalizeNewlines_escaped (b : bool) (s q : jsstring) :
  DOMParser.normalizeNewlinesFrom b (escapeHtml s ++ "<"%char :: q)
  = escapeHtml (DOMParser.normalizeNewlinesFrom b s)
      ++ "<"%char :: DOMParser.normalizeNewlinesFrom false q.
Proof.
  revert b. induction s as [|c s IH]; intros b.
  - apply normalizeNewlines_tag.
  - rewrite escapeHtml_cons, <- List.app_assoc.
    destruct (Ascii.eqb_spec c DOMParser.cr) as [->|Hcr].
    { change (escapeHtmlChar DOMParser.cr) with [DOMParser.cr].
      change ([DOMParser.cr] ++ ?x) with (DOMParser.cr :: x).
      change (DOMParser.normalizeNewlinesFrom b (DOMParser.cr :: ?x))
        with (nl :: DOMParser.normalizeNewlinesFrom true x).
      rewrite escapeHtml_cons, IH. reflexivity. }
    destruct (Ascii.eqb_spec c nl) as [->|Hnl].
    { change (escapeHtmlChar nl) with [nl].
      change ([nl] ++ ?x) with (nl :: x).
      destruct b.
      - change (DOMParser.normalizeNewlinesFrom true (nl :: ?x))
          with (DOMParser.normalizeNewlinesFrom false x).
        apply IH.
      - change (DOMParser.normalizeNewlinesFrom false (nl :: ?x))
          with (nl :: DOMParser.normalizeNewlinesFrom false x).
        rewrite escapeHtml_cons, IH. reflexivity. }
    apply Ascii.eqb_neq in Hcr, Hnl.
    assert (Hc : DOMParser.normalizeNewlinesFrom b (c :: s)
                 = c :: DOMParser.normalizeNewlinesFrom false s).
    { simpl. now rewrite Hcr, Hnl. }
    rewrite Hc, escapeHtml_cons, <- List.app_assoc, <- IH.
    unfold escapeHtmlChar.
    destruct (Ascii.eqb c "&"); [destruct b; reflexivity|].
    destruct (Ascii.eqb c "<"); [destruct b; reflexivity|].
    destruct (Ascii.eqb c ">"); [destruct b; reflexivity|].
    destruct (Ascii.eqb c dquote); [destruct b; reflexivity|].
    simpl. now rewrite Hcr, Hnl.
Qed.

(** *** The parser along the markup *)

Section Parsed.

Variable textAlign : jsstring -> jsstring.

Lemma fold_charStep_app (s r : jsstring) (b : DOMParser.Builder) :
  fold_left (DOMParser.charStep textAlign) (s ++ r) b
  = fold_left (DOMParser.charStep textAlign) r (fold_left (DOMParser.charStep textAlign) s b).
Proof. apply fold_left_app. Qed.

Lemma static_parsed (s r : jsstring) (b : DOMParser.Builder) :
  noCR s = true ->
  fold_left (DOMParser.charStep textAlign) (DOMParser.normalizeNewlinesFrom false (s ++ r)) b
  = fold_left (DOMParser.charStep textAlign) (DOMParser.normalizeNewlinesFrom false r)
      (fold_left (DOMParser.charStep textAlign) s b).
Proof.
  intros Hs. rewrite normalizeNewlines_static, fold_charStep_app by exact Hs. reflexivity.
Qed.

Lemma charStep_escaped (c : ascii) cell cs k rs done :
  fold_left (DOMParser.charStep textAlign) (escapeHtmlChar c) (inCell cell cs k rs done)
  = inCell (withText (withoutNul [c]) cell) cs k rs done.
Proof.
  unfold escapeHtmlChar.
  destruct (Ascii.eqb_spec c "&") as [->|Hamp]; [reflexivity|].
  destruct (Ascii.eqb_spec c "<") as [->|Hlt]; [reflexivity|].
  destruct (Ascii.eqb_spec c ">") as [->|Hgt]; [reflexivity|].
  destruct (Ascii.eqb_spec c dquote) as [->|Hq]; [reflexivity|].
  apply Ascii.eqb_neq in Hamp, Hlt.
  simpl. unfold DOMParser.charStep, DOMParser.dataStep. simpl.
  rewrite Hamp, Hlt. unfold withoutNul. simpl.
  destruct (Ascii.eqb c DOMParser.nul); simpl; [now rewrite withText_nil|reflexivity].
Qed.

Lemma charStep_text (s : jsstring) cell cs k rs done :
  fold_left (DOMParser.charStep textAlign) (escapeHtml s) (inCell cell cs k rs done)
  = inCell (withText (withoutNul s) cell) cs k rs done.
Proof.
  revert cell. induction s as [|c s IH]; intros cell.
  - simpl. now rewrite withText_nil.
  - rewrite escapeHtml_cons, fold_charStep_app, charStep_escaped, IH, withText_app.
    now rewrite <- withoutNul_app.
Qed.

Lemma text_parsed (s q : jsstring) cell cs k rs done :
  fold_left (DOMParser.charStep textAlign)
    (DOMParser.normalizeNewlinesFrom false (escapeHtml s ++ "<"%char :: q))
    (inCell cell cs k rs done)
  = fold_left (DOMParser.charStep textAlign)
      (DOMParser.normalizeNewlinesFrom false ("<"%char :: q))
      (inCell (withText (parsedText s) cell) cs k rs done).
Proof.
  rewrite normalizeNewlines_escaped, fold_charStep_app, charStep_text. reflexivity.
Qed.

Lemma cellOpenTag_noCR (header : bool) (align : jsstring) :
  noCR (cellOpenTag (if header then lit "th" else lit "td") header align) = true.
Proof.
  unfold cellOpenTag, cellStyleAttr, alignStyle.
  destruct (jsEq align "center"); [|destruct (jsEq align "right")];
    destruct header; reflexivity.
Qed.

Lemma cellOpenTag_parsed (header : bool) (align : jsstring) cs k rs done :
  fold_left (DOMParser.charStep textAlign)
    (cellOpenTag (if header then lit "th" else lit "td") header align) (inRow cs k rs done)
  = inCell (mkCellEl [] None None None (textAlign (cellStyleAttr header align))) cs k rs done.
Proof.
  unfold cellOpenTag, cellStyleAttr, alignStyle.
  destruct (jsEq align "center"); [|destruct (jsEq align "right")];
    destruct header; reflexivity.
Qed.

Lemma cellCloseTag_parsed (header : bool) cell cs k rs done :
  fold_left (DOMParser.charStep textAlign)
    (cellCloseTag (if header then lit "th" else lit "td")) (inCell cell cs k rs done)
  = inRow (cs ++ [cell]) k rs done.
Proof. destruct header; reflexivity. Qed.

Lemma htmlCell_parsed (header : bool) al i cell (r : jsstring) cs k rs done :
  fold_left (DOMParser.charStep textAlign)
    (DOMParser.normalizeNewlinesFrom false
       (htmlCell (if header then lit "th" else lit "td") header al i cell ++ r))
    (inRow cs k rs done)
  = fold_left (DOMParser.charStep textAlign) (DOMParser.normalizeNewlinesFrom false r)
      (inRow (cs ++ [cellElOf textAlign header al i cell]) k rs done).
Proof.
  rewrite htmlCell_split, <- !app_assoc.
  rewrite static_parsed by apply cellOpenTag_noCR.
  rewrite cellOpenTag_parsed.
  assert (Hclose : cellCloseTag (if header then lit "th" else lit "td") ++ r
                   = "<"%char :: List.tl (cellCloseTag (if header then lit "th" else lit "td")) ++ r)
    by (destruct header; reflexivity).
  rewrite Hclose, text_parsed, <- Hclose.
  rewrite static_parsed by (destruct header; reflexivity).
  rewrite cellCloseTag_parsed. reflexivity.
Qed.

Lemma htmlCells_parsed (header : bool) al (cells0 : list Cell) (j : nat) (r : jsstring)
    cs k rs done :
  fold_left (DOMParser.charStep textAlign)
    (DOMParser.normalizeNewlinesFrom false
       (concat (imap (fun i => htmlCell (if header then lit "th" else lit "td") header al (j + i))
                     cells0) ++ r))
    (inRow cs k rs done)
  = fold_left (DOMParser.charStep textAlign) (DOMParser.normalizeNewlinesFrom false r)
      (inRow (cs ++ imap (fun i => cellElOf textAlign header al (j + i)) cells0) k rs done).
Proof.
  revert j cs. induction cells0 as [|cell cells0 IH]; intros j cs.
  - simpl. now rewrite app_nil_r.
  - rewrite !imap_cons.
    change (concat (?x :: ?l)) with (x ++ concat l).
    rewrite <- app_assoc. cbv beta. rewrite Nat.add_0_r, htmlCell_parsed.
    rewrite (imap_ext _ (fun i => htmlCell (if header then lit "th" else lit "td") header al (S j + i)))
      by (intros; simpl; f_equal; lia).
    rewrite IH, <- app_assoc. simpl app. do 4 f_equal.
    apply imap_ext. intros. simpl. f_equal. lia.
Qed.

Lemma htmlRow_parsed (header : bool) al row (r : jsstring) k rs done :
  fold_left (DOMParser.charStep textAlign)
    (DOMParser.normalizeNewlinesFrom false
       (htmlRow (if header then lit "th" else lit "td") header al row ++ r))
    (inSection k rs done)
  = fold_left (DOMParser.charStep textAlign) (DOMParser.normalizeNewlinesFrom false r)
      (inSection k (rs ++ [rowElOf textAlign header al row]) done).
Proof.
  unfold htmlRow. rewrite <- !app_assoc.
  rewrite (static_parsed (lit "    <tr>")), (static_parsed [nl]) by reflexivity.
  change (fold_left (DOMParser.charStep textAlign) [nl]
            (fold_left (DOMParser.charStep textAlign) (lit "    <tr>") (inSection k rs done)))
    with (inRow [] k rs done).
  rewrite (htmlCells_parsed header al (cells row) 0).
  rewrite (static_parsed (lit "    </tr>")), (static_parsed [nl]) by reflexivity.
  reflexivity.
Qed.

Lemma htmlRows_parsed (header : bool) al (rows0 : list Row) (r : jsstring) k rs done :
  fold_left (DOMParser.charStep textAlign)
    (DOMParser.normalizeNewlinesFrom false
       (concat (map (htmlRow (if header then lit "th" else lit "td") header al) rows0) ++ r))
    (inSection k rs done)
  = fold_left (DOMParser.charStep textAlign) (DOMParser.normalizeNewlinesFrom false r)
      (inSection k (rs ++ map (rowElOf textAlign header al) rows0) done).
Proof.
  revert rs. induction rows0 as [|row rows0 IH]; intros rs.
  - simpl. now rewrite app_nil_r.
  - change (concat (map ?f (row :: rows0))) with (f row ++ concat (map f rows0)).
    rewrite <- app_assoc, htmlRow_parsed, IH, <- app_assoc. reflexivity.
Qed.

(** The markup that [tableModelToHtml] writes for a table parses to the
    element of the table. *)
Lemma tableModelToHtml_parsed (t : Table) :
  DOMParser.parseTable textAlign (tableModelToHtml t) = Some (tableElOf textAlign t).
Proof.
  unfold DOMParser.parseTable, DOMParser.normalizeNewlines, tableModelToHtml, tableElOf.
  set (headerRows := List.filter isHeader (rows t)).
  set (dataRows := List.filter (fun r => negb (isHeader r)) (rows t)).
  rewrite (static_parsed (lit "<table style=")), (static_parsed [dquote]),
    (static_parsed (lit "border-collapse: collapse; border: 1px solid black;")),
    (static_parsed [dquote]), (static_parsed (lit ">")), (static_parsed [nl]) by reflexivity.
  change (fold_left (DOMParser.charStep textAlign) [nl]
            (fold_left (DOMParser.charStep textAlign) (lit ">")
               (fold_left (DOMParser.charStep textAlign) [dquote]
                  (fold_left (DOMParser.charStep textAlign)
                     (lit "border-collapse: collapse; border: 1px solid black;")
                     (fold_left (DOMParser.charStep textAlign) [dquote]
                        (fold_left (DOMParser.charStep textAlign) (lit "<table style=")
                           DOMParser.initial))))))
    with (inTable []).
  assert (Hhead : forall r,
            fold_left (DOMParser.charStep textAlign)
              (DOMParser.normalizeNewlinesFrom false
                 ((if is_nil headerRows then []
                   else lit "  <thead>" ++ [nl]
                        ++ concat (map (htmlRow (lit "th") true (alignments t)) headerRows)
                        ++ lit "  </thead>" ++ [nl]) ++ r))
              (inTable [])
            = fold_left (DOMParser.charStep textAlign) (DOMParser.normalizeNewlinesFrom false r)
                (inTable (if is_nil headerRows then []
                          else [mkSectionEl THead
                                  (map (rowElOf textAlign true (alignments t)) headerRows)]))).
  { intros r. destruct (is_nil headerRows); [reflexivity|].
    rewrite <- !app_assoc.
    rewrite (static_parsed (lit "  <thead>")), (static_parsed [nl]) by reflexivity.
    change (fold_left (DOMParser.charStep textAlign) [nl]
              (fold_left (DOMParser.charStep textAlign) (lit "  <thead>") (inTable [])))
      with (inSection THead [] []).
    rewrite (htmlRows_parsed true).
    rewrite (static_parsed (lit "  </thead>")), (static_parsed [nl]) by reflexivity.
    reflexivity. }
  rewrite Hhead. generalize (if is_nil headerRows then []
                             else [mkSectionEl THead
                                     (map (rowElOf textAlign true (alignments t)) headerRows)]).
  intros done.
  assert (Hbody : forall r,
            fold_left (DOMParser.charStep textAlign)
              (DOMParser.normalizeNewlinesFrom false
                 ((if is_nil dataRows then []
                   else lit "  <tbody>" ++ [nl]
                        ++ concat (map (htmlRow (lit "td") false (alignments t)) dataRows)
                        ++ lit "  </tbody>" ++ [nl]) ++ r))
              (inTable done)
            = fold_left (DOMParser.charStep textAlign) (DOMParser.normalizeNewlinesFrom false r)
                (inTable (done ++ (if is_nil dataRows then []
                          else [mkSectionEl TBody
                                  (map (rowElOf textAlign false (alignments t)) dataRows)])))).
  { intros r. destruct (is_nil dataRows); [simpl; now rewrite app_nil_r|].
    rewrite <- !app_assoc.
    rewrite (static_parsed (lit "  <tbody>")), (static_parsed [nl]) by reflexivity.
    change (fold_left (DOMParser.charStep textAlign) [nl]
              (fold_left (DOMParser.charStep textAlign) (lit "  <tbody>") (inTable done)))
      with (inSection TBody [] done).
    rewrite (htmlRows_parsed false).
    rewrite (static_parsed (lit "  </tbody>")), (static_parsed [nl]) by reflexivity.
    reflexivity. }
  rewrite Hbody. reflexivity.
Qed.

End Parsed.

(** ** The HTML parser on the element of a table *)

Lemma is_nil_true {A} (l : list A) : is_nil l = true -> l = [].
Proof. now destruct l. Qed.

Lemma trElements_tableElOf textAlign (t : Table) :
  trElements (tableElOf textAlign t)
  = map (fun r => (true, rowElOf textAlign true (alignments t) r))
        (List.filter isHeader (rows t))
      ++ map (fun r => (false, rowElOf textAlign false (alignments t) r))
             (List.filter (fun r => negb (isHeader r)) (rows t)).
Proof.
  unfold trElements, tableElOf. simpl sections.
  destruct (is_nil (List.filter isHeader (rows t))) eqn:Hh;
    destruct (is_nil (List.filter (fun r => negb (isHeader r)) (rows t))) eqn:Hd;
    try rewrite (is_nil_true _ Hh); try rewrite (is_nil_true _ Hd);
    simpl; rewrite ?app_nil_r, ?map_map; reflexivity.
Qed.

Lemma consumeCell_plain capture el st :
  plainCellEl el ->
  outCells (consumeCell capture el st) = outCells st ++ [cellOfEl el]
  /\ rowspanTracker (consumeCell capture el st) = rowspanTracker st.
Proof.
  intros (Hcol & Hrow). unfold consumeCell. rewrite Hcol, Hrow. now split.
Qed.

Lemma walkRow_plain capture (els : list CellEl) (st : RowState) :
  rowspanTracker st = [] ->
  Forall plainCellEl els ->
  outCells (walkRow capture els st) = outCells st ++ map cellOfEl els
  /\ rowspanTracker (walkRow capture els st) = [].
Proof.
  intros Htr Hall. revert st Htr.
  induction Hall as [|el els Hel _ IH]; intros st Htr.
  - simpl. rewrite drainAll_unowed by now rewrite Htr.
    rewrite app_nil_r. now split.
  - simpl walkRow. rewrite drainAll_unowed by now rewrite Htr.
    destruct (consumeCell_plain capture el st Hel) as (Hout & Htr').
    destruct (IH (consumeCell capture el st)) as (Hout' & Htr''); [congruence|].
    rewrite Hout', Hout, <- app_assoc. now split.
Qed.

Lemma processRows_plain tfh (trs : list (bool * list CellEl)) (rowIdx : nat) (ts : TableState) :
  trackerAcc ts = [] ->
  Forall (fun tr => Forall plainCellEl (snd tr)) trs ->
  map cells (rowsOut (processRows tfh rowIdx trs ts))
  = map cells (rowsOut ts) ++ map (fun tr => map cellOfEl (snd tr)) trs.
Proof.
  intros Htr Hall. revert rowIdx ts Htr.
  induction Hall as [|tr trs Hplain _ IH]; intros rowIdx ts Htr.
  - simpl. now rewrite app_nil_r.
  - simpl processRows.
    assert (Hrow : map cells (rowsOut (processRow tfh rowIdx tr ts))
                   = map cells (rowsOut ts) ++ [map cellOfEl (snd tr)]
                   /\ trackerAcc (processRow tfh rowIdx tr ts) = []).
    { unfold processRow. simpl rowsOut. simpl trackerAcc.
      rewrite runRow_walkRow by reflexivity.
      match goal with
      | |- context [walkRow ?c (snd tr) ?s] =>
          destruct (walkRow_plain c (snd tr) s Htr Hplain) as (Hout & Htr')
      end.
      rewrite Htr', map_app, Hout. now split. }
    destruct Hrow as (Hrows & Htr').
    rewrite (IH _ _ Htr'), Hrows, <- app_assoc. reflexivity.
Qed.

Lemma padRow_full (n : Z) (r : Row) : n <= colspanSum (cells r) -> padRow n r = r.
Proof. intros H. unfold padRow. rewrite padCells_full by exact H. now destruct r. Qed.

(** A table whose rows all count [n] columns is left as it is, but for
    its alignments. *)
Lemma normalizeTable_rect (T : Table) (n : Z) :
  rows T <> [] -> 0 <= n ->
  (forall r, In r (rows T) -> colspanSum (cells r) = n) ->
  getColumnCount T = n /\ rows (normalizeTable T) = rows T.
Proof.
  intros Hne Hn Hall.
  assert (Hcount : getColumnCount T = n).
  { apply maxFrom_const; [|exact Hn|exact Hne]. now apply List.Forall_forall. }
  split; [exact Hcount|].
  unfold normalizeTable. simpl. rewrite Hcount.
  rewrite <- (map_id (rows T)) at 2. apply map_ext_in.
  intros r Hr. apply padRow_full. rewrite (Hall r Hr). lia.
Qed.

Lemma map_imap {A B C} (f : B -> C) (g : nat -> A -> B) (l : list A) :
  map f (imap g l) = imap (fun i x => f (g i x)) l.
Proof.
  revert g. induction l as [|x l IH]; intros g; [reflexivity|].
  rewrite !imap_cons. simpl. f_equal. apply IH.
Qed.

Lemma imap_const_index {A B} (f : A -> B) (l : list A) :
  imap (fun _ x => f x) l = map f l.
Proof.
  induction l as [|x l IH]; [reflexivity|]. rewrite imap_cons. simpl. f_equal. exact IH.
Qed.

(** White space is normalized alike with and without the line breaks
    normalized first. *)
Lemma collapseRuns_normalizeNewlines (afterCR inRun : bool) (s : jsstring) :
  (afterCR = true -> inRun = true) ->
  Js.collapseRuns inRun (withoutNul (DOMParser.normalizeNewlinesFrom afterCR s))
  = Js.collapseRuns inRun (withoutNul s).
Proof.
  revert afterCR inRun. induction s as [|c s IH]; intros afterCR inRun Hrun; [reflexivity|].
  destruct (Ascii.eqb_spec c DOMParser.cr) as [->|Hcr].
  { change (DOMParser.normalizeNewlinesFrom afterCR (DOMParser.cr :: s))
      with (nl :: DOMParser.normalizeNewlinesFrom true s).
    change (withoutNul (nl :: ?x)) with (nl :: withoutNul x).
    change (withoutNul (DOMParser.cr :: ?x)) with (DOMParser.cr :: withoutNul x).
    change (Js.collapseRuns inRun (nl :: ?x))
      with (if inRun then Js.collapseRuns true x else " "%char :: Js.collapseRuns true x).
    change (Js.collapseRuns inRun (DOMParser.cr :: ?x))
      with (if inRun then Js.collapseRuns true x else " "%char :: Js.collapseRuns true x).
    now rewrite IH. }
  destruct (Ascii.eqb_spec c nl) as [->|Hnl].
  { change (withoutNul (nl :: ?x)) with (nl :: withoutNul x).
    destruct afterCR.
    - rewrite (Hrun eq_refl).
      change (DOMParser.normalizeNewlinesFrom true (nl :: s))
        with (DOMParser.normalizeNewlinesFrom false s).
      change (Js.collapseRuns true (nl :: ?x)) with (Js.collapseRuns true x).
      now apply IH.
    - change (DOMParser.normalizeNewlinesFrom false (nl :: s))
        with (nl :: DOMParser.normalizeNewlinesFrom false s).
      change (withoutNul (nl :: ?x)) with (nl :: withoutNul x).
      change (Js.collapseRuns inRun (nl :: ?x))
        with (if inRun then Js.collapseRuns true x else " "%char :: Js.collapseRuns true x).
      now rewrite IH. }
  apply Ascii.eqb_neq in Hcr, Hnl.
  assert (Hc : DOMParser.normalizeNewlinesFrom afterCR (c :: s)
               = c :: DOMParser.normalizeNewlinesFrom false s).
  { simpl. now rewrite Hcr, Hnl. }
  rewrite Hc. unfold withoutNul. cbn [List.filter].
  destruct (negb (Ascii.eqb c DOMParser.nul)).
  - cbn [Js.collapseRuns]. fold (withoutNul (DOMParser.normalizeNewlinesFrom false s)).
    fold (withoutNul s).
    destruct (Js.isSpace c); [destruct inRun|]; now rewrite IH.
  - now apply IH.
Qed.

Lemma normalizeContent_parsedText (s : jsstring) :
  normalizeContent (parsedText s) = normalizeContent (withoutNul s).
Proof.
  unfold normalizeContent, parsedText, Js.collapseWhitespace, DOMParser.normalizeNewlines.
  now rewrite collapseRuns_normalizeNewlines.
Qed.

Lemma rowElOf_cells textAlign header al (r : Row) :
  map cellOfEl (rowElOf textAlign header al r)
  = map (fun c => createCell1 (normalizeContent (withoutNul (content c)))) (cells r).
Proof.
  unfold rowElOf. rewrite map_imap.
  rewrite (imap_ext _ (fun _ c => createCell1 (normalizeContent (withoutNul (content c)))))
    by (intros; unfold cellOfEl; cbn [textContent cellElOf];
        now rewrite normalizeContent_parsedText).
  apply imap_const_index.
Qed.

Lemma Forall_imap {A B} (P : B -> Prop) (g : nat -> A -> B) (l : list A) :
  (forall i x, P (g i x)) -> Forall P (imap g l).
Proof.
  revert g. induction l as [|x l IH]; intros g Hg; [constructor|].
  rewrite imap_cons. constructor; [apply Hg|]. apply IH. intros i y. apply Hg.
Qed.

Lemma rowElOf_plain textAlign header al (r : Row) :
  Forall plainCellEl (rowElOf textAlign header al r).
Proof. apply Forall_imap. intros i c. now split. Qed.

Lemma filter_all {A} (p : A -> bool) (l : list A) :
  (forall x, In x l -> p x = true) -> List.filter p l = l.
Proof.
  induction l as [|x l IH]; intros H; [reflexivity|]. simpl.
  rewrite (H x (or_introl eq_refl)), IH; [reflexivity|].
  intros y Hy. apply H. now right.
Qed.

Lemma filter_none {A} (p : A -> bool) (l : list A) :
  (forall x, In x l -> p x = false) -> List.filter p l = [].
Proof.
  induction l as [|x l IH]; intros H; [reflexivity|]. simpl.
  rewrite (H x (or_introl eq_refl)). apply IH.
  intros y Hy. apply H. now right.
Qed.

(** The element of a well-formed table whose header rows come first is
    read by [htmlTableToModel] as a table of the same shape, whose
    contents are those of the table without the character U+0000 and with
    their white space normalized. *)
Lemma htmlTableToModel_tableElOf textAlign (t : Table) :
  WellFormed t -> headersFirst t ->
  exists t',
    htmlTableToModel (tableElOf textAlign t) = Some t'
    /\ map cells (rows t')
       = map (fun r => map (fun c => createCell1 (normalizeContent (withoutNul (content c))))
                           (cells r))
             (rows t)
    /\ getColumnCount t' = getColumnCount t.
Proof.
  intros (Hne & Hrows & _) Hfirst. unfold headersFirst in Hfirst.
  unfold htmlTableToModel. rewrite trElements_tableElOf.
  set (trs := map (fun r => (true, rowElOf textAlign true (alignments t) r))
                  (List.filter isHeader (rows t))
              ++ map (fun r => (false, rowElOf textAlign false (alignments t) r))
                     (List.filter (fun r => negb (isHeader r)) (rows t))).
  assert (Hcells : map (fun tr => map cellOfEl (snd tr)) trs
                   = map (fun r => map (fun c => createCell1
                                                   (normalizeContent (withoutNul (content c))))
                                       (cells r)) (rows t)).
  { rewrite <- Hfirst at 1. unfold trs. rewrite !map_app, !map_map. simpl snd.
    f_equal; apply map_ext; intros r; apply rowElOf_cells. }
  assert (Hplain : Forall (fun tr => Forall plainCellEl (snd tr)) trs).
  { unfold trs. apply Forall_app. split; apply List.Forall_forall; intros tr Htr;
      apply in_map_iff in Htr as (r & <- & _); apply rowElOf_plain. }
  assert (Htrs : is_nil trs = false).
  { destruct trs eqn:Htrs; [|reflexivity].
    apply (f_equal (@length _)) in Hcells. rewrite !length_map in Hcells.
    destruct (rows t); [congruence|discriminate]. }
  rewrite Htrs.
  set (ts := processRows (negb (existsb fst trs)) 0 trs initialTableState).
  pose proof (processRows_plain (negb (existsb fst trs)) trs 0 initialTableState eq_refl Hplain)
    as Hout.
  fold ts in Hout. simpl in Hout. rewrite Hcells in Hout.
  destruct (normalizeTable_rect (createTable (rowsOut ts) (alignmentsAcc ts)) (getColumnCount t))
    as (Hcount & Hsame).
  - simpl. intros Heq. rewrite Heq in Hout. simpl in Hout.
    destruct (rows t); [congruence|discriminate].
  - apply getColumnCount_nonneg.
  - simpl. intros r' Hr'.
    apply (in_map cells) in Hr'. rewrite Hout in Hr'.
    apply in_map_iff in Hr' as (r & Heq & Hr). rewrite <- Heq.
    destruct (Hrows r Hr) as (Hlen & _). rewrite <- Hlen.
    rewrite colspanSum_unit by (apply List.Forall_forall; intros c Hc;
                                apply in_map_iff in Hc as (c0 & <- & _); reflexivity).
    now rewrite length_map.
  - eexists. split; [reflexivity|]. split.
    + rewrite Hsame. exact Hout.
    + rewrite getColumnCount_normalizeTable. exact Hcount.
Qed.

(** ** Markdown to HTML and back to the model *)

Lemma parseMarkdownTable_rows (markdown : jsstring) (t : Table) :
  parseMarkdownTable markdown = Some t ->
  exists headerLines dataLines al,
    t = normalizeTable (createTable (map (rowOfLine true) headerLines
                                       ++ map (rowOfLine false) dataLines) al)
    /\ (headerLines <> [] \/ dataLines <> []).
Proof.
  unfold parseMarkdownTable.
  destruct (Nat.ltb_spec (length (markdownLines markdown)) 2) as [Hlt|Hge]; [discriminate|].
  destruct (findSeparator 0 (markdownLines markdown)) as [k|] eqn:Hfind; [|discriminate].
  intros [= <-]. apply findSeparator_Some in Hfind as (Hk & _).
  eexists _, _, _. split; [reflexivity|].
  destruct (take k (markdownLines markdown)) as [|l ls] eqn:Htake; [right|left; discriminate].
  apply (f_equal (@length _)) in Htake. rewrite length_take in Htake. simpl in Htake.
  intros Hdrop. apply (f_equal (@length _)) in Hdrop. rewrite length_drop in Hdrop.
  simpl in Hdrop. lia.
Qed.

Lemma parseMarkdownTable_WellFormed (markdown : jsstring) (t : Table) :
  parseMarkdownTable markdown = Some t -> WellFormed t /\ headersFirst t.
Proof.
  intros Hparse.
  destruct (parseMarkdownTable_rows _ _ Hparse) as (hl & dl & al & -> & Hne).
  split.
  - apply normalizeTable_WellFormed.
    + simpl. intros Heq. apply app_eq_nil in Heq as (Hh & Hd).
      destruct Hne as [Hne|Hne]; [destruct hl|destruct dl]; congruence || discriminate.
    + simpl. intros r c Hr Hc.
      apply in_app_iff in Hr as [Hr|Hr]; apply in_map_iff in Hr as (l & <- & _);
        eapply rowOfLine_cells; exact Hc.
  - unfold headersFirst, normalizeTable. simpl rows.
    rewrite map_app, !List.filter_app.
    rewrite (filter_all isHeader (map _ (map (rowOfLine true) hl))),
            (filter_none isHeader (map _ (map (rowOfLine false) dl))),
            (filter_none _ (map _ (map (rowOfLine true) hl))),
            (filter_all _ (map _ (map (rowOfLine false) dl)));
      try (intros r Hr; apply in_map_iff in Hr as (r0 & <- & Hr);
           apply in_map_iff in Hr as (l & <- & _); reflexivity).
    now rewrite app_nil_r.
Qed.

(** C1, as the code has it.  For every well-formed Markdown table text,
    parsing it with [parseMarkdownTable], generating the markup with
    [tableModelToHtml], parsing the markup into a table element and reading
    that element with [htmlTableToModel] yields a model with the same number
    of rows and columns, whose cell contents are those of the original
    model without the character U+0000, with every run of white space
    replaced by one space and without white space at the ends; the contents
    are equal to the original ones when that leaves them as they are.
    This holds whatever the platform reads from the [style] attributes. *)
Theorem markdown_html_round_trip (textAlign : jsstring -> jsstring)
    (markdown : jsstring) (t : Table) :
  parseMarkdownTable markdown = Some t ->
  exists tableEl t',
    DOMParser.parseTable textAlign (tableModelToHtml t) = Some tableEl
    /\ htmlTableToModel tableEl = Some t'
    /\ length (rows t') = length (rows t)
    /\ getColumnCount t' = getColumnCount t
    /\ map (fun r => map content (cells r)) (rows t')
       = map (fun r => map (fun c => normalizeContent (withoutNul (content c))) (cells r))
             (rows t)
    /\ ((forall r c, In r (rows t) -> In c (cells r) ->
                     normalizeContent (withoutNul (content c)) = content c) ->
        map (fun r => map content (cells r)) (rows t')
        = map (fun r => map content (cells r)) (rows t)).
Proof.
  intros Hparse.
  destruct (parseMarkdownTable_WellFormed _ _ Hparse) as (Hwf & Hfirst).
  destruct (htmlTableToModel_tableElOf textAlign t Hwf Hfirst)
    as (t' & Hmodel & Hcells & Hcount).
  exists (tableElOf textAlign t), t'.
  assert (Hcontents : map (fun r => map content (cells r)) (rows t')
                      = map (fun r => map (fun c => normalizeContent (withoutNul (content c)))
                                          (cells r))
                            (rows t)).
  { rewrite <- (map_map cells (map content)), Hcells, map_map.
    apply map_ext. intros r. now rewrite map_map. }
  split; [apply tableModelToHtml_parsed|]. split; [exact Hmodel|].
  split; [|split; [exact Hcount|split; [exact Hcontents|]]].
  - apply (f_equal (@length _)) in Hcells. now rewrite !length_map in Hcells.
  - intros Hnormal. rewrite Hcontents.
    apply map_ext_in. intros r Hr. apply map_ext_in. intros c Hc. now apply (Hnormal r c).
Qed.

Lemma markdown_html_round_trip_witness :
  exists tableEl t',
    DOMParser.parseTable (fun _ => lit "left")
      (tableModelToHtml
         (createTable [createRow [createCell1 (lit "x&y"); createCell1 (lit "a<b")] true;
                       createRow [createCell1 (lit "1"); createCell1 []] false]
                      [lit "left"; lit "right"])) = Some tableEl
    /\ htmlTableToModel tableEl = Some t'
    /\ map (fun r => map content (cells r)) (rows t')
       = [[lit "x&y"; lit "a<b"]; [lit "1"; []]].
Proof.
  destruct (markdown_html_round_trip (fun _ => lit "left")
              (lit "| x&y | a<b |" ++ [nl] ++ lit "|---|--:|" ++ [nl] ++ lit "| 1 |")
              (createTable [createRow [createCell1 (lit "x&y"); createCell1 (lit "a<b")] true;
                            createRow [createCell1 (lit "1"); createCell1 []] false]
                           [lit "left"; lit "right"]) eq_refl)
    as (tableEl & t' & Hdom & Hmodel & _ & _ & Hcontents & _).
  exists tableEl, t'. split; [exact Hdom|]. split; [exact Hmodel|exact Hcontents].
Defined.

(** C1, as stated, fails on a cell with two spaces in a row: the content
    [a  b] of the Markdown table comes back as [a b], whatever the platform
    reads from the [style] attributes. *)
Lemma markdown_html_round_trip_counterexample :
  exists t,
    parseMarkdownTable (lit "| a  b |" ++ [nl] ++ lit "|---|") = Some t
    /\ map (fun r => map content (cells r)) (rows t) = [[lit "a  b"]]
    /\ forall textAlign, exists tableEl t',
         DOMParser.parseTable textAlign (tableModelToHtml t) = Some tableEl
         /\ htmlTableToModel tableEl = Some t'
         /\ map (fun r => map content (cells r)) (rows t') = [[lit "a b"]].
Proof.
  eexists. split; [reflexivity|]. split; [reflexivity|].
  intros textAlign. eexists _, _. split; [vm_compute; reflexivity|].
  split; [vm_compute; reflexivity|reflexivity].
Qed.

(** The character U+0000 of a content does not come back, and a carriage
    return comes back as a space: the content [a<U+0000>b<CR>c] of the
    Markdown table comes back as [ab c]. *)
Example markdown_html_round_trip_controls :
  exists t,
    parseMarkdownTable (lit "| a" ++ DOMParser.nul :: lit "b" ++ DOMParser.cr :: lit "c |"
                          ++ [nl] ++ lit "|---|") = Some t
    /\ map (fun r => map content (cells r)) (rows t)
       = [[lit "a" ++ DOMParser.nul :: lit "b" ++ DOMParser.cr :: lit "c"]]
    /\ forall textAlign, exists tableEl t',
         DOMParser.parseTable textAlign (tableModelToHtml t) = Some tableEl
         /\ map (fun r => map textContent r) (flat_map sectionRows (sections tableEl))
            = [[lit "ab" ++ nl :: lit "c"]]
         /\ htmlTableToModel tableEl = Some t'
         /\ map (fun r => map content (cells r)) (rows t') = [[lit "ab c"]].
Proof.
  eexists. split; [reflexivity|]. split; [reflexivity|].
  intros textAlign. eexists _, _. split; [vm_compute; reflexivity|].
  split; [reflexivity|]. split; [vm_compute; reflexivity|reflexivity].
Qed.

(** * Further properties of the code *)

(** ** [tableModel.js] *)

(** X1.  [normalizeTable] leaves a table as it is exactly when the
    colspans of every row already sum up to the column count and there is
    one alignment for each column; and it never changes the column count. *)
Theorem normalizeTable_fixed_point (t : Table) :
  (normalizeTable t = t
   <-> (forall r, In r (rows t) -> colspanSum (cells r) = getColumnCount t)
       /\ Z.of_nat (length (alignments t)) = getColumnCount t)
  /\ getColumnCount (normalizeTable t) = getColumnCount t.
Proof.
  split; [|apply getColumnCount_normalizeTable]. split.
  - intros Heq. split.
    + intros r Hr. rewrite <- Heq in Hr. now apply normalizeTable_rows_sum.
    + rewrite <- Heq at 1. apply normalizeTable_alignments_length.
  - intros (Hrows & Hlen). destruct t as [al rs]. unfold normalizeTable.
    simpl in *. f_equal.
    + unfold padAlignments. rewrite Hlen, Z.sub_diag. simpl.
      rewrite app_nil_r. apply take_ge. lia.
    + transitivity (map (fun r : Row => r) rs); [|apply map_id].
      apply map_ext_in. intros r Hr.
      apply padRow_full. rewrite (Hrows r Hr). lia.
Qed.

(** X2.  What a call of [normalizeTable] does to the store: the table
    object gets a new array of alignments, one that was not in the store,
    holding the normalized alignments; the array it had before is padded
    with ['left'] where it lives and is not truncated; the arrays of cells
    of other rows, the other arrays of strings and the other table objects
    are as before. *)
Theorem normalizeTable_store_effects
    (s : Heap.store) (t : Heap.loc) (T : Table) (tbl : Heap.TableObj) :
  Heap.readTable s t = Some T ->
  Heap.tables s !! t = Some tbl ->
  exists s' sliced,
    Heap.normalizeTable t s = Some (t, s')
    /\ Heap.stringArrays s !! sliced = None
    /\ Heap.tables s' !! t = Some (Heap.mkTableObj sliced (Heap.tableRows tbl))
    /\ Heap.stringArrays s' !! sliced = Some (alignments (normalizeTable T))
    /\ Heap.stringArrays s' !! Heap.tableAlignments tbl
       = Some (padAlignments (getColumnCount T) (alignments T))
    /\ (forall l, l <> sliced -> l <> Heap.tableAlignments tbl ->
          Heap.stringArrays s' !! l = Heap.stringArrays s !! l)
    /\ (forall l, ~ In l (map Heap.rowCells (Heap.tableRows tbl)) ->
          Heap.cellArrays s' !! l = Heap.cellArrays s !! l)
    /\ (forall t', t' <> t -> Heap.tables s' !! t' = Heap.tables s !! t').
Proof.
  intros Hread Htbl. unfold Heap.normalizeTable, Heap.getColumnCount.
  rewrite Hread, Htbl. simpl.
  unfold Heap.readTable in Hread. rewrite Htbl in Hread.
  destruct (Heap.stringArrays s !! Heap.tableAlignments tbl) as [a|] eqn:Ha; [|discriminate].
  destruct (Heap.readRows s (Heap.tableRows tbl)) as [rows0|] eqn:Hrows; [|discriminate].
  inversion Hread; subst T; clear Hread.
  set (n := getColumnCount _).
  destruct (padRows_spec n (Heap.tableRows tbl) s (readRows_defined _ _ _ Hrows))
    as (s1 & Hrun & Hstr & Htab & _ & Hout).
  rewrite Hrun, Hstr, Ha.
  set (s2 := Heap.setStrings (Heap.tableAlignments tbl) (padAlignments n a) s1).
  assert (Hfresh : Heap.stringArrays s2 !! Heap.freshStrings s2 = None).
  { unfold Heap.freshStrings. apply (not_elem_of_dom (D:=gset positive)).
    apply is_fresh. }
  assert (Hne : Heap.freshStrings s2 <> Heap.tableAlignments tbl).
  { intros Heq. rewrite Heq in Hfresh.
    change (Heap.stringArrays s2)
      with (<[Heap.tableAlignments tbl := padAlignments n a]> (Heap.stringArrays s1)) in Hfresh.
    rewrite lookup_insert_eq in Hfresh. discriminate. }
  exists (Heap.setTable t (Heap.mkTableObj (Heap.freshStrings s2) (Heap.tableRows tbl))
            (Heap.setStrings (Heap.freshStrings s2) (take (Z.to_nat n) (padAlignments n a)) s2)),
         (Heap.freshStrings s2).
  split; [reflexivity|]. split; [|split; [|split; [|split; [|split; [|split]]]]].
  - change (Heap.stringArrays s2)
      with (<[Heap.tableAlignments tbl := padAlignments n a]> (Heap.stringArrays s1)) in Hfresh.
    rewrite lookup_insert_ne in Hfresh by (intros Heq; now apply Hne).
    now rewrite Hstr in Hfresh.
  - simpl. apply lookup_insert_eq.
  - simpl. apply lookup_insert_eq.
  - simpl. rewrite lookup_insert_ne by exact Hne. apply lookup_insert_eq.
  - intros l Hl1 Hl2. simpl.
    rewrite lookup_insert_ne by (intros Heq; now apply Hl1).
    rewrite lookup_insert_ne by (intros Heq; now apply Hl2). now rewrite Hstr.
  - intros l Hl. simpl. now apply Hout.
  - intros t' Hne'. simpl. rewrite lookup_insert_ne by congruence. now rewrite Htab.
Qed.

Lemma normalizeTable_store_effects_witness :
  exists s' sliced,
    Heap.normalizeTable 1 sharedCellsStore = Some (1%positive, s')
    /\ Heap.stringArrays sharedCellsStore !! sliced = None
    /\ Heap.stringArrays s' !! sliced = Some [lit "center"]
    /\ Heap.stringArrays s' !! 1%positive = Some [lit "center"; lit "right"].
Proof.
  destruct (normalizeTable_store_effects sharedCellsStore 1
              (createTable [createRow [createCell1 (lit "a")] true;
                            createRow [createCell1 (lit "a")] false]
                           [lit "center"; lit "right"])
              (Heap.mkTableObj 1 [Heap.mkRowObj true 1; Heap.mkRowObj false 1])
              eq_refl eq_refl)
    as (s' & sliced & Hrun & Hnew & _ & Hsliced & Hold & _).
  exists s', sliced. split; [exact Hrun|]. split; [exact Hnew|]. split; [exact Hsliced|exact Hold].
Defined.

(** ** [markdownToHtml.js]: the lines of the input *)

Lemma split_nonempty (sep : ascii) (s : jsstring) : Js.split sep s <> [].
Proof.
  destruct s as [|c s]; simpl; [discriminate|].
  destruct (Ascii.eqb c sep); [discriminate|apply consHead_nonempty].
Qed.

Lemma consHead_app (c : ascii) (ps qs : list jsstring) :
  ps <> [] -> Js.consHead c (ps ++ qs) = Js.consHead c ps ++ qs.
Proof. now destruct ps. Qed.

Lemma split_app (sep : ascii) (a b : jsstring) :
  Js.split sep (a ++ sep :: b) = Js.split sep a ++ Js.split sep b.
Proof.
  induction a as [|c a IH]; simpl.
  - now rewrite Ascii.eqb_refl.
  - rewrite IH. destruct (Ascii.eqb c sep); [reflexivity|].
    apply consHead_app, split_nonempty.
Qed.

Lemma markdownLines_app (a b : jsstring) :
  markdownLines (a ++ nl :: b) = markdownLines a ++ markdownLines b.
Proof. unfold markdownLines. now rewrite split_app, map_app, List.filter_app. Qed.

Lemma trim_spaces (ws : jsstring) : forallb Js.isSpace ws = true -> Js.trim ws = [].
Proof. intros H. unfold Js.trim. now rewrite trimStart_spaces. Qed.

Lemma split_spaces (sep : ascii) (ws : jsstring) :
  forallb Js.isSpace ws = true ->
  Forall (fun p => forallb Js.isSpace p = true) (Js.split sep ws).
Proof.
  induction ws as [|c ws IH]; simpl; intros H.
  - now repeat constructor.
  - destruct (andb_prop _ _ H) as [Hc Hws]. specialize (IH Hws).
    destruct (Ascii.eqb c sep); [now constructor|].
    destruct (Js.split sep ws) as [|p ps]; simpl.
    + repeat constructor. simpl. now rewrite Hc.
    + inversion IH; subst. constructor; [|assumption]. simpl. now rewrite Hc.
Qed.

Lemma markdownLines_spaces (ws : jsstring) :
  forallb Js.isSpace ws = true -> markdownLines ws = [].
Proof.
  intros H. unfold markdownLines.
  induction (split_spaces nl ws H) as [|p ps Hp _ IH]; [reflexivity|].
  simpl. now rewrite (trim_spaces p Hp).
Qed.

Lemma parseMarkdownTable_lines (m1 m2 : jsstring) :
  markdownLines m1 = markdownLines m2 -> parseMarkdownTable m1 = parseMarkdownTable m2.
Proof. intros H. unfold parseMarkdownTable. now rewrite H. Qed.

Lemma trimStart_idem (s : jsstring) : Js.trimStart (Js.trimStart s) = Js.trimStart s.
Proof.
  induction s as [|c s IH]; [reflexivity|]. rewrite (trimStart_cons c s).
  destruct (Js.isSpace c) eqn:Hc; [exact IH|]. now rewrite trimStart_cons, Hc.
Qed.

Lemma trimStart_app_head (s r : jsstring) :
  Js.trimStart s <> [] -> Js.trimStart (s ++ r) = Js.trimStart s ++ r.
Proof.
  induction s as [|c s IH]; [intros H; now elim H|].
  change ((c :: s) ++ r) with (c :: s ++ r). rewrite !trimStart_cons.
  destruct (Js.isSpace c); [exact IH|reflexivity].
Qed.

(** White space around a line does not count. *)
Lemma trim_surrounded (ws1 ws2 s : jsstring) :
  forallb Js.isSpace ws1 = true -> forallb Js.isSpace ws2 = true ->
  Js.trim (ws1 ++ s ++ ws2) = Js.trim s.
Proof.
  intros H1 H2. rewrite app_assoc, trim_app_spaces by exact H2.
  unfold Js.trim. f_equal.
  induction ws1 as [|c ws1 IH]; [reflexivity|].
  simpl in H1. destruct (andb_prop _ _ H1) as [Hc Hws].
  change ((c :: ws1) ++ s) with (c :: ws1 ++ s). rewrite trimStart_cons, Hc. now apply IH.
Qed.

(** X3.  Blank lines do not count: the lines that [parseMarkdownTable]
    works on are those of the part before a line break followed by those
    of the part after it, and a part of white space alone has no line; so
    a Markdown text parses as the same text with blank lines put in, in
    front of it, inside or behind it. *)
Theorem parseMarkdownTable_blank_lines (a b ws : jsstring) :
  forallb Js.isSpace ws = true ->
  markdownLines (a ++ nl :: b) = markdownLines a ++ markdownLines b
  /\ markdownLines ws = []
  /\ parseMarkdownTable (a ++ nl :: ws ++ nl :: b) = parseMarkdownTable (a ++ nl :: b)
  /\ parseMarkdownTable (ws ++ nl :: a) = parseMarkdownTable a
  /\ parseMarkdownTable (a ++ nl :: ws) = parseMarkdownTable a.
Proof.
  intros Hws. pose proof (markdownLines_spaces ws Hws) as Hnone.
  split; [apply markdownLines_app|]. split; [exact Hnone|].
  split; [|split]; apply parseMarkdownTable_lines;
    rewrite !markdownLines_app, ?Hnone, ?app_nil_r; reflexivity.
Qed.

Lemma parseMarkdownTable_blank_lines_witness :
  parseMarkdownTable (lit "| A |" ++ nl :: lit "   " ++ nl :: lit "|---|")
  = parseMarkdownTable (lit "| A |" ++ nl :: lit "|---|").
Proof.
  apply (proj1 (proj2 (proj2 (parseMarkdownTable_blank_lines
                                (lit "| A |") (lit "|---|") (lit "   ") eq_refl)))).
Defined.

(** ** [markdownToHtml.js]: header rows and data rows *)

Lemma findSeparator_first (lines : list jsstring) (i k : nat) :
  findSeparator i lines = Some k ->
  forall j, (i <= j < k)%nat -> SEPARATOR_RE_test (nth (j - i) lines []) = false.
Proof.
  revert i. induction lines as [|l ls IH]; intros i; simpl; [discriminate|].
  destruct (SEPARATOR_RE_test l) eqn:Hl.
  - intros [= <-] j Hj. lia.
  - intros H j Hj. destruct (Nat.eq_dec j i) as [->|Hne].
    + now rewrite Nat.sub_diag.
    + replace (j - i)%nat with (S (j - S i)) by lia. apply (IH _ H). lia.
Qed.

(** X4.  In the table that [parseMarkdownTable] returns, the separator is
    the first line that matches the pattern; every line before it is a
    header row and every line after it a data row, in the order of the
    lines, so that a table may have several header rows or none, and a
    later line that looks like a separator is a data row; each row holds
    the cells of its line, padded to the column count. *)
Theorem parseMarkdownTable_rows_of_lines (markdown : jsstring) (t : Table) :
  parseMarkdownTable markdown = Some t ->
  let lines := markdownLines markdown in
  exists k,
    (k < length lines)%nat
    /\ SEPARATOR_RE_test (nth k lines []) = true
    /\ (forall j, (j < k)%nat -> SEPARATOR_RE_test (nth j lines []) = false)
    /\ length (rows t) = (length lines - 1)%nat
    /\ map isHeader (rows t) = replicate k true ++ replicate (length lines - S k) false
    /\ map cells (rows t)
       = map (fun line => padCells (getColumnCount t) (map createCell1 (parseCells line)))
             (take k lines ++ drop (S k) lines).
Proof.
  intros Hparse lines. unfold parseMarkdownTable in Hparse. fold lines in Hparse.
  destruct (Nat.ltb_spec (length lines) 2) as [Hlt|Hge]; [discriminate|].
  destruct (findSeparator 0 lines) as [k|] eqn:Hfind; [|discriminate].
  injection Hparse as <-.
  pose proof (findSeparator_Some _ _ _ Hfind) as (Hk & Htest).
  rewrite Nat.sub_0_r in Htest.
  exists k. split; [lia|]. split; [exact Htest|]. split; [|split; [|split]].
  - intros j Hj. pose proof (findSeparator_first _ _ _ Hfind j ltac:(lia)) as H.
    now rewrite Nat.sub_0_r in H.
  - unfold normalizeTable. simpl.
    rewrite length_map, length_app, !length_map, length_take, length_drop. lia.
  - unfold normalizeTable. simpl. rewrite map_map, map_app, !map_map. simpl.
    f_equal.
    + rewrite <- (length_take_le lines k) at 2 by lia.
      generalize (take k lines). intros l. induction l; simpl; congruence.
    + rewrite <- (length_drop lines (S k)).
      generalize (drop (S k) lines). intros l. induction l; simpl; congruence.
  - rewrite getColumnCount_normalizeTable.
    unfold normalizeTable. simpl. rewrite map_map, !map_app, !map_map. reflexivity.
Qed.

Lemma parseMarkdownTable_rows_of_lines_witness :
  exists k,
    map isHeader
      (rows (createTable [createRow [createCell1 (lit "A")] true;
                          createRow [createCell1 (lit "B")] true;
                          createRow [createCell1 (lit "---")] false] [lit "left"]))
    = replicate k true ++ replicate (4 - S k) false.
Proof.
  destruct (parseMarkdownTable_rows_of_lines
              (lit "| A |" ++ nl :: lit "| B |" ++ nl :: lit "|---|" ++ nl :: lit "|---|")
              (createTable [createRow [createCell1 (lit "A")] true;
                            createRow [createCell1 (lit "B")] true;
                            createRow [createCell1 (lit "---")] false] [lit "left"])
              eq_refl) as (k & _ & _ & _ & _ & Hflags & _).
  exists k. exact Hflags.
Defined.

(** ** [markdownToHtml.js]: the cells of a line *)

Lemma trimStart_fixed (s : jsstring) : firstNonSpace s -> Js.trimStart s = s.
Proof. destruct s as [|c s]; [reflexivity|]. simpl. intros H. now rewrite trimStart_cons, H. Qed.

Lemma trimStart_first (s : jsstring) : firstNonSpace (Js.trimStart s).
Proof.
  induction s as [|c s IH]; [exact I|]. rewrite trimStart_cons.
  destruct (Js.isSpace c) eqn:Hc; [exact IH|exact Hc].
Qed.

Lemma trimEnd_cons (c : ascii) (s : jsstring) :
  Js.trimEnd (c :: s)
  = match Js.trimEnd s with
    | [] => if Js.isSpace c then [] else [c]
    | r' => c :: r'
    end.
Proof. reflexivity. Qed.

Lemma trimEnd_fixed (s : jsstring) : lastNonSpace s -> Js.trimEnd s = s.
Proof.
  unfold lastNonSpace. induction s as [|c s IH]; [reflexivity|].
  rewrite trimEnd_cons. destruct s as [|d s].
  - simpl. intros H. now rewrite H.
  - rewrite last_cons_cons. intros H. now rewrite (IH H).
Qed.

Lemma trimEnd_last (s : jsstring) : lastNonSpace (Js.trimEnd s).
Proof.
  unfold lastNonSpace. induction s as [|c s IH]; [exact I|].
  rewrite trimEnd_cons. destruct (Js.trimEnd s) as [|x r].
  - destruct (Js.isSpace c) eqn:Hc; [exact I|exact Hc].
  - now rewrite last_cons_cons.
Qed.

Lemma trimEnd_first (s : jsstring) : firstNonSpace s -> firstNonSpace (Js.trimEnd s).
Proof.
  destruct s as [|c s]; [trivial|]. intros Hc. simpl in Hc.
  rewrite trimEnd_cons. destruct (Js.trimEnd s); [now rewrite Hc|exact Hc].
Qed.

Lemma trim_ends (s : jsstring) : firstNonSpace (Js.trim s) /\ lastNonSpace (Js.trim s).
Proof. split; [apply trimEnd_first, trimStart_first|apply trimEnd_last]. Qed.

Lemma trim_fixed (s : jsstring) : firstNonSpace s -> lastNonSpace s -> Js.trim s = s.
Proof. intros H1 H2. unfold Js.trim. now rewrite (trimStart_fixed s H1), trimEnd_fixed. Qed.

Lemma trim_idem (s : jsstring) : Js.trim (Js.trim s) = Js.trim s.
Proof. apply trim_fixed; apply trim_ends. Qed.

Lemma unescapePipes_nil (s : jsstring) : unescapePipes s = [] -> s = [].
Proof.
  destruct s as [|c s]; [reflexivity|]. intros H. exfalso. revert H.
  destruct s as [|d s]; simpl.
  - destruct c as [[] [] [] [] [] [] [] []]; discriminate.
  - destruct c as [[] [] [] [] [] [] [] []]; try discriminate.
    destruct d as [[] [] [] [] [] [] [] []]; discriminate.
Qed.

Lemma unescapePipes_step (c : ascii) (s : jsstring) :
  (exists r, c = "\"%char /\ s = "|"%char :: r
             /\ unescapePipes (c :: s) = "|"%char :: unescapePipes r)
  \/ unescapePipes (c :: s) = c :: unescapePipes s.
Proof.
  destruct (Js.startsWith "|" s) eqn:Hs.
  - destruct s as [|d r]; [discriminate|]. simpl in Hs. apply Ascii.eqb_eq in Hs as ->.
    destruct (Ascii.eqb_spec c "\") as [->|Hc].
    + left. exists r. now repeat split.
    + right. destruct c as [[] [] [] [] [] [] [] []]; try reflexivity. now elim Hc.
  - right. now apply unescapePipes_cons.
Qed.

Lemma unescapePipes_last_le (n : nat) (s : jsstring) :
  (length s <= n)%nat -> last (unescapePipes s) = last s.
Proof.
  revert s. induction n as [|n IH]; intros s Hn.
  - destruct s; [reflexivity|simpl in Hn; lia].
  - destruct s as [|c s]; [reflexivity|]. simpl in Hn.
    destruct (unescapePipes_step c s) as [(r & Hc & Hs & Heq)|Heq]; rewrite Heq.
    + subst c s. simpl in Hn. destruct r as [|x r]; [reflexivity|].
      rewrite !last_cons_cons.
      destruct (unescapePipes (x :: r)) as [|y u] eqn:Hu.
      * now apply unescapePipes_nil in Hu.
      * rewrite last_cons_cons, <- Hu. apply IH. simpl in *. lia.
    + destruct s as [|d s]; [reflexivity|]. rewrite last_cons_cons.
      destruct (unescapePipes (d :: s)) as [|y u] eqn:Hu.
      * now apply unescapePipes_nil in Hu.
      * rewrite last_cons_cons, <- Hu. apply IH. simpl in *. lia.
Qed.

Lemma unescapePipes_ends (s : jsstring) :
  firstNonSpace s -> lastNonSpace s ->
  firstNonSpace (unescapePipes s) /\ lastNonSpace (unescapePipes s).
Proof.
  intros Hfirst Hlast. split.
  - destruct s as [|c s]; [exact I|].
    destruct (unescapePipes_step c s) as [(r & Hc & Hs & Heq)|Heq]; rewrite Heq;
      [reflexivity|exact Hfirst].
  - unfold lastNonSpace. now rewrite (unescapePipes_last_le (length s) s (Nat.le_refl _)).
Qed.

Lemma stripPipes_bare (s : jsstring) :
  Js.startsWith "|" s = false -> Js.endsWith "|" s = false -> stripPipes s = s.
Proof.
  intros Hstart Hend. unfold stripPipes.
  assert (Hlead : stripLeadingPipe s = s).
  { destruct s as [|c s]; [reflexivity|]. simpl in Hstart.
    apply Ascii.eqb_neq in Hstart.
    destruct c as [[] [] [] [] [] [] [] []]; try reflexivity. now elim Hstart. }
  rewrite Hlead. unfold stripTrailingPipe.
  destruct (rev s) as [|c r] eqn:Hrev; [reflexivity|].
  assert (Hs : s = rev r ++ [c]).
  { rewrite <- (rev_involutive s), Hrev. reflexivity. }
  unfold Js.endsWith in Hend. rewrite Hs, last_snoc in Hend.
  apply Ascii.eqb_neq in Hend.
  destruct c as [[] [] [] [] [] [] [] []]; try reflexivity. now elim Hend.
Qed.

(** X5.  A line always gives at least one cell; no cell begins or ends
    with white space; and the pipes around a line are optional: a line
    that neither begins nor ends with a pipe gives the same cells with a
    pipe put in front of it and one behind it. *)
Theorem parseCells_cells (line : jsstring) :
  parseCells line <> []
  /\ (forall c, In c (parseCells line) -> Js.trim c = c)
  /\ (Js.startsWith "|" line = false -> Js.endsWith "|" line = false ->
      parseCells (lit "|" ++ line ++ lit "|") = parseCells line).
Proof.
  split; [|split].
  - unfold parseCells. pose proof (splitPipes_nonempty false (stripPipes line)).
    destruct (splitPipes false (stripPipes line)); [congruence|discriminate].
  - intros c Hc. unfold parseCells in Hc. apply in_map_iff in Hc as (p & <- & _).
    destruct (trim_ends p) as (Hfirst & Hlast).
    destruct (unescapePipes_ends _ Hfirst Hlast). now apply trim_fixed.
  - intros Hstart Hend. unfold parseCells.
    now rewrite stripPipes_between, stripPipes_bare.
Qed.

Lemma parseCells_cells_witness :
  parseCells (lit "|" ++ lit "a | b \| c" ++ lit "|") = parseCells (lit "a | b \| c").
Proof.
  apply (proj2 (proj2 (parseCells_cells (lit "a | b \| c")))); reflexivity.
Defined.

(** ** [markdownToHtml.js]: the markup *)

Lemma escapeHtmlChar_safe (c x : ascii) :
  In x (escapeHtmlChar c) -> x <> "<"%char /\ x <> ">"%char /\ x <> dquote.
Proof.
  unfold escapeHtmlChar.
  destruct (Ascii.eqb_spec c "&"); [|destruct (Ascii.eqb_spec c "<");
    [|destruct (Ascii.eqb_spec c ">"); [|destruct (Ascii.eqb_spec c dquote)]]];
    simpl; intros H;
    repeat (destruct H as [<-|H]; [repeat split; (discriminate || assumption)|]);
    destruct H.
Qed.

Lemma escapeHtml_app (a b : jsstring) : escapeHtml (a ++ b) = escapeHtml a ++ escapeHtml b.
Proof.
  induction a as [|c a IH]; [reflexivity|].
  change ((c :: a) ++ b) with (c :: a ++ b).
  now rewrite !escapeHtml_cons, IH, app_assoc.
Qed.

Lemma escapeHtmlChar_nonempty (c : ascii) (r : jsstring) : [] <> escapeHtmlChar c ++ r.
Proof.
  unfold escapeHtmlChar.
  destruct (Ascii.eqb c "&"); [discriminate|]. destruct (Ascii.eqb c "<"); [discriminate|].
  destruct (Ascii.eqb c ">"); [discriminate|]. destruct (Ascii.eqb c dquote); discriminate.
Qed.

Lemma escapeHtmlChar_inj (c c' : ascii) (r r' : jsstring) :
  escapeHtmlChar c ++ r = escapeHtmlChar c' ++ r' -> c = c' /\ r = r'.
Proof.
  unfold escapeHtmlChar.
  destruct (Ascii.eqb_spec c "&") as [->|?]; [|destruct (Ascii.eqb_spec c "<") as [->|?];
    [|destruct (Ascii.eqb_spec c ">") as [->|?]; [|destruct (Ascii.eqb_spec c dquote) as [->|?]]]];
    (destruct (Ascii.eqb_spec c' "&") as [->|?]; [|destruct (Ascii.eqb_spec c' "<") as [->|?];
      [|destruct (Ascii.eqb_spec c' ">") as [->|?];
        [|destruct (Ascii.eqb_spec c' dquote) as [->|?]]]]);
    intros H; inversion H; subst; try congruence; now split.
Qed.

(** X6.  The text that [escapeHtml] writes holds none of [<], [>] and the
    double quote; it is written piece by piece, and two contents never
    give the same text. *)
Theorem escapeHtml_safe (s : jsstring) :
  (forall x, In x (escapeHtml s) -> x <> "<"%char /\ x <> ">"%char /\ x <> dquote)
  /\ (forall r, escapeHtml (s ++ r) = escapeHtml s ++ escapeHtml r)
  /\ (forall s', escapeHtml s = escapeHtml s' -> s = s').
Proof.
  split; [|split].
  - induction s as [|c s IH]; [intros x []|].
    rewrite escapeHtml_cons. intros x Hx. apply in_app_iff in Hx as [Hx|Hx].
    + now apply (escapeHtmlChar_safe c).
    + now apply IH.
  - apply escapeHtml_app.
  - induction s as [|c s IH]; intros [|c' s'] Heq; [reflexivity| | |].
    + rewrite escapeHtml_cons in Heq. now destruct (escapeHtmlChar_nonempty c' (escapeHtml s')).
    + rewrite escapeHtml_cons in Heq. symmetry in Heq.
      now destruct (escapeHtmlChar_nonempty c (escapeHtml s)).
    + rewrite !escapeHtml_cons in Heq.
      apply escapeHtmlChar_inj in Heq as (-> & Heq). f_equal. now apply IH.
Qed.

Lemma escapeHtml_safe_witness : lit "a<b" = lit "a<b".
Proof.
  apply (proj2 (proj2 (escapeHtml_safe (lit "a<b"))) (lit "a<b")). reflexivity.
Defined.

(** ** [htmlSanitizer.js]: [containsTable] *)

Lemma afterPrefix_spec (pat s r : jsstring) :
  afterPrefix pat s = Some r <-> exists w, s = w ++ r /\ map foldCase w = pat.
Proof.
  revert s. induction pat as [|p pat IH]; intros s; simpl.
  - split.
    + intros [= ->]. now exists [].
    + intros (w & -> & Hw). apply map_eq_nil in Hw as ->. reflexivity.
  - destruct s as [|c s].
    + split; [discriminate|]. intros (w & Hs & Hw).
      destruct w; [discriminate|discriminate].
    + destruct (Ascii.eqb_spec (foldCase c) p) as [Hc|Hc].
      * rewrite IH. split.
        -- intros (w & -> & Hw). exists (c :: w). simpl. now rewrite Hc, Hw.
        -- intros (w & Hs & Hw). destruct w as [|c' w]; [discriminate|].
           simpl in Hs, Hw. injection Hs as -> ->. injection Hw as _ Hw. now exists w.
      * split; [discriminate|]. intros (w & Hs & Hw).
        destruct w as [|c' w]; [discriminate|].
        simpl in Hs, Hw. injection Hs as -> ->. injection Hw as Hp _. now elim Hc.
Qed.

Lemma tableTagAt_spec (s : jsstring) :
  tableTagAt s = true
  <-> exists w c post,
        s = w ++ c :: post /\ map foldCase w = lit "<table"
        /\ (Js.isSpace c = true \/ c = ">"%char).
Proof.
  unfold tableTagAt. split.
  - destruct (afterPrefix (lit "<table") s) as [[|c post]|] eqn:Hafter; try discriminate.
    apply afterPrefix_spec in Hafter as (w & -> & Hw).
    intros H. exists w, c, post. split; [reflexivity|]. split; [exact Hw|].
    apply orb_prop in H as [H|H]; [now left|right; now apply Ascii.eqb_eq].
  - intros (w & c & post & -> & Hw & Hc).
    rewrite (proj2 (afterPrefix_spec (lit "<table") (w ++ c :: post) (c :: post)))
      by (now exists w).
    destruct Hc as [->| ->]; [reflexivity|apply orb_true_r].
Qed.

Lemma tableTagIn_spec (s : jsstring) :
  tableTagIn s = true <-> exists pre r, s = pre ++ r /\ tableTagAt r = true.
Proof.
  induction s as [|c s IH].
  - change (tableTagIn []) with (tableTagAt [] || false). split.
    + intros H. discriminate H.
    + intros (pre & r & Hs & Hr). symmetry in Hs. apply app_eq_nil in Hs as (_ & ->).
      exact Hr.
  - change (tableTagIn (c :: s)) with (tableTagAt (c :: s) || tableTagIn s).
    rewrite orb_true_iff, IH. split.
    + intros [H|(pre & r & -> & Hr)].
      * now exists [], (c :: s).
      * now exists (c :: pre), r.
    + intros (pre & r & Hs & Hr). destruct pre as [|c' pre].
      * left. simpl in Hs. now rewrite Hs.
      * right. injection Hs as -> ->. now exists pre, r.
Qed.

(** X8.  [containsTable] answers [false] for [null] and for the empty
    string, and otherwise tells whether the text holds, somewhere, the
    characters [<table] in upper or lower case followed by a white space
    character or by [>]; it recognizes every markup that
    [tableModelToHtml] and [markdownToHtml] write. *)
Theorem containsTable_recognizes :
  containsTable None = false
  /\ containsTable (Some []) = false
  /\ (forall s,
        containsTable (Some s) = true
        <-> exists pre w c post,
              s = pre ++ w ++ c :: post /\ map foldCase w = lit "<table"
              /\ (Js.isSpace c = true \/ c = ">"%char))
  /\ (forall t, containsTable (Some (tableModelToHtml t)) = true)
  /\ (forall markdown html,
        markdownToHtml markdown = Some html -> containsTable (Some html) = true).
Proof.
  split; [reflexivity|]. split; [reflexivity|].
  assert (Hspec : forall s,
            containsTable (Some s) = true
            <-> exists pre w c post,
                  s = pre ++ w ++ c :: post /\ map foldCase w = lit "<table"
                  /\ (Js.isSpace c = true \/ c = ">"%char)).
  { intros s.
    assert (Hin : containsTable (Some s) = tableTagIn s) by now destruct s.
    rewrite Hin, tableTagIn_spec. split.
    - intros (pre & r & -> & Hr). apply tableTagAt_spec in Hr as (w & c & post & -> & Hw & Hc).
      now exists pre, w, c, post.
    - intros (pre & w & c & post & -> & Hw & Hc). exists pre, (w ++ c :: post).
      split; [reflexivity|]. apply tableTagAt_spec. now exists w, c, post. }
  assert (Hhtml : forall t, containsTable (Some (tableModelToHtml t)) = true).
  { intros t. apply Hspec.
    exists [], (lit "<table"), " "%char.
    eexists. split; [|split; [reflexivity|now left]].
    unfold tableModelToHtml. reflexivity. }
  split; [exact Hspec|]. split; [exact Hhtml|].
  intros markdown html Hrun. unfold markdownToHtml in Hrun.
  destruct (parseMarkdownTable markdown) as [t|]; [|discriminate].
  injection Hrun as <-. apply Hhtml.
Qed.

Lemma containsTable_recognizes_witness :
  containsTable
    (Some (tableModelToHtml
             (createTable [createRow [createCell1 (lit "A")] true] [lit "left"]))) = true.
Proof.
  apply (proj2 (proj2 (proj2 (proj2 containsTable_recognizes)))
           (lit "| A |" ++ nl :: lit "|---|")).
  reflexivity.
Defined.

(** ** [htmlToMarkdown.js]: the content of a cell *)

Lemma singleSpaced_weaken (b : bool) (s : jsstring) :
  singleSpaced b s = true -> singleSpaced false s = true.
Proof.
  destruct s as [|c s]; [reflexivity|]. simpl.
  destruct (Js.isSpace c); [|trivial]. destruct b; [|trivial].
  rewrite andb_false_r. discriminate.
Qed.

Lemma collapseRuns_singleSpaced (b : bool) (s : jsstring) :
  singleSpaced b (Js.collapseRuns b s) = true.
Proof.
  revert b. induction s as [|c s IH]; intros b; [reflexivity|]. simpl.
  destruct (Js.isSpace c) eqn:Hc.
  - destruct b; [apply IH|]. simpl. apply IH.
  - simpl. rewrite Hc. apply IH.
Qed.

Lemma collapseRuns_fixed (b : bool) (s : jsstring) :
  singleSpaced b s = true -> Js.collapseRuns b s = s.
Proof.
  revert b. induction s as [|c s IH]; intros b; [reflexivity|]. simpl.
  destruct (Js.isSpace c) eqn:Hc.
  - intros H. apply andb_prop in H as [H Hs]. apply andb_prop in H as [Heq Hb].
    apply Ascii.eqb_eq in Heq as ->. destruct b; [discriminate|]. now rewrite (IH true Hs).
  - intros Hs. now rewrite (IH false Hs).
Qed.

Lemma trimStart_singleSpaced (b : bool) (s : jsstring) :
  singleSpaced b s = true -> singleSpaced false (Js.trimStart s) = true.
Proof.
  revert b. induction s as [|c s IH]; intros b; [reflexivity|].
  rewrite trimStart_cons. destruct (Js.isSpace c) eqn:Hc.
  - simpl. rewrite Hc. intros H. apply andb_prop in H as [_ Hs]. now apply (IH true).
  - apply singleSpaced_weaken.
Qed.

Lemma trimEnd_singleSpaced (b : bool) (s : jsstring) :
  singleSpaced b s = true -> singleSpaced b (Js.trimEnd s) = true.
Proof.
  revert b. induction s as [|c s IH]; intros b; [reflexivity|].
  rewrite trimEnd_cons. simpl. destruct (Js.isSpace c) eqn:Hc.
  - intros H. apply andb_prop in H as [H Hs]. specialize (IH true Hs).
    destruct (Js.trimEnd s) as [|x r]; [reflexivity|].
    simpl. rewrite Hc, H. exact IH.
  - intros Hs. specialize (IH false Hs).
    destruct (Js.trimEnd s) as [|x r]; simpl; rewrite Hc; [reflexivity|exact IH].
Qed.

Lemma singleSpaced_no_break (b : bool) (s : jsstring) (c : ascii) :
  singleSpaced b s = true -> In c s -> Js.isSpace c = true -> c = " "%char.
Proof.
  revert b. induction s as [|x s IH]; intros b Hs Hin Hc; [destruct Hin|].
  simpl in Hs. destruct Hin as [->|Hin].
  - rewrite Hc in Hs. apply andb_prop in Hs as [Hs _]. apply andb_prop in Hs as [Hs _].
    now apply Ascii.eqb_eq.
  - destruct (Js.isSpace x).
    + apply andb_prop in Hs as [_ Hs]. now apply (IH true).
    + now apply (IH false).
Qed.

Lemma normalizeContent_single_spaced (s : jsstring) :
  firstNonSpace (normalizeContent s)
  /\ lastNonSpace (normalizeContent s)
  /\ singleSpaced false (normalizeContent s) = true.
Proof.
  unfold normalizeContent. split; [apply trim_ends|]. split; [apply trim_ends|].
  unfold Js.trim. apply trimEnd_singleSpaced, (trimStart_singleSpaced false).
  apply collapseRuns_singleSpaced.
Qed.

Lemma normalizeContent_one_line (s : jsstring) : ~ In nl (normalizeContent s).
Proof.
  destruct (normalizeContent_single_spaced s) as (_ & _ & Hsingle).
  intros Hin. now pose proof (singleSpaced_no_break _ _ _ Hsingle Hin eq_refl).
Qed.

Lemma normalizeContent_fixed (s : jsstring) :
  firstNonSpace s -> lastNonSpace s -> singleSpaced false s = true ->
  normalizeContent s = s.
Proof.
  intros Hfirst Hlast Hsingle. unfold normalizeContent, Js.collapseWhitespace.
  rewrite (collapseRuns_fixed false s Hsingle). now apply trim_fixed.
Qed.

(** X9.  The content that [htmlTableToModel] takes from the text of a cell
    element, [textContent.replace(/\s+/g, ' ').trim()], neither begins nor
    ends with white space, and its only white space is single spaces, so it
    has no line break; a text of that form is its own content, so reading
    the content again changes nothing. *)
Theorem normalizeContent_normal (s : jsstring) :
  (firstNonSpace (normalizeContent s)
   /\ lastNonSpace (normalizeContent s)
   /\ singleSpaced false (normalizeContent s) = true
   /\ ~ In nl (normalizeContent s))
  /\ (firstNonSpace s -> lastNonSpace s -> singleSpaced false s = true ->
      normalizeContent s = s)
  /\ normalizeContent (normalizeContent s) = normalizeContent s.
Proof.
  destruct (normalizeContent_single_spaced s) as (Hfirst & Hlast & Hsingle).
  split; [|split].
  - repeat split; try assumption. apply normalizeContent_one_line.
  - apply normalizeContent_fixed.
  - now apply normalizeContent_fixed.
Qed.

Lemma normalizeContent_normal_witness :
  normalizeContent (lit "a b") = lit "a b".
Proof.
  apply (proj1 (proj2 (normalizeContent_normal (lit "a b")))); reflexivity.
Defined.

(** ** [htmlTableToModel]: spans, header rows and alignments *)

Lemma remainingAt_owed (tr : ledger) (j : nat) :
  owed tr j = match remainingAt tr j with
              | Some remaining => 0 <? remaining
              | None => false
              end.
Proof. unfold owed, remainingAt. now destruct (tr !! j) as [[r|]|]. Qed.

Lemma remainingAt_assign (tr : ledger) (c j : nat) (v : Z) :
  remainingAt (assign tr c v) j = if (j =? c)%nat then Some v else remainingAt tr j.
Proof.
  unfold remainingAt, assign.
  destruct (Nat.ltb_spec c (length tr)) as [Hlt|Hge].
  - destruct (Nat.eqb_spec j c) as [->|Hne].
    + now rewrite list_lookup_insert_eq.
    + now rewrite list_lookup_insert_ne by congruence.
  - destruct (Nat.eqb_spec j c) as [->|Hne].
    + rewrite lookup_app_r by lia. rewrite lookup_app_r by (rewrite length_replicate; lia).
      rewrite length_replicate. now replace (c - length tr - (c - length tr))%nat with O by lia.
    + destruct (Nat.lt_ge_cases j (length tr)) as [Hj|Hj].
      * now rewrite lookup_app_l by lia.
      * rewrite (lookup_ge_None_2 tr j) by lia.
        rewrite lookup_app_r by lia.
        destruct (Nat.lt_ge_cases j c) as [Hjc|Hjc].
        -- rewrite lookup_app_l by (rewrite length_replicate; lia).
           now rewrite lookup_replicate_2 by lia.
        -- rewrite lookup_app_r by (rewrite length_replicate; lia).
           rewrite length_replicate.
           destruct (j - length tr - (c - length tr))%nat as [|k] eqn:Hk; [lia|reflexivity].
Qed.

Lemma remainingAt_decrement (tr : ledger) (c j : nat) :
  remainingAt (decrement tr c) j
  = if (j =? c)%nat then (fun remaining => remaining - 1) <$> remainingAt tr c
    else remainingAt tr j.
Proof.
  unfold remainingAt, decrement.
  destruct (Nat.eqb_spec j c) as [->|Hne].
  - destruct (tr !! c) as [[r|]|] eqn:Hc; simpl; rewrite ?Hc; try reflexivity.
    rewrite list_lookup_insert_eq by (now apply lookup_lt_Some in Hc). reflexivity.
  - destruct (tr !! c) as [[r|]|] eqn:Hc; try reflexivity.
    now rewrite list_lookup_insert_ne by congruence.
Qed.

(** The loop over the columns of a cell element, turn by turn. *)
Lemma expandCell_shape n first cellContent rs al capture st :
  let st' := expandCell n first cellContent rs al capture st in
  outCells st' = outCells st ++ (if first then expandedCells n cellContent
                                 else replicate n (createCell1 []))
  /\ colIdx st' = (colIdx st + n)%nat
  /\ alignmentsOut st'
     = alignmentsOut st
         ++ (if capture
             then replicate n (match al with Some a => Js.toLowerCase a | None => lit "left" end)
             else [])
  /\ forall j,
       remainingAt (rowspanTracker st') j
       = if gt1 rs && (colIdx st <=? j)%nat && (j <? colIdx st + n)%nat
         then Some (default 0 rs - 1)
         else remainingAt (rowspanTracker st) j.
Proof.
  revert first st. induction n as [|n IH]; intros first st; cbv zeta.
  - simpl. rewrite Nat.add_0_r. destruct first, capture; simpl; rewrite !app_nil_r;
      repeat split; try reflexivity; intros j;
      destruct (gt1 rs), (Nat.leb_spec (colIdx st) j), (Nat.ltb_spec j (colIdx st));
      simpl; try reflexivity; lia.
  - simpl expandCell. specialize (IH false).
    match goal with
    | |- context [expandCell n false cellContent rs al capture ?s] =>
        destruct (IH s) as (Hout & Hcol & Hal & Htr)
    end.
    cbv zeta in Hout, Hcol, Hal, Htr. rewrite Hout, Hcol, Hal.
    cbn [outCells colIdx alignmentsOut].
    split; [|split; [|split]].
    + rewrite <- List.app_assoc. f_equal. now destruct first.
    + lia.
    + destruct capture; [now rewrite <- List.app_assoc|reflexivity].
    + intros j. rewrite Htr. cbn [colIdx rowspanTracker]. destruct (gt1 rs); cbn [andb].
      * rewrite remainingAt_assign.
        destruct (Nat.leb_spec (S (colIdx st)) j), (Nat.ltb_spec j (S (colIdx st) + n)),
                 (Nat.leb_spec (colIdx st) j), (Nat.ltb_spec j (colIdx st + S n)),
                 (Nat.eqb_spec j (colIdx st));
          simpl; try reflexivity; lia.
      * reflexivity.
Qed.

Lemma consumeCell_shape capture cellEl st :
  let st' := consumeCell capture cellEl st in
  let n := turns (colspanOf cellEl) in
  outCells st' = outCells st ++ expandedCells n (normalizeContent (textContent cellEl))
  /\ colIdx st' = (colIdx st + n)%nat
  /\ cellElIdx st' = S (cellElIdx st)
  /\ alignmentsOut st'
     = alignmentsOut st ++ (if capture then replicate n (capturedAlignment cellEl) else [])
  /\ forall j,
       remainingAt (rowspanTracker st') j
       = if gt1 (rowspanOf cellEl) && (colIdx st <=? j)%nat && (j <? colIdx st + n)%nat
         then Some (default 0 (rowspanOf cellEl) - 1)
         else remainingAt (rowspanTracker st) j.
Proof.
  cbv zeta. unfold consumeCell. cbv zeta. simpl.
  rewrite expandCell_cellElIdx.
  destruct (expandCell_shape (turns (colspanOf cellEl)) true
              (normalizeContent (textContent cellEl)) (rowspanOf cellEl)
              (cellAlign cellEl) capture st) as (Hout & Hcol & Hal & Htr).
  cbv zeta in Hout, Hcol, Hal, Htr.
  split; [exact Hout|]. split; [exact Hcol|]. split; [reflexivity|].
  split; [exact Hal|exact Htr].
Qed.

Lemma drainAll_shape (st : RowState) :
  exists k,
    outCells (drainAll st) = outCells st ++ replicate k (createCell1 [])
    /\ alignmentsOut (drainAll st) = alignmentsOut st.
Proof.
  destruct (drainAll_consecutive st) as (k & -> & _).
  destruct (emitFillers_shape k st) as (Hout & _ & _ & Hal).
  exists k. now split.
Qed.

Lemma walkRow_alignments capture (cellEls : list CellEl) (st : RowState) :
  alignmentsOut (walkRow capture cellEls st)
  = alignmentsOut st ++ (if capture then capturedAlignments cellEls else []).
Proof.
  revert st. induction cellEls as [|el els IH]; intros st; simpl walkRow.
  - destruct (drainAll_shape st) as (k & _ & ->). destruct capture; now rewrite app_nil_r.
  - rewrite IH.
    destruct (consumeCell_shape capture el (drainAll st)) as (_ & _ & _ & Hal & _).
    cbv zeta in Hal. rewrite Hal.
    destruct (drainAll_shape st) as (k & _ & ->).
    destruct capture; [|now rewrite !app_nil_r].
    unfold capturedAlignments. simpl. now rewrite <- List.app_assoc.
Qed.

(** A cell of the model made of the cell elements [cellEls]: it spans one
    row and one column, and its content is empty or the normalized text of
    one of the elements. *)
Lemma expandedCells_made (n : nat) (el : CellEl) (cellEls : list CellEl) :
  In el cellEls ->
  Forall (fun c => unitCell c
                   /\ (content c = []
                       \/ exists el', In el' cellEls
                                      /\ content c = normalizeContent (textContent el')))
         (expandedCells n (normalizeContent (textContent el))).
Proof.
  intros Hin. destruct n as [|n]; [constructor|]. simpl. constructor.
  - split; [now split|]. right. now exists el.
  - apply List.Forall_forall. intros c Hc.
    apply list_elem_of_In, elem_of_replicate in Hc as [-> _]. split; [now split|now left].
Qed.

Lemma walkRow_cells capture (cellEls : list CellEl) (st : RowState) :
  exists added,
    outCells (walkRow capture cellEls st) = outCells st ++ added
    /\ Forall (fun c => unitCell c
                        /\ (content c = []
                            \/ exists el, In el cellEls
                                          /\ content c = normalizeContent (textContent el)))
              added.
Proof.
  revert st. induction cellEls as [|el els IH]; intros st; simpl walkRow.
  - destruct (drainAll_shape st) as (k & -> & _). eexists. split; [reflexivity|].
    apply List.Forall_forall. intros c Hc.
    apply list_elem_of_In, elem_of_replicate in Hc as [-> _]. split; [now split|now left].
  - destruct (IH (consumeCell capture el (drainAll st))) as (added & -> & Hadded).
    destruct (consumeCell_shape capture el (drainAll st)) as (Hout & _).
    cbv zeta in Hout. rewrite Hout.
    destruct (drainAll_shape st) as (k & -> & _).
    eexists. split; [rewrite <- !List.app_assoc; reflexivity|].
    apply Forall_app. split; [|apply Forall_app; split].
    + apply List.Forall_forall. intros c Hc.
      apply list_elem_of_In, elem_of_replicate in Hc as [-> _]. split; [now split|now left].
    + apply expandedCells_made. now left.
    + eapply List.Forall_impl; [|exact Hadded]. intros c (Hunit & [Hc|(el' & Hel' & Hc)]).
      * split; [exact Hunit|now left].
      * split; [exact Hunit|]. right. exists el'. split; [now right|exact Hc].
Qed.

Lemma walkRow_no_rowspan capture (cellEls : list CellEl) (st : RowState) :
  rowspanTracker st = [] ->
  Forall (fun el => gt1 (rowspanOf el) = false) cellEls ->
  outCells (walkRow capture cellEls st)
  = outCells st
      ++ flat_map (fun el => expandedCells (turns (colspanOf el))
                               (normalizeContent (textContent el))) cellEls
  /\ rowspanTracker (walkRow capture cellEls st) = [].
Proof.
  intros Htr Hall. revert st Htr.
  induction Hall as [|el els Hel _ IH]; intros st Htr.
  - simpl. rewrite drainAll_unowed by now rewrite Htr.
    rewrite app_nil_r. now split.
  - simpl walkRow. rewrite drainAll_unowed by now rewrite Htr.
    destruct (consumeCell_shape capture el st) as (Hout & _).
    cbv zeta in Hout.
    assert (Htr' : rowspanTracker (consumeCell capture el st) = []).
    { unfold consumeCell. cbv zeta. cbn [rowspanTracker].
      rewrite expandCell_no_rowspan by exact Hel. exact Htr. }
    destruct (IH _ Htr') as (Hout' & Htr'').
    rewrite Hout', Hout, <- List.app_assoc. now split.
Qed.

Lemma runRow_start capture cellElements tr al :
  runRow capture cellElements
    {| outCells := []; colIdx := O; cellElIdx := O; rowspanTracker := tr; alignmentsOut := al |}
  = walkRow capture cellElements
      {| outCells := []; colIdx := O; cellElIdx := O; rowspanTracker := tr; alignmentsOut := al |}.
Proof. now apply runRow_walkRow. Qed.

(** The rows that the loop over the rows adds: one for each [tr], with its
    header flag and cells of one row and one column made of the cell
    elements of that [tr]. *)
Lemma processRows_rows tfh (trs : list (bool * list CellEl)) (rowIdx : nat) (ts : TableState) :
  exists rs,
    rowsOut (processRows tfh rowIdx trs ts) = rowsOut ts ++ rs
    /\ map isHeader rs = imap (fun j tr => headerFlag tfh (rowIdx + j) tr) trs
    /\ Forall2 (fun r tr =>
                  Forall (fun c => unitCell c
                                   /\ (content c = []
                                       \/ exists el, In el (snd tr)
                                                     /\ content c = normalizeContent (textContent el)))
                         (cells r))
               rs trs.
Proof.
  revert rowIdx ts. induction trs as [|tr trs IH]; intros rowIdx ts.
  - exists []. simpl. rewrite app_nil_r. repeat split. constructor.
  - simpl processRows.
    destruct (IH (S rowIdx) (processRow tfh rowIdx tr ts)) as (rs & -> & Hflags & Hcells).
    unfold processRow at 1. cbv zeta. cbn [rowsOut]. rewrite runRow_start.
    eexists (_ :: rs). split; [rewrite <- List.app_assoc; reflexivity|]. split.
    + rewrite imap_cons. simpl map. f_equal.
      * unfold headerFlag. now rewrite Nat.add_0_r.
      * rewrite Hflags. apply imap_ext. intros j x _. simpl. f_equal. lia.
    + constructor; [|exact Hcells]. cbn [cells createRow].
      match goal with
      | |- context [walkRow ?c (snd tr) ?s] =>
          destruct (walkRow_cells c (snd tr) s) as (added & -> & Hadded)
      end.
      exact Hadded.
Qed.

Lemma processRows_alignments_set tfh (trs : list (bool * list CellEl)) (rowIdx : nat)
    (ts : TableState) :
  alignmentsSet ts = true ->
  alignmentsAcc (processRows tfh rowIdx trs ts) = alignmentsAcc ts.
Proof.
  revert rowIdx ts. induction trs as [|tr trs IH]; intros rowIdx ts Hset; [reflexivity|].
  simpl processRows. rewrite IH.
  - unfold processRow. cbv zeta. cbn [alignmentsAcc]. rewrite runRow_start.
    rewrite walkRow_alignments. cbn [alignmentsOut]. rewrite Hset, andb_false_r.
    apply app_nil_r.
  - unfold processRow. cbv zeta. cbn [alignmentsSet]. now rewrite Hset.
Qed.

(** The alignments are captured from the cell elements of the first header
    row, and from no other row. *)
Lemma processRows_alignments tfh (pre post : list (bool * list CellEl)) (tr : bool * list CellEl)
    (rowIdx : nat) (ts : TableState) :
  alignmentsSet ts = false ->
  (forall j r, pre !! j = Some r -> headerFlag tfh (rowIdx + j) r = false) ->
  headerFlag tfh (rowIdx + length pre) tr = true ->
  alignmentsAcc (processRows tfh rowIdx (pre ++ tr :: post) ts)
  = alignmentsAcc ts ++ capturedAlignments (snd tr).
Proof.
  revert rowIdx ts. induction pre as [|r pre IH]; intros rowIdx ts Hset Hpre Htr.
  - simpl app. simpl processRows. rewrite processRows_alignments_set.
    + unfold processRow. cbv zeta. cbn [alignmentsAcc]. rewrite runRow_start.
      rewrite walkRow_alignments. cbn [alignmentsOut].
      simpl length in Htr. rewrite Nat.add_0_r in Htr. unfold headerFlag in Htr.
      now rewrite Htr, Hset.
    + unfold processRow. cbv zeta. cbn [alignmentsSet].
      simpl length in Htr. rewrite Nat.add_0_r in Htr. unfold headerFlag in Htr.
      rewrite Htr. apply orb_true_r.
  - simpl app. simpl processRows.
    pose proof (Hpre O r eq_refl) as Hr. rewrite Nat.add_0_r in Hr. unfold headerFlag in Hr.
    rewrite IH.
    + unfold processRow. cbv zeta. cbn [alignmentsAcc]. rewrite runRow_start.
      rewrite walkRow_alignments. cbn [alignmentsOut]. rewrite Hr. simpl.
      now rewrite app_nil_r.
    + unfold processRow. cbv zeta. cbn [alignmentsSet]. now rewrite Hset, Hr.
    + intros j r' Hj. replace (S rowIdx + j)%nat with (rowIdx + S j)%nat by lia.
      now apply Hpre.
    + simpl length in Htr. now replace (S rowIdx + length pre)%nat
        with (rowIdx + S (length pre))%nat by lia.
Qed.

Lemma processRows_no_rowspan tfh (trs : list (bool * list CellEl)) (rowIdx : nat)
    (ts : TableState) :
  trackerAcc ts = [] ->
  Forall (fun tr => Forall (fun el => gt1 (rowspanOf el) = false) (snd tr)) trs ->
  rowsOut (processRows tfh rowIdx trs ts)
  = rowsOut ts
      ++ imap (fun j tr =>
                 createRow
                   (flat_map (fun el => expandedCells (turns (colspanOf el))
                                          (normalizeContent (textContent el))) (snd tr))
                   (headerFlag tfh (rowIdx + j) tr))
              trs.
Proof.
  intros Htr Hall. revert rowIdx ts Htr.
  induction Hall as [|tr trs Hplain _ IH]; intros rowIdx ts Htr.
  - simpl. now rewrite app_nil_r.
  - simpl processRows.
    assert (Hrow : rowsOut (processRow tfh rowIdx tr ts)
                   = rowsOut ts
                       ++ [createRow
                             (flat_map (fun el => expandedCells (turns (colspanOf el))
                                                    (normalizeContent (textContent el)))
                                       (snd tr))
                             (headerFlag tfh rowIdx tr)]
                   /\ trackerAcc (processRow tfh rowIdx tr ts) = []).
    { unfold processRow. cbv zeta. cbn [rowsOut trackerAcc]. rewrite runRow_start.
      match goal with
      | |- context [walkRow ?c (snd tr) ?s] =>
          destruct (walkRow_no_rowspan c (snd tr) s Htr Hplain) as (Hout & Htr')
      end.
      rewrite Htr', Hout. now split. }
    destruct Hrow as (Hrows & Htr').
    rewrite (IH _ _ Htr'), Hrows, <- List.app_assoc. f_equal.
    rewrite imap_cons. simpl. rewrite Nat.add_0_r. f_equal.
    apply imap_ext. intros j x _. simpl. do 2 f_equal. lia.
Qed.

Lemma normalizeTable_flags (T : Table) :
  map isHeader (rows (normalizeTable T)) = map isHeader (rows T).
Proof. unfold normalizeTable. simpl. rewrite map_map. now apply map_ext. Qed.

(** X10.  One cell element with a colspan [k >= 1] becomes [k] cells of the
    row: the first holds the content, the others are empty, and the walk
    moves [k] columns to the right and to the next cell element.  In a row
    whose alignments are captured the alignment of the element (its [align]
    attribute or else its [text-align] style, in lower case, or else
    [left]) is pushed once for each of the [k] columns.  With a rowspan
    [r > 1] each of the [k] columns gets a ledger entry of [r - 1] rows
    still to fill, so it owes a filler; the entries of the other columns
    stay as they are, and without such a rowspan the ledger is left
    alone. *)
Theorem consumeCell_spans (capture : bool) (cellEl : CellEl) (st : RowState) (k : Z) :
  colspanOf cellEl = Some k -> 0 < k ->
  let st' := consumeCell capture cellEl st in
  outCells st'
  = outCells st ++ createCell1 (normalizeContent (textContent cellEl))
                     :: replicate (Z.to_nat k - 1) (createCell1 [])
  /\ colIdx st' = (colIdx st + Z.to_nat k)%nat
  /\ cellElIdx st' = S (cellElIdx st)
  /\ alignmentsOut st'
     = alignmentsOut st
         ++ (if capture then replicate (Z.to_nat k) (capturedAlignment cellEl) else [])
  /\ (forall r, rowspanOf cellEl = Some r -> 1 < r ->
      forall j, (colIdx st <= j < colIdx st + Z.to_nat k)%nat ->
                remainingAt (rowspanTracker st') j = Some (r - 1)
                /\ owed (rowspanTracker st') j = true)
  /\ (forall j, (j < colIdx st \/ colIdx st + Z.to_nat k <= j)%nat ->
                remainingAt (rowspanTracker st') j = remainingAt (rowspanTracker st) j)
  /\ (gt1 (rowspanOf cellEl) = false -> rowspanTracker st' = rowspanTracker st).
Proof.
  intros Hk Hpos st'.
  destruct (consumeCell_shape capture cellEl st) as (Hout & Hcol & Hidx & Hal & Htr).
  cbv zeta in Hout, Hcol, Hidx, Hal, Htr. fold st' in Hout, Hcol, Hidx, Hal, Htr.
  rewrite Hk in Hout, Hcol, Hal, Htr. simpl turns in Hout, Hcol, Hal, Htr.
  split; [|split; [exact Hcol|split; [exact Hidx|split; [exact Hal|split; [|split]]]]].
  - rewrite Hout. f_equal. unfold expandedCells.
    destruct (Z.to_nat k) as [|n] eqn:Hn; [lia|]. now rewrite Nat.sub_1_r.
  - intros r Hr Hgt j Hj.
    assert (Hrem : remainingAt (rowspanTracker st') j = Some (r - 1)).
    { rewrite Htr, Hr. simpl gt1. simpl default.
      destruct (Z.ltb_spec 1 r); [|lia].
      destruct (Nat.leb_spec (colIdx st) j); [|lia].
      destruct (Nat.ltb_spec j (colIdx st + Z.to_nat k)); [|lia]. reflexivity. }
    split; [exact Hrem|]. rewrite remainingAt_owed, Hrem. apply Z.ltb_lt. lia.
  - intros j Hj. rewrite Htr.
    destruct (Nat.leb_spec (colIdx st) j), (Nat.ltb_spec j (colIdx st + Z.to_nat k));
      rewrite ?andb_false_r; try reflexivity; lia.
  - intros Hrs. unfold st', consumeCell. cbv zeta. cbn [rowspanTracker].
    now apply expandCell_no_rowspan.
Qed.

Lemma consumeCell_spans_witness :
  outCells
    (consumeCell true
       {| textContent := lit " a  b "; colspanAttr := Some (lit "2");
          rowspanAttr := Some (lit "3"); alignAttr := Some (lit "CENTER");
          styleTextAlign := [] |}
       {| outCells := []; colIdx := 1; cellElIdx := 0; rowspanTracker := [];
          alignmentsOut := [] |})
  = [] ++ [createCell1 (lit "a b"); createCell1 []].
Proof.
  apply (consumeCell_spans true
           {| textContent := lit " a  b "; colspanAttr := Some (lit "2");
              rowspanAttr := Some (lit "3"); alignAttr := Some (lit "CENTER");
              styleTextAlign := [] |}
           {| outCells := []; colIdx := 1; cellElIdx := 0; rowspanTracker := [];
              alignmentsOut := [] |} 2); [reflexivity|lia].
Defined.

Lemma in_cellElementsOf (tableEl : TableEl) (tr : bool * list CellEl) (el : CellEl) :
  In tr (trElements tableEl) -> In el (snd tr) -> In el (cellElementsOf tableEl).
Proof.
  intros Htr Hel. unfold cellElementsOf. apply in_concat. exists (snd tr).
  split; [now apply in_map|exact Hel].
Qed.

Lemma headerFlag_some (trs : list (bool * list CellEl)) :
  trs <> [] ->
  exists i tr, trs !! i = Some tr /\ headerFlag (negb (existsb fst trs)) i tr = true.
Proof.
  intros Hne. destruct (existsb fst trs) eqn:Hex.
  - apply existsb_exists in Hex as (tr & Hin & Hfst).
    apply list_elem_of_In, list_elem_of_lookup in Hin as (i & Hi).
    exists i, tr. split; [exact Hi|]. unfold headerFlag. now rewrite Hfst.
  - destruct trs as [|tr trs]; [congruence|]. exists O, tr. split; [reflexivity|].
    unfold headerFlag. simpl. apply orb_true_r.
Qed.

(** The model of a table element with rows. *)
Lemma htmlTableToModel_made (tableEl : TableEl) (t : Table) :
  htmlTableToModel tableEl = Some t ->
  WellFormed t
  /\ length (rows t) = length (trElements tableEl)
  /\ map isHeader (rows t)
     = imap (headerFlag (negb (existsb fst (trElements tableEl)))) (trElements tableEl)
  /\ (forall r c, In r (rows t) -> In c (cells r) ->
        content c = []
        \/ exists el, In el (cellElementsOf tableEl)
                      /\ content c = normalizeContent (textContent el)).
Proof.
  unfold htmlTableToModel. cbv zeta.
  destruct (is_nil (trElements tableEl)) eqn:Hnil; [discriminate|].
  assert (Hne : trElements tableEl <> []) by (intros Heq; now rewrite Heq in Hnil).
  intros [= <-].
  set (tfh := negb (existsb fst (trElements tableEl))).
  destruct (processRows_rows tfh (trElements tableEl) O initialTableState)
    as (rs & Hrows & Hflags & Hcells).
  simpl in Hrows. simpl in Hflags.
  set (ts := processRows tfh 0 (trElements tableEl) initialTableState) in *.
  pose proof (Forall2_length _ _ _ Hcells) as Hlen.
  assert (Hmade : forall r c, In r rs -> In c (cells r) ->
                    unitCell c
                    /\ (content c = []
                        \/ exists el, In el (cellElementsOf tableEl)
                                      /\ content c = normalizeContent (textContent el))).
  { intros r c Hr Hc.
    apply list_elem_of_In, list_elem_of_lookup in Hr as (i & Hi).
    destruct (Forall2_lookup_l _ _ _ _ _ Hcells Hi) as (tr & Htr & Hall).
    rewrite List.Forall_forall in Hall. destruct (Hall c Hc) as (Hunit & Hcontent).
    split; [exact Hunit|]. destruct Hcontent as [Hempty|(el & Hel & Hcontent)]; [now left|].
    right. exists el. split; [|exact Hcontent].
    apply (in_cellElementsOf tableEl tr); [|exact Hel].
    apply list_elem_of_In, list_elem_of_lookup. now exists i. }
  split; [|split; [|split]].
  - apply normalizeTable_WellFormed.
    + simpl. rewrite Hrows. intros Heq. rewrite Heq in Hlen. simpl in Hlen.
      destruct (trElements tableEl); [congruence|discriminate].
    + simpl. rewrite Hrows. intros r c Hr Hc. now apply (Hmade r c).
  - unfold normalizeTable. simpl. now rewrite length_map, Hrows.
  - rewrite normalizeTable_flags. simpl. now rewrite Hrows.
  - intros r c Hr Hc. unfold normalizeTable in Hr. simpl in Hr. rewrite Hrows in Hr.
    apply in_map_iff in Hr as (r0 & <- & Hr0). simpl in Hc. unfold padCells in Hc.
    apply in_app_iff in Hc as [Hc|Hc].
    + now apply (Hmade r0 c).
    + apply list_elem_of_In, elem_of_replicate in Hc as [-> _]. now left.
Qed.

Lemma htmlTableToModel_None (tableEl : TableEl) :
  htmlTableToModel tableEl = None <-> trElements tableEl = [].
Proof.
  unfold htmlTableToModel. cbv zeta.
  destruct (trElements tableEl); simpl; split; congruence || discriminate.
Qed.

(** X11.  [htmlTableToModel] returns [null] exactly for a table element
    without a [tr].  Otherwise its model is well formed: it has one row
    for each [tr], in order, every row has as many cells as the table has
    columns, every cell spans one row and one column, and there is one
    alignment for each column.  A row is a header row exactly when its
    [tr] is in the first [thead], or, in a table without rows in a
    [thead], when it is the first row; so the model has a header row.
    The content of every cell is empty or is the text of a cell element of
    the table with its white space normalized. *)
Theorem htmlTableToModel_shape (tableEl : TableEl) :
  (htmlTableToModel tableEl = None <-> trElements tableEl = [])
  /\ forall t,
       htmlTableToModel tableEl = Some t ->
       WellFormed t
       /\ length (rows t) = length (trElements tableEl)
       /\ map isHeader (rows t)
          = imap (headerFlag (negb (existsb fst (trElements tableEl)))) (trElements tableEl)
       /\ (exists r, In r (rows t) /\ isHeader r = true)
       /\ (forall r c, In r (rows t) -> In c (cells r) ->
             content c = []
             \/ exists el, In el (cellElementsOf tableEl)
                           /\ content c = normalizeContent (textContent el)).
Proof.
  split; [apply htmlTableToModel_None|].
  intros t Hmodel.
  destruct (htmlTableToModel_made tableEl t Hmodel) as (Hwf & Hlen & Hflags & Hcontents).
  split; [exact Hwf|]. split; [exact Hlen|]. split; [exact Hflags|]. split; [|exact Hcontents].
  assert (Hne : trElements tableEl <> []).
  { intros Heq. apply htmlTableToModel_None in Heq. congruence. }
  destruct (headerFlag_some (trElements tableEl) Hne) as (i & tr & Hi & Hflag).
  assert (Hlookup : map isHeader (rows t) !! i = Some true).
  { rewrite Hflags, list_lookup_imap, Hi. simpl. now rewrite Hflag. }
  rewrite lookup_map in Hlookup.
  destruct (rows t !! i) as [r|] eqn:Hr; [|discriminate].
  injection Hlookup as Hhead. exists r. split; [|exact Hhead].
  apply list_elem_of_In, list_elem_of_lookup. now exists i.
Qed.

Lemma htmlTableToModel_shape_witness :
  length (rows (createTable
                  [createRow [createCell1 (lit "a"); createCell1 []] true;
                   createRow [createCell1 []; createCell1 (lit "b")] false]
                  [lit "left"; lit "left"]))
  = length (trElements
              (mkTableEl
                 [mkSectionEl TBody
                    [[mkCellEl (lit "a") None (Some (lit "2")) None []; mkCellEl [] None None None []];
                     [mkCellEl (lit "b") None None None []]]])).
Proof.
  apply (proj2 (htmlTableToModel_shape
                  (mkTableEl
                     [mkSectionEl TBody
                        [[mkCellEl (lit "a") None (Some (lit "2")) None [];
                          mkCellEl [] None None None []];
                         [mkCellEl (lit "b") None None None []]]]))).
  reflexivity.
Defined.

(** X12.  The alignments of the model come from the first header row
    alone: each of its cell elements gives its alignment once for every
    column it spans (a filler owed to a rowspan gives none), the list is
    cut to the number of columns of the table, and [left] fills what is
    missing. *)
Theorem htmlTableToModel_alignments (tableEl : TableEl) (t : Table)
    (pre post : list (bool * list CellEl)) (tr : bool * list CellEl) :
  htmlTableToModel tableEl = Some t ->
  trElements tableEl = pre ++ tr :: post ->
  (forall j r, pre !! j = Some r ->
               headerFlag (negb (existsb fst (trElements tableEl))) j r = false) ->
  headerFlag (negb (existsb fst (trElements tableEl))) (length pre) tr = true ->
  let n := Z.to_nat (getColumnCount t) in
  alignments t
  = take n (capturedAlignments (snd tr))
      ++ replicate (n - length (capturedAlignments (snd tr))) (lit "left").
Proof.
  intros Hmodel Htrs Hpre Htr n. unfold htmlTableToModel in Hmodel. cbv zeta in Hmodel.
  destruct (is_nil (trElements tableEl)); [discriminate|].
  injection Hmodel as <-. unfold n. rewrite getColumnCount_normalizeTable.
  rewrite normalizeTable_alignments_shape. simpl alignments.
  assert (Hal : alignmentsAcc (processRows (negb (existsb fst (trElements tableEl))) 0
                                 (trElements tableEl) initialTableState)
                = capturedAlignments (snd tr)).
  { revert Hpre Htr. generalize (negb (existsb fst (trElements tableEl))). intros tfh.
    rewrite Htrs. intros Hpre Htr.
    now rewrite (processRows_alignments tfh pre post tr O initialTableState eq_refl Hpre Htr). }
  rewrite Hal. reflexivity.
Qed.

Lemma htmlTableToModel_alignments_witness :
  alignments
    (createTable
       [createRow [createCell1 (lit "a"); createCell1 []; createCell1 (lit "b")] true;
        createRow [createCell1 (lit "c"); createCell1 []; createCell1 []] false]
       [lit "right"; lit "right"; lit "left"])
  = take 3 [lit "right"; lit "right"; lit "left"] ++ replicate (3 - 3) (lit "left").
Proof.
  apply (htmlTableToModel_alignments
           (mkTableEl
              [mkSectionEl TBody
                 [[mkCellEl (lit "a") (Some (lit "2")) None (Some (lit "RIGHT")) (lit "center");
                   mkCellEl (lit "b") None None None []];
                  [mkCellEl (lit "c") None None (Some (lit "center")) []]]])
           (createTable
              [createRow [createCell1 (lit "a"); createCell1 []; createCell1 (lit "b")] true;
               createRow [createCell1 (lit "c"); createCell1 []; createCell1 []] false]
              [lit "right"; lit "right"; lit "left"])
           [] [(false, [mkCellEl (lit "c") None None (Some (lit "center")) []])]
           (false, [mkCellEl (lit "a") (Some (lit "2")) None (Some (lit "RIGHT")) (lit "center");
                    mkCellEl (lit "b") None None None []]));
    [reflexivity|reflexivity|intros j r Hj; discriminate Hj|reflexivity].
Defined.

(** X13.  In a table without a rowspan above 1 every [tr] is read on its
    own: its row has, for each cell element in order, the content of the
    element followed by empty cells up to its colspan (nothing for a
    colspan that is not a number or is below 1), and then the empty cells
    that [normalizeTable] adds up to the width of the widest row. *)
Theorem htmlTableToModel_no_rowspan (tableEl : TableEl) (t : Table) :
  (forall el, In el (cellElementsOf tableEl) -> gt1 (rowspanOf el) = false) ->
  htmlTableToModel tableEl = Some t ->
  let read :=
    imap (fun j tr =>
            createRow
              (flat_map (fun el => expandedCells (turns (colspanOf el))
                                     (normalizeContent (textContent el))) (snd tr))
              (headerFlag (negb (existsb fst (trElements tableEl))) j tr))
         (trElements tableEl) in
  rows t = map (padRow (getColumnCount (createTable read []))) read.
Proof.
  intros Hplain Hmodel read. unfold htmlTableToModel in Hmodel. cbv zeta in Hmodel.
  destruct (is_nil (trElements tableEl)); [discriminate|].
  injection Hmodel as <-.
  assert (Hall : Forall (fun tr => Forall (fun el => gt1 (rowspanOf el) = false) (snd tr))
                        (trElements tableEl)).
  { apply List.Forall_forall. intros tr Htr. apply List.Forall_forall. intros el Hel.
    apply Hplain. now apply (in_cellElementsOf tableEl tr). }
  pose proof (processRows_no_rowspan (negb (existsb fst (trElements tableEl)))
                (trElements tableEl) O initialTableState eq_refl Hall) as Hrows.
  simpl in Hrows. fold read in Hrows.
  unfold normalizeTable. simpl rows. rewrite Hrows. reflexivity.
Qed.

Lemma htmlTableToModel_no_rowspan_witness :
  rows (createTable
          [createRow [createCell1 (lit "a"); createCell1 []; createCell1 (lit "b")] true;
           createRow [createCell1 (lit "c"); createCell1 []; createCell1 []] false]
          [lit "left"; lit "left"; lit "left"])
  = [createRow [createCell1 (lit "a"); createCell1 []; createCell1 (lit "b")] true;
     createRow [createCell1 (lit "c"); createCell1 []; createCell1 []] false].
Proof.
  apply (htmlTableToModel_no_rowspan
           (mkTableEl
              [mkSectionEl TBody
                 [[mkCellEl (lit "a") (Some (lit "2")) None None [];
                   mkCellEl (lit "b") None None None []];
                  [mkCellEl (lit "c") None None None [];
                   mkCellEl (lit "d") (Some (lit "0")) None None []]]])).
  - intros el Hel. simpl in Hel.
    repeat (destruct Hel as [<-|Hel]; [reflexivity|]). destruct Hel.
  - reflexivity.
Defined.

(** ** [tableModelToMarkdown]: the lines of the table *)

Lemma length_widenBy (row : Row) (widths : list nat) :
  length (widenBy row widths) = length widths.
Proof. apply length_imap. Qed.

Lemma lookup_widenBy (row : Row) (widths : list nat) (i : nat) :
  widenBy row widths !! i
  = (fun w => match cells row !! i with
              | Some cell => Nat.max w (length (escapeMarkdownCell (content cell)))
              | None => w
              end) <$> widths !! i.
Proof. unfold widenBy. now rewrite list_lookup_imap. Qed.

Lemma columnWidths_from (rs : list Row) (widths : list nat) :
  let widths' := fold_left (fun widths row => widenBy row widths) rs widths in
  length widths' = length widths
  /\ forall i w, widths !! i = Some w ->
       exists w', widths' !! i = Some w'
                  /\ (w <= w')%nat
                  /\ forall r cell, In r rs -> cells r !! i = Some cell ->
                       (length (escapeMarkdownCell (content cell)) <= w')%nat.
Proof.
  revert widths. induction rs as [|r rs IH]; intros widths; cbv zeta.
  - simpl. split; [reflexivity|]. intros i w Hi. exists w. split; [exact Hi|].
    split; [lia|]. intros r cell [].
  - simpl fold_left. destruct (IH (widenBy r widths)) as (Hlen & Hcols).
    cbv zeta in Hlen, Hcols. split; [now rewrite Hlen, length_widenBy|].
    intros i w Hi.
    destruct (Hcols i (match cells r !! i with
                       | Some cell => Nat.max w (length (escapeMarkdownCell (content cell)))
                       | None => w
                       end)) as (w' & Hw' & Hle & Hrows).
    { rewrite lookup_widenBy, Hi. reflexivity. }
    exists w'. split; [exact Hw'|]. split.
    + destruct (cells r !! i); lia.
    + intros r' cell [<-|Hr'] Hcell.
      * rewrite Hcell in Hle. lia.
      * now apply (Hrows r' cell).
Qed.

(** The widths of the columns: one for each column, at least 3, and at
    least the length of every escaped content of the column. *)
Lemma columnWidths_spec (n : nat) (rs : list Row) :
  length (columnWidths n rs) = n
  /\ forall i, (i < n)%nat ->
       (3 <= nth i (columnWidths n rs) O)%nat
       /\ forall r cell, In r rs -> cells r !! i = Some cell ->
            (length (escapeMarkdownCell (content cell)) <= nth i (columnWidths n rs) O)%nat.
Proof.
  unfold columnWidths.
  destruct (columnWidths_from rs (replicate n 3%nat)) as (Hlen & Hcols).
  cbv zeta in Hlen, Hcols. rewrite length_replicate in Hlen. split; [exact Hlen|].
  intros i Hi.
  destruct (Hcols i 3%nat) as (w' & Hw' & Hle & Hrows); [now apply lookup_replicate_2|].
  rewrite nth_lookup, Hw'. simpl. split; [exact Hle|exact Hrows].
Qed.

Lemma join_length_ext (sep : jsstring) (ps qs : list jsstring) :
  map (@length ascii) ps = map (@length ascii) qs ->
  length (Js.join sep ps) = length (Js.join sep qs).
Proof.
  revert qs. induction ps as [|p ps IH]; intros [|q qs] Heq; try discriminate; [reflexivity|].
  simpl in Heq. injection Heq as Hp Hrest. specialize (IH qs Hrest).
  destruct ps as [|p' ps], qs as [|q' qs]; try discriminate; [exact Hp|].
  change (Js.join sep (p :: p' :: ps)) with (p ++ sep ++ Js.join sep (p' :: ps)).
  change (Js.join sep (q :: q' :: qs)) with (q ++ sep ++ Js.join sep (q' :: qs)).
  rewrite !length_app, IH, Hp. reflexivity.
Qed.

Lemma length_padEnd (w : nat) (s : jsstring) :
  length (Js.padEnd w s) = Nat.max w (length s).
Proof. unfold Js.padEnd. rewrite length_app, length_replicate. lia. Qed.

Lemma length_separator_piece (align : jsstring) (w : nat) :
  length (if jsEq align "center" then lit ":" ++ Js.repeatChar "-" w ++ lit ":"
          else if jsEq align "right" then Js.repeatChar "-" w ++ lit "-:"
          else Js.repeatChar "-" (w + 2))
  = (w + 2)%nat.
Proof.
  unfold Js.repeatChar.
  destruct (jsEq align "center"); [|destruct (jsEq align "right")];
    rewrite ?length_app, ?length_replicate; simpl; try rewrite length_app;
    rewrite ?length_replicate; simpl; lia.
Qed.

(** A line of the table is as long as the separator line. *)
Lemma markdownRow_length (n : nat) (widths : list nat) (al : list jsstring) (row : Row) :
  (forall i cell, (i < n)%nat -> cells row !! i = Some cell ->
     (length (escapeMarkdownCell (content cell)) <= nth i widths O)%nat) ->
  length (markdownRow n widths row) = length (markdownSeparator n widths al).
Proof.
  intros Hfit. unfold markdownRow, markdownSeparator. cbv zeta.
  rewrite !length_app. f_equal. f_equal. apply join_length_ext.
  rewrite !map_map. apply map_ext_in. intros i Hi. apply in_seq in Hi.
  rewrite length_separator_piece, !length_app, length_padEnd. simpl length.
  destruct (cells row !! i) as [cell|] eqn:Hcell.
  - specialize (Hfit i cell ltac:(lia) Hcell). lia.
  - simpl length. lia.
Qed.

Lemma in_join (sep : jsstring) (ps : list jsstring) (c : ascii) :
  In c (Js.join sep ps) -> In c sep \/ exists p, In p ps /\ In c p.
Proof.
  induction ps as [|p ps IH]; [intros []|].
  destruct ps as [|p' ps].
  - simpl. intros H. right. exists p. split; [now left|exact H].
  - change (Js.join sep (p :: p' :: ps)) with (p ++ sep ++ Js.join sep (p' :: ps)).
    intros H. apply in_app_iff in H as [H|H]; [right; exists p; split; [now left|exact H]|].
    apply in_app_iff in H as [H|H]; [now left|].
    destruct (IH H) as [Hsep|(q & Hq & Hc)]; [now left|].
    right. exists q. split; [now right|exact Hc].
Qed.

Lemma in_escapeMarkdownCell (s : jsstring) (c : ascii) :
  In c (escapeMarkdownCell s) -> In c s \/ c = "\"%char.
Proof.
  unfold escapeMarkdownCell, Js.replaceChar. intros H.
  apply in_flat_map in H as (x & Hx & Hc).
  destruct (Ascii.eqb_spec x "|") as [->|_].
  - simpl in Hc. destruct Hc as [<-|[<-|[]]]; [now right|now left].
  - destruct Hc as [<-|[]]. now left.
Qed.

Lemma markdownRow_one_line (n : nat) (widths : list nat) (row : Row) :
  (forall cell, In cell (cells row) -> ~ In nl (content cell)) ->
  ~ In nl (markdownRow n widths row).
Proof.
  intros Hcells Hin. unfold markdownRow in Hin. cbv zeta in Hin.
  apply in_app_iff in Hin as [Hin|Hin]; [destruct Hin as [Heq|[]]; discriminate Heq|].
  apply in_app_iff in Hin as [Hin|Hin]; [|destruct Hin as [Heq|[]]; discriminate Heq].
  apply in_join in Hin as [Hin|(p & Hp & Hin)]; [destruct Hin as [Heq|[]]; discriminate Heq|].
  apply in_map_iff in Hp as (i & <- & _).
  apply in_app_iff in Hin as [Hin|Hin]; [destruct Hin as [Heq|[]]; discriminate Heq|].
  apply in_app_iff in Hin as [Hin|Hin]; [|destruct Hin as [Heq|[]]; discriminate Heq].
  unfold Js.padEnd in Hin. apply in_app_iff in Hin as [Hin|Hin].
  - destruct (cells row !! i) as [cell|] eqn:Hcell; [|destruct Hin].
    apply in_escapeMarkdownCell in Hin as [Hin|Heq]; [|discriminate Heq].
    apply (Hcells cell); [|exact Hin].
    apply list_elem_of_In, list_elem_of_lookup. now exists i.
  - apply list_elem_of_In, elem_of_replicate in Hin as [Heq _]. discriminate Heq.
Qed.

Lemma markdownSeparator_one_line (n : nat) (widths : list nat) (al : list jsstring) :
  ~ In nl (markdownSeparator n widths al).
Proof.
  intros Hin. unfold markdownSeparator in Hin. cbv zeta in Hin.
  apply in_app_iff in Hin as [Hin|Hin]; [destruct Hin as [Heq|[]]; discriminate Heq|].
  apply in_app_iff in Hin as [Hin|Hin]; [|destruct Hin as [Heq|[]]; discriminate Heq].
  apply in_join in Hin as [Hin|(p & Hp & Hin)]; [destruct Hin as [Heq|[]]; discriminate Heq|].
  apply in_map_iff in Hp as (i & <- & _). unfold Js.repeatChar in Hin.
  destruct (jsEq (alignmentAt al i) "center"); [|destruct (jsEq (alignmentAt al i) "right")];
    repeat (apply in_app_iff in Hin as [Hin|Hin]);
    try (apply list_elem_of_In, elem_of_replicate in Hin as [Heq _]; discriminate Heq);
    try (destruct Hin as [Heq|[Heq|[]]]; discriminate Heq);
    try (destruct Hin as [Heq|[]]; discriminate Heq).
Qed.

Lemma split_one_line (sep : ascii) (s : jsstring) : ~ In sep s -> Js.split sep s = [s].
Proof.
  induction s as [|c s IH]; [reflexivity|]. intros Hin. simpl.
  destruct (Ascii.eqb_spec c sep) as [->|_]; [elim Hin; now left|].
  rewrite IH by (intros H; apply Hin; now right). reflexivity.
Qed.

Lemma split_join (sep : ascii) (ls : list jsstring) :
  ls <> [] -> Forall (fun l => ~ In sep l) ls -> Js.split sep (Js.join [sep] ls) = ls.
Proof.
  intros Hne Hall. induction Hall as [|l ls Hl Hls IH]; [congruence|].
  destruct ls as [|l' ls]; [now apply split_one_line|].
  change (Js.join [sep] (l :: l' :: ls)) with (l ++ sep :: Js.join [sep] (l' :: ls)).
  rewrite split_app, IH by discriminate. now rewrite split_one_line.
Qed.

Lemma filter_lengths {A} (p : A -> bool) (l : list A) :
  (length (List.filter p l) + length (List.filter (fun x => negb (p x)) l))%nat = length l.
Proof.
  induction l as [|x l IH]; [reflexivity|]. simpl. destruct (p x); simpl; lia.
Qed.

Lemma tableModelToMarkdown_parts (t : Table) :
  rows t <> [] ->
  let n := length (alignments t) in
  let widths := columnWidths n (rows t) in
  tableModelToMarkdown t
  = Js.join [nl] (map (markdownRow n widths) (actualHeaders t)
                    ++ [markdownSeparator n widths (alignments t)]
                    ++ map (markdownRow n widths) (actualData t)).
Proof.
  intros Hne n widths. unfold tableModelToMarkdown, actualHeaders, actualData.
  destruct (rows t) as [|row0 rest] eqn:Hrows; [congruence|].
  fold n. rewrite <- Hrows. fold widths. rewrite Hrows.
  destruct (is_nil (List.filter isHeader (row0 :: rest))); reflexivity.
Qed.

Lemma actual_rows (t : Table) :
  (forall r, In r (actualHeaders t ++ actualData t) -> In r (rows t))
  /\ (length (actualHeaders t) + length (actualData t))%nat = length (rows t).
Proof.
  unfold actualHeaders, actualData.
  destruct (is_nil (List.filter isHeader (rows t))).
  - rewrite take_drop. split; [trivial|]. rewrite length_take, length_drop. lia.
  - split; [|apply filter_lengths].
    intros r Hr. apply in_app_iff in Hr as [Hr|Hr]; now apply filter_In in Hr.
Qed.

Lemma markdownRow_pipes (n : nat) (widths : list nat) (row : Row) :
  Js.startsWith "|" (markdownRow n widths row) = true
  /\ Js.endsWith "|" (markdownRow n widths row) = true.
Proof.
  unfold markdownRow. cbv zeta. split; [reflexivity|].
  unfold Js.endsWith. rewrite app_assoc. change (lit "|") with ["|"%char].
  now rewrite last_snoc.
Qed.

Lemma markdownSeparator_pipes (n : nat) (widths : list nat) (al : list jsstring) :
  Js.startsWith "|" (markdownSeparator n widths al) = true
  /\ Js.endsWith "|" (markdownSeparator n widths al) = true.
Proof.
  unfold markdownSeparator. cbv zeta. split; [reflexivity|].
  unfold Js.endsWith. rewrite app_assoc. change (lit "|") with ["|"%char].
  now rewrite last_snoc.
Qed.

(** The lines of the Markdown text of a table. *)
Lemma tableModelToMarkdown_layout (t : Table) :
  rows t <> [] ->
  let n := length (alignments t) in
  let widths := columnWidths n (rows t) in
  let lines := map (markdownRow n widths) (actualHeaders t)
                 ++ [markdownSeparator n widths (alignments t)]
                 ++ map (markdownRow n widths) (actualData t) in
  tableModelToMarkdown t = Js.join [nl] lines
  /\ length lines = S (length (rows t))
  /\ (forall l, In l lines -> Js.startsWith "|" l = true /\ Js.endsWith "|" l = true)
  /\ (forall l l', In l lines -> In l' lines -> length l = length l')
  /\ ((forall r c, In r (rows t) -> In c (cells r) -> ~ In nl (content c)) ->
      Forall (fun l => ~ In nl l) lines).
Proof.
  intros Hne n widths lines.
  destruct (actual_rows t) as (Hin & Hcount).
  assert (Hline : forall l, In l lines ->
                    l = markdownSeparator n widths (alignments t)
                    \/ exists r, In r (rows t) /\ l = markdownRow n widths r).
  { intros l Hl. unfold lines in Hl.
    apply in_app_iff in Hl as [Hl|Hl]; [|apply in_app_iff in Hl as [Hl|Hl]].
    - apply in_map_iff in Hl as (r & <- & Hr). right. exists r. split; [|reflexivity].
      apply Hin, in_app_iff. now left.
    - destruct Hl as [<-|[]]. now left.
    - apply in_map_iff in Hl as (r & <- & Hr). right. exists r. split; [|reflexivity].
      apply Hin, in_app_iff. now right. }
  assert (Hlen : forall l, In l lines ->
                   length l = length (markdownSeparator n widths (alignments t))).
  { intros l Hl. destruct (Hline l Hl) as [->|(r & Hr & ->)]; [reflexivity|].
    apply markdownRow_length. intros i cell Hi Hcell.
    exact (proj2 (proj2 (columnWidths_spec n (rows t)) i Hi) r cell Hr Hcell). }
  split; [now apply tableModelToMarkdown_parts|]. split; [|split; [|split]].
  - unfold lines. rewrite !length_app, !length_map. simpl. lia.
  - intros l Hl. destruct (Hline l Hl) as [->|(r & _ & ->)];
      [apply markdownSeparator_pipes|apply markdownRow_pipes].
  - intros l l' Hl Hl'. now rewrite (Hlen l Hl), (Hlen l' Hl').
  - intros Hcontents. apply List.Forall_forall. intros l Hl.
    destruct (Hline l Hl) as [->|(r & Hr & ->)]; [apply markdownSeparator_one_line|].
    apply markdownRow_one_line. intros cell Hcell. now apply (Hcontents r cell).
Qed.

(** X14.  The Markdown text of a table with rows is made of one line for
    each row and the separator line, joined by line breaks; every line
    starts and ends with a pipe, and all the lines have the same length
    (in code units).  When no cell content has a line break, these are the
    lines of the text. *)
Theorem tableModelToMarkdown_rectangular (t : Table) :
  rows t <> [] ->
  exists lines,
    tableModelToMarkdown t = Js.join [nl] lines
    /\ length lines = S (length (rows t))
    /\ (forall l, In l lines -> Js.startsWith "|" l = true /\ Js.endsWith "|" l = true)
    /\ (forall l l', In l lines -> In l' lines -> length l = length l')
    /\ ((forall r c, In r (rows t) -> In c (cells r) -> ~ In nl (content c)) ->
        Js.split nl (tableModelToMarkdown t) = lines).
Proof.
  intros Hne.
  destruct (tableModelToMarkdown_layout t Hne) as (Hmd & Hcount & Hpipes & Hlen & Hlines).
  cbv zeta in Hmd, Hcount, Hpipes, Hlen, Hlines.
  eexists. split; [exact Hmd|]. split; [exact Hcount|]. split; [exact Hpipes|].
  split; [exact Hlen|].
  intros Hcontents. rewrite Hmd. apply split_join; [|now apply Hlines].
  destruct (map _ (actualHeaders t)); discriminate.
Qed.

Lemma tableModelToMarkdown_rectangular_witness :
  exists lines,
    tableModelToMarkdown
      (createTable [createRow [createCell1 (lit "Name"); createCell1 (lit "n")] true;
                    createRow [createCell1 (lit "a|b"); createCell1 (lit "12345")] false]
                   [lit "left"; lit "right"])
    = Js.join [nl] lines
    /\ length lines = 3%nat
    /\ (forall l, In l lines -> Js.startsWith "|" l = true /\ Js.endsWith "|" l = true)
    /\ (forall l l', In l lines -> In l' lines -> length l = length l')
    /\ ((forall r c,
           In r [createRow [createCell1 (lit "Name"); createCell1 (lit "n")] true;
                 createRow [createCell1 (lit "a|b"); createCell1 (lit "12345")] false] ->
           In c (cells r) -> ~ In nl (content c)) ->
        Js.split nl
          (tableModelToMarkdown
             (createTable [createRow [createCell1 (lit "Name"); createCell1 (lit "n")] true;
                           createRow [createCell1 (lit "a|b"); createCell1 (lit "12345")] false]
                          [lit "left"; lit "right"]))
        = lines).
Proof.
  apply (tableModelToMarkdown_rectangular
           (createTable [createRow [createCell1 (lit "Name"); createCell1 (lit "n")] true;
                         createRow [createCell1 (lit "a|b"); createCell1 (lit "12345")] false]
                        [lit "left"; lit "right"])).
  discriminate.
Defined.

(** ** [htmlToMarkdown]: one line for each row of the table *)

Lemma htmlTableToModel_one_line (tableEl : TableEl) (t : Table) :
  htmlTableToModel tableEl = Some t ->
  forall r c, In r (rows t) -> In c (cells r) ->
    ~ In nl (content c) /\ Js.trim (content c) = content c.
Proof.
  intros Hmodel r c Hr Hc.
  destruct (htmlTableToModel_made tableEl t Hmodel) as (_ & _ & _ & Hcontents).
  destruct (Hcontents r c Hr Hc) as [->|(el & _ & ->)]; [split; [intros []|reflexivity]|].
  split; [apply normalizeContent_one_line|].
  destruct (normalizeContent_single_spaced (textContent el)) as (Hfirst & Hlast & _).
  now apply trim_fixed.
Qed.

(** X15.  [htmlToMarkdown] returns [null] exactly when the sanitizer finds
    no table or its table has no [tr].  Otherwise, however the text of the
    cells is broken into lines, the Markdown text has exactly one line for
    each [tr] of the table and one separator line; every line starts and
    ends with a pipe and all the lines have the same length. *)
Theorem htmlToMarkdown_lines
    (sanitizeWordHtml : jsstring -> option Sanitized) (htmlString : jsstring) :
  (htmlToMarkdown sanitizeWordHtml htmlString = None
   <-> sanitizeWordHtml htmlString = None
       \/ exists sanitized, sanitizeWordHtml htmlString = Some sanitized
                            /\ trElements (table sanitized) = [])
  /\ forall result,
       htmlToMarkdown sanitizeWordHtml htmlString = Some result ->
       exists sanitized,
         sanitizeWordHtml htmlString = Some sanitized
         /\ length (Js.split nl (markdown result)) = S (length (trElements (table sanitized)))
         /\ (forall l, In l (Js.split nl (markdown result)) ->
               Js.startsWith "|" l = true /\ Js.endsWith "|" l = true)
         /\ (forall l l', In l (Js.split nl (markdown result)) ->
                          In l' (Js.split nl (markdown result)) -> length l = length l').
Proof.
  unfold htmlToMarkdown. split.
  - destruct (sanitizeWordHtml htmlString) as [sanitized|]; [|split; [now left|reflexivity]].
    destruct (htmlTableToModel (table sanitized)) as [model|] eqn:Hmodel.
    + split; [discriminate|]. intros [Hnone|(s & [= <-] & Hrows)]; [discriminate|].
      apply htmlTableToModel_None in Hrows. congruence.
    + split; [|reflexivity]. intros _. right. exists sanitized.
      split; [reflexivity|]. now apply htmlTableToModel_None.
  - intros result Hrun.
    destruct (sanitizeWordHtml htmlString) as [sanitized|]; [|discriminate].
    destruct (htmlTableToModel (table sanitized)) as [model|] eqn:Hmodel; [|discriminate].
    injection Hrun as <-. cbn [markdown]. exists sanitized. split; [reflexivity|].
    destruct (htmlTableToModel_made _ _ Hmodel) as ((Hne & _) & Hcount & _).
    destruct (tableModelToMarkdown_layout model Hne) as (Hmd & Hlines & Hpipes & Hlen & Hone).
    cbv zeta in Hmd, Hlines, Hpipes, Hlen, Hone.
    rewrite Hmd, split_join.
    + rewrite Hlines, Hcount. split; [reflexivity|]. split; [exact Hpipes|exact Hlen].
    + destruct (map _ (actualHeaders model)); discriminate.
    + apply Hone. intros r c Hr Hc. now apply (htmlTableToModel_one_line _ _ Hmodel r c).
Qed.

Lemma htmlToMarkdown_lines_witness :
  exists sanitized,
    (fun _ : jsstring =>
       Some {| table := mkTableEl [mkSectionEl TBody
                                     [[mkCellEl (lit "a") None None None []];
                                      [mkCellEl ("b"%char :: nl :: lit "c") None None None []]]];
               tableCount := 1 |}) (lit "<table>")
    = Some sanitized
    /\ length (Js.split nl (lit "| a   |" ++ nl :: lit "|-----|" ++ nl :: lit "| b c |"))
       = S (length (trElements (table sanitized)))
    /\ (forall l,
          In l (Js.split nl (lit "| a   |" ++ nl :: lit "|-----|" ++ nl :: lit "| b c |")) ->
          Js.startsWith "|" l = true /\ Js.endsWith "|" l = true)
    /\ (forall l l',
          In l (Js.split nl (lit "| a   |" ++ nl :: lit "|-----|" ++ nl :: lit "| b c |")) ->
          In l' (Js.split nl (lit "| a   |" ++ nl :: lit "|-----|" ++ nl :: lit "| b c |")) ->
          length l = length l').
Proof.
  apply (proj2 (htmlToMarkdown_lines
                  (fun _ : jsstring =>
                     Some {| table := mkTableEl
                                        [mkSectionEl TBody
                                           [[mkCellEl (lit "a") None None None []];
                                            [mkCellEl ("b"%char :: nl :: lit "c") None None None []]]];
                             tableCount := 1 |})
                  (lit "<table>"))
           {| markdown := lit "| a   |" ++ nl :: lit "|-----|" ++ nl :: lit "| b c |";
              warnings := [] |}).
  reflexivity.
Defined.

(** ** From the Markdown text back to the model *)

Lemma markdownLines_join (lines : list jsstring) :
  Forall (fun l => ~ In nl l) lines ->
  (forall l, In l lines -> Js.startsWith "|" l = true /\ Js.endsWith "|" l = true) ->
  markdownLines (Js.join [nl] lines) = lines.
Proof.
  intros Hone Hpipes. destruct lines as [|l0 ls]; [reflexivity|].
  unfold markdownLines. rewrite split_join by (discriminate || exact Hone).
  clear Hone. induction (l0 :: ls) as [|l lines IH]; [reflexivity|].
  destruct (Hpipes l (or_introl eq_refl)) as (Hstart & Hend).
  apply startsWith_spec in Hstart as (r & Hr). apply endsWith_spec in Hend as (r' & Hr').
  assert (Htrim : Js.trim l = l).
  { apply trim_fixed.
    - rewrite Hr. reflexivity.
    - unfold lastNonSpace. rewrite Hr', last_snoc. reflexivity. }
  simpl. rewrite Htrim. rewrite Hr at 1. simpl. f_equal.
  apply IH. intros l' Hl'. apply Hpipes. now right.
Qed.

Lemma join_in (sep : jsstring) (ps : list jsstring) (p : jsstring) (c : ascii) :
  In p ps -> In c p -> In c (Js.join sep ps).
Proof.
  induction ps as [|q ps IH]; [intros []|]. intros Hp Hc.
  destruct ps as [|q' ps].
  - destruct Hp as [->|[]]. exact Hc.
  - change (Js.join sep (q :: q' :: ps)) with (q ++ sep ++ Js.join sep (q' :: ps)).
    apply in_app_iff. destruct Hp as [->|Hp]; [now left|].
    right. apply in_app_iff. right. now apply IH.
Qed.

Lemma escapeMarkdownCell_in (s : jsstring) (c : ascii) :
  In c (escapeMarkdownCell s) -> (In c s /\ c <> "|"%char) \/ In "|"%char s.
Proof.
  unfold escapeMarkdownCell, Js.replaceChar. intros H.
  apply in_flat_map in H as (x & Hx & Hc).
  destruct (Ascii.eqb_spec x "|") as [->|Hne]; [now right|].
  destruct Hc as [<-|[]]. now left.
Qed.

Lemma in_escapeMarkdownCell_kept (s : jsstring) (c : ascii) :
  In c s -> c <> "|"%char -> In c (escapeMarkdownCell s).
Proof.
  intros Hc Hne. unfold escapeMarkdownCell, Js.replaceChar. apply in_flat_map.
  exists c. split; [exact Hc|]. destruct (Ascii.eqb_spec c "|"); [contradiction|now left].
Qed.

Lemma in_escapeMarkdownCell_pipe (s : jsstring) :
  In "|"%char s -> In "\"%char (escapeMarkdownCell s).
Proof.
  intros Hc. unfold escapeMarkdownCell, Js.replaceChar. apply in_flat_map.
  exists "|"%char. split; [exact Hc|]. now left.
Qed.

Lemma line_between_pipes (inner dim : jsstring) :
  lit "|" ++ inner ++ lit "|" = "|"%char :: dim ++ ["|"%char] -> dim = inner.
Proof.
  simpl. intros [= H]. change (lit "|") with ["|"%char] in H.
  now apply app_inj_tail in H as [-> _].
Qed.

(** A line of the table does not look like a separator when one of its
    contents has a character that is no dash, colon or white space. *)
Lemma markdownRow_not_separator (n : nat) (widths : list nat) (row : Row) (i : nat) (x : ascii) :
  (i < n)%nat -> In x (contentAt row i) -> dashLike x = false ->
  SEPARATOR_RE_test (markdownRow n widths row) = false.
Proof.
  intros Hi Hx Hdash.
  destruct (SEPARATOR_RE_test (markdownRow n widths row)) eqn:Htest; [|reflexivity].
  apply SEPARATOR_RE_test_spec in Htest as (dim & _ & Hline & Hall).
  rewrite markdownRow_cellText in Hline. apply line_between_pipes in Hline as ->.
  rewrite forallb_forall in Hall.
  assert (Hpiece : forall c, In c (escapeMarkdownCell (contentAt row i)) ->
                             isSeparatorChar c = true).
  { intros c Hc. apply Hall.
    apply (join_in _ _ (cellText (nth i widths O) (contentAt row i))).
    - apply in_map_iff. exists i. split; [reflexivity|]. apply in_seq. lia.
    - unfold cellText, Js.padEnd. apply in_app_iff. right. apply in_app_iff. left.
      apply in_app_iff. now left. }
  destruct (Ascii.eqb_spec x "|") as [->|Hne].
  - now pose proof (Hpiece _ (in_escapeMarkdownCell_pipe _ Hx)).
  - pose proof (Hpiece _ (in_escapeMarkdownCell_kept _ _ Hx Hne)) as Hsep.
    unfold isSeparatorChar in Hsep. unfold dashLike in Hdash.
    apply Ascii.eqb_neq in Hne.
    destruct (Js.isSpace x), (Ascii.eqb x ":"), (Ascii.eqb x "-"), (Ascii.eqb x "|");
      simpl in *; congruence.
Qed.

Lemma join_nonempty (sep : jsstring) (p : jsstring) (ps : list jsstring) :
  p <> [] -> Js.join sep (p :: ps) <> [].
Proof.
  intros Hp. destruct ps as [|q ps]; [exact Hp|].
  change (Js.join sep (p :: q :: ps)) with (p ++ sep ++ Js.join sep (q :: ps)).
  destruct p; [congruence|discriminate].
Qed.

(** A line of the table looks like a separator when its contents are
    made of dashes, colons and white space. *)
Lemma markdownRow_separator (n : nat) (widths : list nat) (row : Row) :
  (0 < n)%nat ->
  (forall i x, (i < n)%nat -> In x (contentAt row i) -> dashLike x = true) ->
  SEPARATOR_RE_test (markdownRow n widths row) = true.
Proof.
  intros Hn Hdash. apply SEPARATOR_RE_test_spec.
  rewrite markdownRow_cellText. eexists. split; [|split; [reflexivity|]].
  - destruct n as [|n]; [lia|]. simpl seq. simpl map. apply join_nonempty. discriminate.
  - apply forallb_forall. intros c Hc.
    apply in_join in Hc as [Hc|(p & Hp & Hc)]; [destruct Hc as [<-|[]]; reflexivity|].
    apply in_map_iff in Hp as (i & <- & Hi). apply in_seq in Hi.
    unfold cellText, Js.padEnd in Hc.
    apply in_app_iff in Hc as [Hc|Hc]; [destruct Hc as [<-|[]]; reflexivity|].
    apply in_app_iff in Hc as [Hc|Hc]; [|destruct Hc as [<-|[]]; reflexivity].
    apply in_app_iff in Hc as [Hc|Hc].
    + assert (Hnopipe : ~ In "|"%char (contentAt row i)).
      { intros Hpipe. now pose proof (Hdash i _ ltac:(lia) Hpipe). }
      apply escapeMarkdownCell_in in Hc as [(Hc & _)|Hpipe]; [|contradiction].
      pose proof (Hdash i c ltac:(lia) Hc) as Hd. unfold dashLike in Hd.
      unfold isSeparatorChar.
      destruct (Js.isSpace c), (Ascii.eqb c ":"), (Ascii.eqb c "-"); simpl in *;
        rewrite ?orb_true_r; congruence.
    + apply list_elem_of_In, elem_of_replicate in Hc as [-> _]. reflexivity.
Qed.

(** The pieces of the separator line. *)
Lemma separator_piece_chars (align : jsstring) (w : nat) (c : ascii) :
  In c (if jsEq align "center" then lit ":" ++ Js.repeatChar "-" w ++ lit ":"
        else if jsEq align "right" then Js.repeatChar "-" w ++ lit "-:"
        else Js.repeatChar "-" (w + 2)) ->
  c = "-"%char \/ c = ":"%char.
Proof.
  unfold Js.repeatChar.
  destruct (jsEq align "center"); [|destruct (jsEq align "right")]; intros Hc;
    repeat (apply in_app_iff in Hc as [Hc|Hc]);
    try (apply list_elem_of_In, elem_of_replicate in Hc as [-> _]; now left);
    simpl in Hc; intuition (subst; auto).
Qed.

Lemma markdownSeparator_separator (n : nat) (widths : list nat) (al : list jsstring) :
  (0 < n)%nat -> SEPARATOR_RE_test (markdownSeparator n widths al) = true.
Proof.
  intros Hn. apply SEPARATOR_RE_test_spec. unfold markdownSeparator. cbv zeta.
  eexists. split; [|split; [reflexivity|]].
  - destruct n as [|n]; [lia|]. simpl seq. simpl map. apply join_nonempty.
    unfold Js.repeatChar.
    destruct (jsEq _ "center"); [discriminate|]. destruct (jsEq _ "right").
    + destruct (nth 0 widths O); discriminate.
    + rewrite Nat.add_comm. discriminate.
  - apply forallb_forall. intros c Hc.
    apply in_join in Hc as [Hc|(p & Hp & Hc)]; [destruct Hc as [<-|[]]; reflexivity|].
    apply in_map_iff in Hp as (i & <- & _).
    apply separator_piece_chars in Hc as [->| ->]; reflexivity.
Qed.

Lemma findSeparator_app (hs ds : list jsstring) (s : jsstring) (i : nat) :
  (forall l, In l hs -> SEPARATOR_RE_test l = false) ->
  SEPARATOR_RE_test s = true ->
  findSeparator i (hs ++ s :: ds) = Some (i + length hs)%nat.
Proof.
  revert i. induction hs as [|h hs IH]; intros i Hhs Hs; simpl.
  - rewrite Hs. f_equal. lia.
  - rewrite (Hhs h (or_introl eq_refl)). rewrite IH; [f_equal; lia| |exact Hs].
    intros l Hl. apply Hhs. now right.
Qed.

Lemma alignWord_alignmentAt (al : list jsstring) (i : nat) (a : jsstring) :
  al !! i = Some a -> alignWord (alignmentAt al i) = alignWord a.
Proof. unfold alignmentAt. intros ->. now destruct a. Qed.

Lemma trim_no_space (s : jsstring) :
  (forall c, In c s -> Js.isSpace c = false) -> Js.trim s = s.
Proof.
  intros Hall. apply trim_fixed.
  - destruct s as [|c s]; [exact I|]. apply Hall. now left.
  - unfold lastNonSpace. destruct (last s) as [c|] eqn:Hlast; [|exact I].
    apply last_Some in Hlast as (r & ->). apply Hall, in_app_iff. right. now left.
Qed.

Lemma endsWith_snoc (c x : ascii) (s : jsstring) :
  Js.endsWith c (s ++ [x]) = Ascii.eqb x c.
Proof. unfold Js.endsWith. now rewrite last_snoc. Qed.

Lemma alignmentOfSegment_piece (align : jsstring) (w : nat) :
  alignmentOfSegment
    (if jsEq align "center" then lit ":" ++ Js.repeatChar "-" w ++ lit ":"
     else if jsEq align "right" then Js.repeatChar "-" w ++ lit "-:"
     else Js.repeatChar "-" (w + 2))
  = alignWord align.
Proof.
  unfold alignmentOfSegment. cbv zeta.
  rewrite trim_no_space
    by (intros c Hc; apply separator_piece_chars in Hc as [->| ->]; reflexivity).
  unfold alignWord, Js.repeatChar.
  destruct (jsEq align "center"); [|destruct (jsEq align "right")].
  - change (lit ":" ++ replicate w "-"%char ++ lit ":")
      with (":"%char :: replicate w "-"%char ++ [":"%char]).
    rewrite app_comm_cons, endsWith_snoc. reflexivity.
  - change (lit "-:") with (["-"%char] ++ [":"%char]).
    rewrite app_assoc, endsWith_snoc.
    replace (Js.startsWith ":" ((replicate w "-"%char ++ ["-"%char]) ++ [":"%char]))
      with false by (now destruct w). reflexivity.
  - replace (w + 2)%nat with (S (S w)) by lia.
    rewrite replicate_S_end, endsWith_snoc. reflexivity.
Qed.

Lemma parseAlignments_markdownSeparator (n : nat) (widths : list nat) (al : list jsstring) :
  (0 < n)%nat ->
  parseAlignments (markdownSeparator n widths al)
  = map (fun i => alignWord (alignmentAt al i)) (seq 0 n).
Proof.
  intros Hn. unfold parseAlignments, markdownSeparator. cbv zeta.
  rewrite stripPipes_between. change (lit "|") with ["|"%char].
  rewrite split_join.
  - rewrite map_map. apply map_ext. intros i. apply alignmentOfSegment_piece.
  - destruct n; [lia|]. discriminate.
  - apply List.Forall_forall. intros p Hp Hc.
    apply in_map_iff in Hp as (i & <- & _).
    apply separator_piece_chars in Hc as [Hc|Hc]; discriminate Hc.
Qed.

Lemma map_seq_lookup {A B} (f : option A -> B) (l : list A) :
  map (fun i => f (l !! i)) (seq 0 (length l)) = map (fun x => f (Some x)) l.
Proof.
  induction l as [|x l IH]; [reflexivity|].
  cbn [length seq map]. rewrite <- seq_shift, map_map. f_equal. exact IH.
Qed.

(** A row of [n] cells of one row and one column with trimmed contents is
    read again from its line. *)
Lemma rowOfLine_markdownRow (n : nat) (widths : list nat) (row : Row) (header : bool) :
  (0 < n)%nat -> length (cells row) = n ->
  (forall c, In c (cells row) -> unitCell c /\ Js.trim (content c) = content c) ->
  rowOfLine header (markdownRow n widths row) = createRow (cells row) header.
Proof.
  intros Hn Hlen Hcells. unfold rowOfLine. f_equal.
  rewrite parseCells_markdownRow by exact Hn. rewrite map_map. unfold contentAt.
  rewrite <- Hlen.
  rewrite (map_seq_lookup (fun o => createCell1 (Js.trim match o with
                                                         | Some cell => content cell
                                                         | None => []
                                                         end))).
  transitivity (map (fun c => c) (cells row)); [|apply map_id].
  apply map_ext_in. intros c Hc. destruct (Hcells c Hc) as ((Hcol & Hrow) & ->).
  destruct c as [x cs rs]. simpl in *. now subst.
Qed.

Lemma table_eq (t1 t2 : Table) :
  alignments t1 = alignments t2 -> rows t1 = rows t2 -> t1 = t2.
Proof. destruct t1, t2. simpl. now intros -> ->. Qed.

Lemma actualHeaders_nonempty (t : Table) : rows t <> [] -> actualHeaders t <> [].
Proof.
  intros Hne. unfold actualHeaders.
  destruct (List.filter isHeader (rows t)) as [|r rs] eqn:Hf; simpl; [|discriminate].
  destruct (rows t); [congruence|discriminate].
Qed.

(** The Markdown text of a well-formed table with a column is parsed back
    into its rows, the header rows first, when the contents are trimmed
    and on one line, and no line above the separator looks like one. *)
Lemma parse_tableModelToMarkdown (t : Table) :
  WellFormed t -> 0 < getColumnCount t ->
  (forall r c, In r (rows t) -> In c (cells r) ->
     ~ In nl (content c) /\ Js.trim (content c) = content c) ->
  (forall r, In r (actualHeaders t) ->
     exists c x, In c (cells r) /\ In x (content c) /\ dashLike x = false) ->
  parseMarkdownTable (tableModelToMarkdown t)
  = Some {| alignments := map alignWord (alignments t);
            rows := map (fun r => createRow (cells r) true) (actualHeaders t)
                      ++ map (fun r => createRow (cells r) false) (actualData t) |}.
Proof.
  intros (Hne & Hrows & Hal) Hcols Hcontents Hheaders.
  set (n := length (alignments t)) in *. set (widths := columnWidths n (rows t)).
  assert (Hn : (0 < n)%nat) by lia.
  destruct (actual_rows t) as (Hin & Hcount).
  assert (Hrow : forall r, In r (rows t) ->
                   length (cells r) = n
                   /\ forall c, In c (cells r) -> unitCell c /\ Js.trim (content c) = content c).
  { intros r Hr. destruct (Hrows r Hr) as (Hlen & Hunit). split; [lia|].
    intros c Hc. split; [now apply Hunit|now apply (Hcontents r c)]. }
  destruct (tableModelToMarkdown_layout t Hne) as (Hmd & Hlen & Hpipes & _ & Hone).
  cbv zeta in Hmd, Hlen, Hpipes, Hone. fold n in Hmd, Hlen, Hpipes, Hone.
  fold widths in Hmd, Hlen, Hpipes, Hone.
  assert (Honeline : forall r c, In r (rows t) -> In c (cells r) -> ~ In nl (content c))
    by (intros r c Hr Hc; now apply (Hcontents r c)).
  specialize (Hone Honeline).
  unfold parseMarkdownTable. rewrite Hmd, (markdownLines_join _ Hone Hpipes).
  set (hs := map (markdownRow n widths) (actualHeaders t)) in *.
  set (ds := map (markdownRow n widths) (actualData t)) in *.
  set (sep := markdownSeparator n widths (alignments t)) in *.
  change (hs ++ [sep] ++ ds) with (hs ++ sep :: ds) in *.
  assert (Hsome : (0 < length (rows t))%nat) by (destruct (rows t); [congruence|simpl; lia]).
  destruct (Nat.ltb_spec (length (hs ++ sep :: ds)) 2) as [Hshort|_]; [lia|].
  rewrite (findSeparator_app hs ds sep 0).
  2:{ intros l Hl. apply in_map_iff in Hl as (r & <- & Hr).
      destruct (Hheaders r Hr) as (c & x & Hc & Hx & Hdash).
      apply list_elem_of_In, list_elem_of_lookup in Hc as (i & Hi).
      assert (Hrt : In r (rows t)) by (apply Hin, in_app_iff; now left).
      destruct (Hrow r Hrt) as (Hlenr & _).
      apply (markdownRow_not_separator n widths r i x).
      - apply lookup_lt_Some in Hi. lia.
      - unfold contentAt. now rewrite Hi.
      - exact Hdash. }
  2:{ now apply markdownSeparator_separator. }
  simpl Nat.add. rewrite nth_middle, take_app_length.
  rewrite (cons_middle sep hs ds), app_assoc, drop_app_length'
    by (rewrite length_app; simpl; lia).
  unfold sep at 1. rewrite parseAlignments_markdownSeparator by exact Hn.
  assert (Hheads : map (rowOfLine true) hs
                   = map (fun r => createRow (cells r) true) (actualHeaders t)).
  { unfold hs. rewrite map_map. apply map_ext_in. intros r Hr.
    assert (Hrt : In r (rows t)) by (apply Hin, in_app_iff; now left).
    destruct (Hrow r Hrt) as (Hlenr & Hcells). now apply rowOfLine_markdownRow. }
  assert (Hdata : map (rowOfLine false) ds
                  = map (fun r => createRow (cells r) false) (actualData t)).
  { unfold ds. rewrite map_map. apply map_ext_in. intros r Hr.
    assert (Hrt : In r (rows t)) by (apply Hin, in_app_iff; now right).
    destruct (Hrow r Hrt) as (Hlenr & Hcells). now apply rowOfLine_markdownRow. }
  rewrite Hheads, Hdata.
  assert (Haligns : map (fun i => alignWord (alignmentAt (alignments t) i)) (seq 0 n)
                    = map alignWord (alignments t)).
  { unfold n, alignmentAt.
    rewrite (map_seq_lookup (fun o => alignWord match o with
                                                | Some (c :: s) => c :: s
                                                | _ => lit "left"
                                                end)).
    apply map_ext. intros a. now destruct a. }
  rewrite Haligns. f_equal.
  set (R := map (fun r => createRow (cells r) true) (actualHeaders t)
              ++ map (fun r => createRow (cells r) false) (actualData t)).
  destruct (normalizeTable_rect (createTable R (map alignWord (alignments t))) (Z.of_nat n))
    as (Hcount' & Hsame).
  - simpl. unfold R. pose proof (actualHeaders_nonempty t Hne) as Hh.
    destruct (actualHeaders t); [congruence|discriminate].
  - lia.
  - simpl. intros r' Hr'. unfold R in Hr'.
    assert (Hfrom : exists r, In r (rows t) /\ cells r' = cells r).
    { apply in_app_iff in Hr' as [Hr'|Hr']; apply in_map_iff in Hr' as (r & <- & Hr);
        exists r; (split; [apply Hin, in_app_iff; auto|reflexivity]). }
    destruct Hfrom as (r & Hr & ->). destruct (Hrow r Hr) as (Hlenr & Hcells).
    rewrite colspanSum_unit; [now rewrite Hlenr|].
    apply List.Forall_forall. intros c Hc. now destruct (Hcells c Hc) as ((? & _) & _).
  - apply table_eq; [|exact Hsame].
    rewrite normalizeTable_alignments_shape, Hcount'. simpl alignments.
    rewrite Nat2Z.id, take_ge by (rewrite length_map; fold n; lia).
    rewrite length_map. fold n. rewrite Nat.sub_diag. apply app_nil_r.
Qed.

(** X16.  Reading the Markdown text of a table: for a well-formed table
    with at least one column whose contents are trimmed and without line
    breaks, and whose header rows each have a character other than dashes,
    colons and white space, [parseMarkdownTable] reads from the text of
    [tableModelToMarkdown] the same cells, the header rows first, and the
    alignments [center] and [right], with [left] for any other word.  A
    table with a header row and its header rows first is read back as it
    is, but for the alignments. *)
Theorem tableModelToMarkdown_parsed_back (t : Table) :
  WellFormed t -> 0 < getColumnCount t ->
  (forall r c, In r (rows t) -> In c (cells r) ->
     ~ In nl (content c) /\ Js.trim (content c) = content c) ->
  (forall r, In r (actualHeaders t) ->
     exists c x, In c (cells r) /\ In x (content c) /\ dashLike x = false) ->
  parseMarkdownTable (tableModelToMarkdown t)
  = Some {| alignments := map alignWord (alignments t);
            rows := map (fun r => createRow (cells r) true) (actualHeaders t)
                      ++ map (fun r => createRow (cells r) false) (actualData t) |}
  /\ (headersFirst t -> List.filter isHeader (rows t) <> [] ->
      parseMarkdownTable (tableModelToMarkdown t)
      = Some {| alignments := map alignWord (alignments t); rows := rows t |}).
Proof.
  intros Hwf Hcols Hcontents Hheaders.
  pose proof (parse_tableModelToMarkdown t Hwf Hcols Hcontents Hheaders) as Hparse.
  split; [exact Hparse|].
  intros Hfirst Hsome. rewrite Hparse. do 2 f_equal.
  unfold actualHeaders, actualData.
  destruct (List.filter isHeader (rows t)) as [|h hs] eqn:Hf; [congruence|]. simpl is_nil.
  cbv iota. rewrite <- Hf. unfold headersFirst in Hfirst. rewrite <- Hfirst at 3. f_equal.
  - transitivity (map (fun r => r) (List.filter isHeader (rows t))); [|apply map_id].
    apply map_ext_in. intros r Hr. apply filter_In in Hr as (_ & Hr).
    destruct r as [h' cs]. simpl in *. now subst.
  - transitivity (map (fun r => r) (List.filter (fun r => negb (isHeader r)) (rows t)));
      [|apply map_id].
    apply map_ext_in. intros r Hr. apply filter_In in Hr as (_ & Hr).
    destruct r as [h' cs]. simpl in *. destruct h'; [discriminate|reflexivity].
Qed.

Lemma tableModelToMarkdown_parsed_back_witness :
  parseMarkdownTable
    (tableModelToMarkdown
       (createTable [createRow [createCell1 (lit "Name"); createCell1 (lit "--")] true;
                     createRow [createCell1 (lit "a|b"); createCell1 []] false]
                    [lit "justify"; lit "center"]))
  = Some {| alignments := map alignWord [lit "justify"; lit "center"];
            rows := [createRow [createCell1 (lit "Name"); createCell1 (lit "--")] true;
                     createRow [createCell1 (lit "a|b"); createCell1 []] false] |}.
Proof.
  apply (tableModelToMarkdown_parsed_back
           (createTable [createRow [createCell1 (lit "Name"); createCell1 (lit "--")] true;
                         createRow [createCell1 (lit "a|b"); createCell1 []] false]
                        [lit "justify"; lit "center"])).
  - split; [discriminate|]. split; [|reflexivity].
    intros r [<-|[<-|[]]]; (split; [reflexivity|]);
      intros c Hc; simpl in Hc; intuition (subst; split; reflexivity).
  - reflexivity.
  - intros r c [<-|[<-|[]]] Hc; simpl in Hc;
      destruct Hc as [<-|[<-|[]]]; (split; [|reflexivity]); simpl;
      intros Hnl; repeat (destruct Hnl as [Hnl|Hnl]; [discriminate Hnl|]); exact Hnl.
  - intros r [<-|[]]. exists (createCell1 (lit "Name")), "N"%char.
    split; [now left|]. split; [now left|reflexivity].
  - reflexivity.
  - discriminate.
Defined.

Lemma markdownRow_no_columns (widths : list nat) (row : Row) :
  markdownRow 0 widths row = lit "||".
Proof. reflexivity. Qed.

Lemma markdownSeparator_no_columns (widths : list nat) (al : list jsstring) :
  markdownSeparator 0 widths al = lit "||".
Proof. reflexivity. Qed.

(** The text of a table without columns has no separator line. *)
Lemma parse_no_columns (t : Table) :
  alignments t = [] -> parseMarkdownTable (tableModelToMarkdown t) = None.
Proof.
  intros Hal. destruct (rows t) as [|r0 rs] eqn:Hrows.
  { unfold tableModelToMarkdown. rewrite Hrows. reflexivity. }
  assert (Hne : rows t <> []) by (rewrite Hrows; discriminate).
  destruct (tableModelToMarkdown_layout t Hne) as (Hmd & _ & Hpipes & _).
  cbv zeta in Hmd, Hpipes. rewrite Hal in Hmd, Hpipes. simpl length in Hmd, Hpipes.
  assert (Hlines : forall l,
            In l (map (markdownRow 0 (columnWidths 0 (rows t))) (actualHeaders t)
                    ++ [markdownSeparator 0 (columnWidths 0 (rows t)) []]
                    ++ map (markdownRow 0 (columnWidths 0 (rows t))) (actualData t)) ->
            l = lit "||").
  { intros l Hl. apply in_app_iff in Hl as [Hl|Hl]; [|apply in_app_iff in Hl as [Hl|Hl]].
    - now apply in_map_iff in Hl as (r & <- & _).
    - now destruct Hl as [<-|[]].
    - now apply in_map_iff in Hl as (r & <- & _). }
  unfold parseMarkdownTable. rewrite Hmd, markdownLines_join.
  - rewrite (proj2 (findSeparator_None _ 0)); [now destruct (_ <? _)%nat|].
    intros l Hl. now rewrite (Hlines l Hl).
  - apply List.Forall_forall. intros l Hl. rewrite (Hlines l Hl).
    intros [H|[H|[]]]; discriminate H.
  - exact Hpipes.
Qed.

(** X17.  From HTML to Markdown and back to the model.  When
    [htmlToMarkdown] succeeds on a table with at least one column, and
    every line it writes above the separator has a character other than
    dashes, colons and white space, [parseMarkdownTable] reads from its
    Markdown text the cells of the model of the table, the header rows
    first, with the alignments [center] and [right], and [left] for any
    other word.  For a table without columns (no [tr] has a cell) the
    Markdown text has no separator line and [parseMarkdownTable] returns
    [null]. *)
Theorem htmlToMarkdown_parsed_back
    (sanitizeWordHtml : jsstring -> option Sanitized) (htmlString : jsstring)
    (result : Converted) :
  htmlToMarkdown sanitizeWordHtml htmlString = Some result ->
  exists sanitized model,
    sanitizeWordHtml htmlString = Some sanitized
    /\ htmlTableToModel (table sanitized) = Some model
    /\ (0 < getColumnCount model ->
        (forall r, In r (actualHeaders model) ->
           exists c x, In c (cells r) /\ In x (content c) /\ dashLike x = false) ->
        parseMarkdownTable (markdown result)
        = Some {| alignments := map alignWord (alignments model);
                  rows := map (fun r => createRow (cells r) true) (actualHeaders model)
                            ++ map (fun r => createRow (cells r) false) (actualData model) |})
    /\ (getColumnCount model = 0 -> parseMarkdownTable (markdown result) = None).
Proof.
  unfold htmlToMarkdown. intros Hrun.
  destruct (sanitizeWordHtml htmlString) as [sanitized|]; [|discriminate].
  destruct (htmlTableToModel (table sanitized)) as [model|] eqn:Hmodel; [|discriminate].
  injection Hrun as <-. cbn [markdown]. exists sanitized, model.
  split; [reflexivity|]. split; [exact Hmodel|].
  destruct (htmlTableToModel_made _ _ Hmodel) as (Hwf & _).
  split.
  - intros Hcols Hheaders. apply parse_tableModelToMarkdown; try assumption.
    intros r c Hr Hc. now apply (htmlTableToModel_one_line _ _ Hmodel r c).
  - intros Hzero. apply parse_no_columns.
    destruct Hwf as (_ & _ & Hal). destruct (alignments model); [reflexivity|].
    simpl in Hal. lia.
Qed.

Lemma htmlToMarkdown_parsed_back_witness :
  exists sanitized model,
    (fun _ : jsstring =>
       Some {| table := mkTableEl [mkSectionEl TBody
                                     [[mkCellEl (lit "a") None None None []];
                                      [mkCellEl ("b"%char :: nl :: lit "c") None None None []]]];
               tableCount := 1 |}) (lit "<table>")
    = Some sanitized
    /\ htmlTableToModel (table sanitized) = Some model
    /\ (0 < getColumnCount model ->
        (forall r, In r (actualHeaders model) ->
           exists c x, In c (cells r) /\ In x (content c) /\ dashLike x = false) ->
        parseMarkdownTable (lit "| a   |" ++ nl :: lit "|-----|" ++ nl :: lit "| b c |")
        = Some {| alignments := map alignWord (alignments model);
                  rows := map (fun r => createRow (cells r) true) (actualHeaders model)
                            ++ map (fun r => createRow (cells r) false) (actualData model) |})
    /\ (getColumnCount model = 0 ->
        parseMarkdownTable (lit "| a   |" ++ nl :: lit "|-----|" ++ nl :: lit "| b c |") = None).
Proof.
  apply (htmlToMarkdown_parsed_back
           (fun _ : jsstring =>
              Some {| table := mkTableEl
                                 [mkSectionEl TBody
                                    [[mkCellEl (lit "a") None None None []];
                                     [mkCellEl ("b"%char :: nl :: lit "c") None None None []]]];
                      tableCount := 1 |})
           (lit "<table>")
           {| markdown := lit "| a   |" ++ nl :: lit "|-----|" ++ nl :: lit "| b c |";
              warnings := [] |}).
  reflexivity.
Defined.

(** X18.  A first line made of dashes, colons and white space is taken for
    the separator.  When the contents of the first row that
    [tableModelToMarkdown] writes are all of that kind (an empty header
    row, for instance), [parseMarkdownTable] finds the separator in the
    first line of the text: the table it reads has no header row, and the
    separator line that was written is one of its data rows, so it has as
    many rows as the table that was written. *)
Theorem tableModelToMarkdown_dash_header (t : Table) (r0 : Row) (hs : list Row) :
  alignments t <> [] ->
  (forall r c, In r (rows t) -> In c (cells r) -> ~ In nl (content c)) ->
  actualHeaders t = r0 :: hs ->
  (forall c x, In c (cells r0) -> In x (content c) -> dashLike x = true) ->
  exists t',
    parseMarkdownTable (tableModelToMarkdown t) = Some t'
    /\ map isHeader (rows t') = replicate (length (rows t)) false.
Proof.
  intros Hal Hcontents Hheaders Hdash.
  assert (Hne : rows t <> []).
  { intros Heq. unfold actualHeaders in Hheaders. rewrite Heq in Hheaders. discriminate. }
  set (n := length (alignments t)). set (widths := columnWidths n (rows t)).
  assert (Hn : (0 < n)%nat) by (unfold n; destruct (alignments t); [congruence|simpl; lia]).
  destruct (tableModelToMarkdown_layout t Hne) as (Hmd & Hlen & Hpipes & _ & Hone).
  cbv zeta in Hmd, Hlen, Hpipes, Hone. fold n in Hmd, Hlen, Hpipes, Hone.
  fold widths in Hmd, Hlen, Hpipes, Hone. specialize (Hone Hcontents).
  unfold parseMarkdownTable. rewrite Hmd, (markdownLines_join _ Hone Hpipes).
  rewrite Hheaders in Hlen |- *. cbn [map app length] in Hlen |- *.
  assert (Hfirst : SEPARATOR_RE_test (markdownRow n widths r0) = true).
  { apply markdownRow_separator; [exact Hn|]. intros i x Hi Hx. unfold contentAt in Hx.
    destruct (cells r0 !! i) as [c|] eqn:Hc; [|destruct Hx].
    apply (Hdash c x); [|exact Hx]. apply list_elem_of_In, list_elem_of_lookup. now exists i. }
  cbn [findSeparator]. rewrite Hfirst.
  match goal with
  | |- context [(S (length ?l) <? 2)%nat] =>
      destruct (Nat.ltb_spec (S (length l)) 2) as [Hshort|_]
  end.
  { injection Hlen as Hlen. rewrite Hlen in Hshort. destruct (rows t); [congruence|].
    simpl in Hshort. lia. }
  eexists. split; [reflexivity|].
  rewrite normalizeTable_flags. cbn [rows createTable take map app].
  change (drop 1 (markdownRow n widths r0 :: ?l)) with l. rewrite map_map.
  injection Hlen as Hlen. rewrite <- Hlen.
  generalize (map (markdownRow n widths) hs
                ++ markdownSeparator n widths (alignments t)
                   :: map (markdownRow n widths) (actualData t)).
  intros l. induction l as [|x l IH]; [reflexivity|].
  cbn [map length replicate]. rewrite IH. reflexivity.
Qed.

Lemma tableModelToMarkdown_dash_header_witness :
  exists t',
    parseMarkdownTable
      (tableModelToMarkdown
         (createTable [createRow [createCell1 []; createCell1 (lit "-")] true;
                       createRow [createCell1 (lit "a"); createCell1 (lit "b")] false]
                      [lit "left"; lit "left"]))
    = Some t'
    /\ map isHeader (rows t') = replicate 2 false.
Proof.
  apply (tableModelToMarkdown_dash_header
           (createTable [createRow [createCell1 []; createCell1 (lit "-")] true;
                         createRow [createCell1 (lit "a"); createCell1 (lit "b")] false]
                        [lit "left"; lit "left"])
           (createRow [createCell1 []; createCell1 (lit "-")] true) []).
  - discriminate.
  - intros r c [<-|[<-|[]]] Hc; simpl in Hc;
      destruct Hc as [<-|[<-|[]]]; simpl;
      intros Hnl; repeat (destruct Hnl as [Hnl|Hnl]; [discriminate Hnl|]); exact Hnl.
  - reflexivity.
  - intros c x [<-|[<-|[]]] Hx; simpl in Hx; [destruct Hx|].
    destruct Hx as [<-|[]]. reflexivity.
Defined.

(** ** [htmlSanitizer.js]: cleaning the attributes of an element *)

Lemma foldCase_lower (c p : ascii) :
  foldCase c = p -> (N_of_ascii p < 128)%N -> Js.lowerChar c = p.
Proof.
  intros <-.
  destruct c as [[] [] [] [] [] [] [] []]; intros H; try reflexivity;
    vm_compute in H; discriminate H.
Qed.

Lemma toLowerCase_folded (w pat : jsstring) :
  map foldCase w = pat ->
  Forall (fun p => (N_of_ascii p < 128)%N) pat ->
  Js.toLowerCase w = pat.
Proof.
  revert pat. induction w as [|c w IH]; intros pat <- Hall; [reflexivity|].
  simpl in Hall. inversion Hall as [|p ps Hp Hps]; subst.
  simpl. f_equal; [now apply foldCase_lower|now apply IH].
Qed.

Lemma wordAt_spec (pat s w : jsstring) :
  wordAt pat s = Some w <-> exists post, s = w ++ post /\ map foldCase w = pat.
Proof.
  unfold wordAt. destruct (afterPrefix pat s) as [r|] eqn:Hafter.
  - apply afterPrefix_spec in Hafter as (w' & -> & Hw').
    assert (Hlen : length w' = length pat) by (now rewrite <- Hw', length_map).
    rewrite <- Hlen, take_app_length. split.
    + intros [= <-]. now exists r.
    + intros (post & Heq & Hw). f_equal.
      assert (Hlen' : length w = length w') by (now rewrite Hlen, <- Hw, length_map).
      apply (f_equal (take (length w'))) in Heq.
      rewrite take_app_length in Heq. rewrite <- Hlen', take_app_length in Heq. exact Heq.
  - split; [discriminate|]. intros (post & -> & Hw).
    assert (Hsome : afterPrefix pat (w ++ post) = Some post)
      by (apply afterPrefix_spec; now exists w).
    congruence.
Qed.

Lemma alignMatchAt_word (s w : jsstring) :
  alignMatchAt s = Some w ->
  Js.toLowerCase w = lit "left" \/ Js.toLowerCase w = lit "center"
  \/ Js.toLowerCase w = lit "right".
Proof.
  unfold alignMatchAt. destruct (afterPrefix (lit "text-align:") s) as [r|]; [|discriminate].
  cbv zeta.
  destruct (wordAt (lit "left") (Js.dropWhile Js.isSpace r)) as [w1|] eqn:H1.
  { intros [= <-]. apply wordAt_spec in H1 as (_ & _ & Hw). left.
    apply toLowerCase_folded; [exact Hw|]. repeat constructor. }
  destruct (wordAt (lit "center") (Js.dropWhile Js.isSpace r)) as [w2|] eqn:H2.
  { intros [= <-]. apply wordAt_spec in H2 as (_ & _ & Hw). right. left.
    apply toLowerCase_folded; [exact Hw|]. repeat constructor. }
  intros H3. apply wordAt_spec in H3 as (_ & _ & Hw). right. right.
  apply toLowerCase_folded; [exact Hw|]. repeat constructor.
Qed.

Lemma alignMatch_word (style w : jsstring) :
  alignMatch style = Some w ->
  Js.toLowerCase w = lit "left" \/ Js.toLowerCase w = lit "center"
  \/ Js.toLowerCase w = lit "right".
Proof.
  induction style as [|c style IH].
  - simpl. discriminate.
  - change (alignMatch (c :: style))
      with (match alignMatchAt (c :: style) with
            | Some w => Some w
            | None => alignMatch style
            end).
    destruct (alignMatchAt (c :: style)) as [w'|] eqn:Hat; [|exact IH].
    intros [= <-]. now apply (alignMatchAt_word (c :: style)).
Qed.

(** The attribute of [name] after the loop body. *)
Lemma cleanElement_lookup (attrs : attributeMap) (name : jsstring) :
  cleanElement attrs !! name
  = if bool_decide (In name removedNames) then None
    else if bool_decide (name = lit "align")
         then match elementAlign attrs with
              | Some (c :: s) => Some (c :: s)
              | _ => attrs !! lit "align"
              end
         else attrs !! name.
Proof.
  unfold cleanElement. cbv zeta.
  set (attrs' := delete (lit "valign") _).
  assert (Hdel : attrs' !! name
                 = if bool_decide (In name removedNames) then None else attrs !! name).
  { unfold attrs'. destruct (decide (In name removedNames)) as [Hin|Hnin].
    - rewrite bool_decide_eq_true_2 by exact Hin. unfold removedNames in Hin. simpl in Hin.
      destruct Hin as [<-|[<-|[<-|[<-|[<-|[]]]]]];
        repeat (rewrite lookup_delete_ne by discriminate); apply lookup_delete_eq.
    - rewrite bool_decide_eq_false_2 by exact Hnin. unfold removedNames in Hnin. simpl in Hnin.
      rewrite !lookup_delete_ne; [reflexivity|..]; intros Heq; apply Hnin; tauto. }
  assert (Halign : ~ In (lit "align") removedNames).
  { unfold removedNames. simpl. intros H. intuition discriminate. }
  destruct (elementAlign attrs) as [[|c s]|].
  - rewrite Hdel. repeat case_bool_decide; subst; try reflexivity; contradiction.
  - destruct (decide (name = lit "align")) as [->|Hne].
    + rewrite lookup_insert_eq. rewrite bool_decide_eq_false_2 by exact Halign.
      now rewrite bool_decide_eq_true_2.
    + rewrite lookup_insert_ne by congruence. rewrite Hdel.
      case_bool_decide; [reflexivity|]. now rewrite bool_decide_eq_false_2.
  - rewrite Hdel. repeat case_bool_decide; subst; try reflexivity; contradiction.
Qed.

Lemma alignMatch_nil : alignMatch [] = None.
Proof. reflexivity. Qed.

Lemma cleanElement_align (attrs : attributeMap) :
  elementAlign (cleanElement attrs)
  = match elementAlign attrs with
    | Some (c :: s) => Some (c :: s)
    | _ => None
    end.
Proof.
  unfold elementAlign at 1. cbv zeta.
  rewrite !cleanElement_lookup.
  rewrite (bool_decide_eq_true_2 (In (lit "style") removedNames)) by (now left).
  rewrite (bool_decide_eq_false_2 (In (lit "align") removedNames))
    by (unfold removedNames; simpl; intros H; intuition discriminate).
  rewrite bool_decide_eq_true_2 by reflexivity. simpl attrOr. rewrite alignMatch_nil.
  destruct (elementAlign attrs) as [[|c s]|] eqn:Hal; try reflexivity;
    unfold elementAlign in Hal; cbv zeta in Hal;
    destruct (attrs !! lit "align") as [[|c' s']|]; try reflexivity; discriminate Hal.
Qed.

Lemma cleanElement_idem (attrs : attributeMap) :
  cleanElement (cleanElement attrs) = cleanElement attrs.
Proof.
  apply map_eq. intros name. rewrite (cleanElement_lookup (cleanElement attrs)).
  rewrite cleanElement_align, !cleanElement_lookup.
  case_bool_decide as Hrem; [reflexivity|].
  case_bool_decide as Hal; [|reflexivity].
  rewrite (bool_decide_eq_false_2 (In (lit "align") removedNames))
    by (unfold removedNames; simpl; intros H; intuition discriminate).
  rewrite bool_decide_eq_true_2 by reflexivity.
  now destruct (elementAlign attrs) as [[|c s]|].
Qed.

(** X19.  The step of [sanitizeWordHtml] on one element of the table
    removes the attributes [style], [class], [width], [height] and
    [valign] and leaves every other attribute but [align] as it is.  An
    element with a non-empty [align] attribute keeps it; otherwise the
    first [text-align: left], [center] or [right] of its style, in any
    case, becomes its [align] attribute in lower case; without one the
    [align] attribute is left as it was.  The step done twice is the step
    done once. *)
Theorem cleanElement_attributes (attrs : attributeMap) :
  (forall name, In name removedNames -> cleanElement attrs !! name = None)
  /\ (forall name, ~ In name removedNames -> name <> lit "align" ->
        cleanElement attrs !! name = attrs !! name)
  /\ cleanElement attrs !! lit "align"
     = match attrs !! lit "align" with
       | Some (c :: s) => Some (c :: s)
       | own =>
           match alignMatch (attrOr (attrs !! lit "style") []) with
           | Some w => Some (Js.toLowerCase w)
           | None => own
           end
       end
  /\ (forall w, alignMatch (attrOr (attrs !! lit "style") []) = Some w ->
        Js.toLowerCase w = lit "left" \/ Js.toLowerCase w = lit "center"
        \/ Js.toLowerCase w = lit "right")
  /\ cleanElement (cleanElement attrs) = cleanElement attrs.
Proof.
  split; [|split; [|split; [|split]]].
  - intros name Hin. rewrite cleanElement_lookup. now rewrite bool_decide_eq_true_2.
  - intros name Hin Hne. rewrite cleanElement_lookup.
    now rewrite bool_decide_eq_false_2, bool_decide_eq_false_2.
  - rewrite cleanElement_lookup.
    rewrite (bool_decide_eq_false_2 (In (lit "align") removedNames))
      by (unfold removedNames; simpl; intros H; intuition discriminate).
    rewrite bool_decide_eq_true_2 by reflexivity.
    unfold elementAlign. cbv zeta.
    destruct (attrs !! lit "align") as [[|c s]|]; try reflexivity;
      destruct (alignMatch _) as [w|] eqn:Hw; try reflexivity; simpl;
      destruct (alignMatch_word _ _ Hw) as [->|[->| ->]]; reflexivity.
  - intros w. apply alignMatch_word.
  - apply cleanElement_idem.
Qed.

Lemma cleanElement_attributes_witness :
  cleanElement {[ lit "style" := lit "color:red;TEXT-ALIGN:  Center" ]} !! lit "style" = None.
Proof.
  apply (proj1 (cleanElement_attributes
                  {[ lit "style" := lit "color:red;TEXT-ALIGN:  Center" ]})).
  now left.
Defined.

(** X20.  What [htmlTableToModel] reads of a cell is the same before and
    after the step of the sanitizer on the cell, but for the alignment:
    the text and the spans are those of the cell, and the alignment
    captured after the step is the [align] attribute of the cell in lower
    case if it has a non-empty one, else the first [text-align: left],
    [center] or [right] of its style, else [left]; this holds whatever
    the platform reads from a [style] attribute. *)
Theorem cleanElement_cell (textAlign : jsstring -> jsstring) (text : jsstring)
    (attrs : attributeMap) :
  let cellEl := cellOfAttributes textAlign text (cleanElement attrs) in
  textContent cellEl = text
  /\ colspanOf cellEl = colspanOf (cellOfAttributes textAlign text attrs)
  /\ rowspanOf cellEl = rowspanOf (cellOfAttributes textAlign text attrs)
  /\ isMerged cellEl = isMerged (cellOfAttributes textAlign text attrs)
  /\ capturedAlignment cellEl
     = match attrs !! lit "align" with
       | Some (c :: s) => Js.toLowerCase (c :: s)
       | _ =>
           match alignMatch (attrOr (attrs !! lit "style") []) with
           | Some w => Js.toLowerCase w
           | None => lit "left"
           end
       end.
Proof.
  cbv zeta.
  assert (Hcol : cleanElement attrs !! lit "colspan" = attrs !! lit "colspan").
  { rewrite cleanElement_lookup. rewrite bool_decide_eq_false_2
      by (unfold removedNames; simpl; intros H; intuition discriminate).
    now rewrite bool_decide_eq_false_2 by discriminate. }
  assert (Hrow : cleanElement attrs !! lit "rowspan" = attrs !! lit "rowspan").
  { rewrite cleanElement_lookup. rewrite bool_decide_eq_false_2
      by (unfold removedNames; simpl; intros H; intuition discriminate).
    now rewrite bool_decide_eq_false_2 by discriminate. }
  split; [reflexivity|]. split; [|split; [|split]].
  - unfold colspanOf, cellOfAttributes. cbn [colspanAttr]. now rewrite Hcol.
  - unfold rowspanOf, cellOfAttributes. cbn [rowspanAttr]. now rewrite Hrow.
  - unfold isMerged, cellOfAttributes. cbn [colspanAttr rowspanAttr]. now rewrite Hcol, Hrow.
  - unfold capturedAlignment, cellAlign, cellOfAttributes. cbn [alignAttr styleTextAlign].
    rewrite !cleanElement_lookup.
    rewrite (bool_decide_eq_true_2 (In (lit "style") removedNames)) by (now left).
    rewrite (bool_decide_eq_false_2 (In (lit "align") removedNames))
      by (unfold removedNames; simpl; intros H; intuition discriminate).
    rewrite bool_decide_eq_true_2 by reflexivity.
    unfold elementAlign. cbv zeta. cbn [DOMParser.styleTextAlignOf].
    destruct (attrs !! lit "align") as [[|c s]|]; try reflexivity;
      destruct (alignMatch _) as [w|] eqn:Hw; try reflexivity; simpl;
      destruct (alignMatch_word _ _ Hw) as [Heq|[Heq|Heq]]; rewrite Heq; reflexivity.
Qed.

(** ** From the model to the markup and back to the model *)

Lemma flat_map_imap_single {A B C} (F : B -> list C) (G : nat -> A -> B) (h : nat -> C)
    (l : list A) :
  (forall i x, F (G i x) = [h i]) ->
  flat_map F (imap G l) = map h (seq 0 (length l)).
Proof.
  revert G h. induction l as [|x l IH]; intros G h HF; [reflexivity|].
  rewrite imap_cons. cbn [flat_map length seq map]. rewrite HF. simpl app. f_equal.
  rewrite <- seq_shift, map_map. apply (IH (fun i => G (S i)) (fun i => h (S i))).
  intros i y. apply HF.
Qed.

Lemma capturedAlignments_rowElOf textAlign (header : bool) (al : list jsstring) (r : Row) :
  (forall bold align, textAlign (cellStyleAttr bold align) = alignWord align) ->
  capturedAlignments (rowElOf textAlign header al r)
  = map (fun i => alignWord (alignmentAt al i)) (seq 0 (length (cells r))).
Proof.
  intros Hreads. unfold capturedAlignments, rowElOf.
  apply (flat_map_imap_single _ (cellElOf textAlign header al)
           (fun i => alignWord (alignmentAt al i))).
  intros i c. unfold capturedAlignment, cellAlign, cellElOf. cbn [alignAttr styleTextAlign].
  rewrite Hreads. unfold alignWord.
  destruct (jsEq (alignmentAt al i) "center"); [reflexivity|].
  destruct (jsEq (alignmentAt al i) "right"); reflexivity.
Qed.

Lemma alignWords_of (al : list jsstring) :
  map (fun i => alignWord (alignmentAt al i)) (seq 0 (length al)) = map alignWord al.
Proof.
  unfold alignmentAt.
  rewrite (map_seq_lookup (fun o => alignWord match o with
                                              | Some (c :: s) => c :: s
                                              | _ => lit "left"
                                              end)).
  apply map_ext. intros a. now destruct a.
Qed.

Lemma rows_ext (rs rs' : list Row) :
  map cells rs = map cells rs' -> map isHeader rs = map isHeader rs' -> rs = rs'.
Proof.
  revert rs'. induction rs as [|r rs IH]; intros [|r' rs'] Hc Hh; try discriminate;
    [reflexivity|].
  simpl in Hc, Hh. injection Hc as Hc Hcs. injection Hh as Hh Hhs.
  f_equal; [|now apply IH]. destruct r, r'. simpl in *. now subst.
Qed.

(** The flags of the rows of the element of a table whose header rows come
    first. *)
Lemma headerFlags_tableElOf textAlign (t : Table) :
  headersFirst t ->
  imap (headerFlag (negb (existsb fst (trElements (tableElOf textAlign t)))))
       (trElements (tableElOf textAlign t))
  = imap (fun i r => isHeader r || (is_nil (List.filter isHeader (rows t)) && (i =? 0)%nat))
         (rows t).
Proof.
  intros Hfirst. unfold headersFirst in Hfirst. rewrite trElements_tableElOf.
  set (hs := List.filter isHeader (rows t)) in *.
  set (ds := List.filter (fun r => negb (isHeader r)) (rows t)) in *.
  assert (Hhs : forall r, In r hs -> isHeader r = true)
    by (intros r Hr; now apply filter_In in Hr).
  assert (Hds : forall r, In r ds -> isHeader r = false).
  { intros r Hr. apply filter_In in Hr as (_ & Hr). now destruct (isHeader r). }
  assert (Hex : negb (existsb fst (map (fun r => (true, rowElOf textAlign true (alignments t) r)) hs
                                     ++ map (fun r => (false, rowElOf textAlign false (alignments t) r)) ds))
                = is_nil hs).
  { rewrite existsb_app.
    assert (Hno : forall l : list Row,
              existsb fst (map (fun r => (false, rowElOf textAlign false (alignments t) r)) l) = false)
      by (intros l; induction l as [|d l IH]; [reflexivity|exact IH]).
    rewrite Hno, orb_false_r. now destruct hs. }
  rewrite Hex. clearbody hs ds. rewrite <- Hfirst.
  rewrite !imap_app, !imap_fmap, length_map. f_equal.
  - apply imap_ext. intros i r Hr. simpl. unfold headerFlag. simpl.
    rewrite (Hhs r); [reflexivity|]. apply list_elem_of_In, list_elem_of_lookup. now exists i.
  - apply imap_ext. intros i r Hr. simpl. unfold headerFlag. simpl.
    rewrite (Hds r); [reflexivity|]. apply list_elem_of_In, list_elem_of_lookup. now exists i.
Qed.

(** The element of a well-formed table whose header rows come first is
    read as that table, without the character U+0000 and with the white
    space of its contents normalized, when the platform reads from the
    [style] attribute of a cell the alignment that [alignStyle] wrote. *)
Lemma htmlTableToModel_of_table textAlign (t : Table) :
  (forall bold align, textAlign (cellStyleAttr bold align) = alignWord align) ->
  WellFormed t -> headersFirst t ->
  htmlTableToModel (tableElOf textAlign t)
  = Some {| alignments := map alignWord (alignments t);
            rows := imap (fun i r =>
                            createRow
                              (map (fun c => createCell1 (normalizeContent (withoutNul (content c))))
                                   (cells r))
                              (isHeader r
                               || (is_nil (List.filter isHeader (rows t)) && (i =? 0)%nat)))
                         (rows t) |}.
Proof.
  intros Hreads Hwf Hfirst.
  destruct (htmlTableToModel_tableElOf textAlign t Hwf Hfirst) as (t' & Hmodel & Hcells & Hcount).
  destruct (htmlTableToModel_made _ _ Hmodel) as (_ & _ & Hflags & _).
  rewrite Hmodel. f_equal. apply table_eq.
  - cbn [alignments].
    destruct Hwf as (Hne & Hrows & Hal).
    unfold htmlTableToModel in Hmodel. cbv zeta in Hmodel.
    destruct (is_nil (trElements (tableElOf textAlign t))); [discriminate|].
    injection Hmodel as <-. rewrite getColumnCount_normalizeTable in Hcount.
    rewrite normalizeTable_alignments_shape, Hcount. cbn [alignments createTable].
    pose proof (headerFlags_tableElOf textAlign t Hfirst) as Hfl.
    set (trs := trElements (tableElOf textAlign t)) in *.
    set (tfh := negb (existsb fst trs)) in *.
    destruct (rows t) as [|r0 rs] eqn:Hrt; [congruence|].
    assert (Hnone : isHeader r0 = false -> List.filter isHeader rs = []).
    { intros Hh. unfold headersFirst in Hfirst. rewrite Hrt in Hfirst. simpl in Hfirst.
      rewrite Hh in Hfirst. simpl in Hfirst.
      destruct (List.filter isHeader rs) as [|h hs] eqn:Hf; [reflexivity|].
      simpl in Hfirst. injection Hfirst as Hh0 _.
      assert (Hin : In h (List.filter isHeader rs)) by (rewrite Hf; now left).
      apply filter_In in Hin as (_ & Hin). congruence. }
    assert (Htrs : exists post,
               trs = (isHeader r0, rowElOf textAlign (isHeader r0) (alignments t) r0) :: post).
    { unfold trs. rewrite trElements_tableElOf, Hrt. simpl.
      destruct (isHeader r0) eqn:Hh; simpl; [eexists; reflexivity|].
      rewrite (Hnone eq_refl). simpl. eexists. reflexivity. }
    destruct Htrs as (post & Htrs).
    assert (Hflag : headerFlag tfh 0
                      (isHeader r0, rowElOf textAlign (isHeader r0) (alignments t) r0) = true).
    { apply (f_equal (fun l => l !! O)) in Hfl.
      rewrite !list_lookup_imap, Htrs in Hfl. simpl in Hfl. injection Hfl as Hfl.
      rewrite Hfl. destruct (isHeader r0) eqn:Hh; [reflexivity|].
      rewrite (Hnone eq_refl). reflexivity. }
    pose proof (processRows_alignments tfh [] post _ O initialTableState eq_refl
                  (fun j r (Hj : [] !! j = Some r) => match eq_sym Hj with end) Hflag)
      as Hcap.
    simpl app in Hcap. rewrite <- Htrs in Hcap. simpl in Hcap. rewrite Hcap.
    rewrite (capturedAlignments_rowElOf textAlign _ _ _ Hreads).
    destruct (Hrows r0 (or_introl eq_refl)) as (Hlen0 & _).
    assert (Hlen : length (cells r0) = length (alignments t)) by lia.
    rewrite Hlen, alignWords_of.
    rewrite take_ge by (rewrite length_map; lia).
    rewrite length_map.
    replace (Z.to_nat (getColumnCount t) - length (alignments t))%nat with O by lia.
    apply app_nil_r.
  - cbn [rows]. apply rows_ext.
    + rewrite Hcells, map_imap. cbn [cells createRow]. symmetry. apply imap_const_index.
    + rewrite Hflags, map_imap. cbn [isHeader createRow]. now apply headerFlags_tableElOf.
Qed.

Lemma alignmentOfSegment_word (seg : jsstring) :
  alignWord (alignmentOfSegment seg) = alignmentOfSegment seg.
Proof.
  unfold alignmentOfSegment. cbv zeta.
  destruct (Js.startsWith ":" (Js.trim seg) && Js.endsWith ":" (Js.trim seg)); [reflexivity|].
  destruct (Js.endsWith ":" (Js.trim seg)); reflexivity.
Qed.

Lemma parseMarkdownTable_alignment_words (markdown : jsstring) (t : Table) :
  parseMarkdownTable markdown = Some t -> map alignWord (alignments t) = alignments t.
Proof.
  unfold parseMarkdownTable.
  destruct (length (markdownLines markdown) <? 2)%nat; [discriminate|].
  destruct (findSeparator 0 (markdownLines markdown)) as [k|]; [|discriminate].
  intros [= <-]. rewrite normalizeTable_alignments_shape. cbn [alignments createTable].
  transitivity (map (fun a : jsstring => a)
                    (take (Z.to_nat (getColumnCount
                                       (createTable
                                          (map (rowOfLine true) (take k (markdownLines markdown))
                                             ++ map (rowOfLine false)
                                                  (drop (S k) (markdownLines markdown)))
                                          (parseAlignments (nth k (markdownLines markdown) [])))))
                          (parseAlignments (nth k (markdownLines markdown) []))
                       ++ replicate
                            (Z.to_nat (getColumnCount
                                         (createTable
                                            (map (rowOfLine true) (take k (markdownLines markdown))
                                               ++ map (rowOfLine false)
                                                    (drop (S k) (markdownLines markdown)))
                                            (parseAlignments (nth k (markdownLines markdown) []))))
                             - length (parseAlignments (nth k (markdownLines markdown) [])))
                            (lit "left")));
    [|apply map_id].
  apply map_ext_in. intros a Ha. apply in_app_iff in Ha as [Ha|Ha].
  - apply list_elem_of_In, elem_of_take in Ha as (i & Ha & _).
    apply list_elem_of_lookup_2, list_elem_of_In in Ha.
    unfold parseAlignments in Ha. apply in_map_iff in Ha as (seg & <- & _).
    apply alignmentOfSegment_word.
  - apply list_elem_of_In, elem_of_replicate in Ha as [-> _]. reflexivity.
Qed.

(** X21.  From Markdown to the markup and back to the model.  Take the
    platform to read from the [style] attribute that [tableModelToHtml]
    writes for a cell the alignment that [alignStyle] put there.  Then for
    every Markdown text that [parseMarkdownTable] accepts, the markup of
    [tableModelToHtml] is parsed into a table element that
    [htmlTableToModel] reads as a table with the same alignments and the
    same rows, the contents without the character U+0000 and with their
    white space normalized; the first row becomes a header row when the
    text had no line above its separator.  When the text has a header line
    and the contents are left as they are, the table read is the table
    parsed. *)
Theorem markdown_html_model (textAlign : jsstring -> jsstring)
    (markdown : jsstring) (t : Table) :
  (forall bold align, textAlign (cellStyleAttr bold align) = alignWord align) ->
  parseMarkdownTable markdown = Some t ->
  exists tableEl,
    DOMParser.parseTable textAlign (tableModelToHtml t) = Some tableEl
    /\ htmlTableToModel tableEl
       = Some {| alignments := alignments t;
                 rows := imap (fun i r =>
                                 createRow
                                   (map (fun c => createCell1
                                                    (normalizeContent (withoutNul (content c))))
                                        (cells r))
                                   (isHeader r
                                    || (is_nil (List.filter isHeader (rows t)) && (i =? 0)%nat)))
                              (rows t) |}
    /\ (List.filter isHeader (rows t) <> [] ->
        (forall r c, In r (rows t) -> In c (cells r) ->
                     normalizeContent (withoutNul (content c)) = content c) ->
        htmlTableToModel tableEl = Some t).
Proof.
  intros Hreads Hparse.
  destruct (parseMarkdownTable_WellFormed _ _ Hparse) as (Hwf & Hfirst).
  pose proof (htmlTableToModel_of_table textAlign t Hreads Hwf Hfirst) as Hmodel.
  rewrite (parseMarkdownTable_alignment_words _ _ Hparse) in Hmodel.
  exists (tableElOf textAlign t).
  split; [apply tableModelToHtml_parsed|]. split; [exact Hmodel|].
  intros Hsome Hnormal. rewrite Hmodel. f_equal. apply table_eq; [reflexivity|].
  cbn [rows]. destruct (List.filter isHeader (rows t)) as [|h hs]; [congruence|].
  simpl is_nil. destruct Hwf as (_ & Hrows & _).
  transitivity (imap (fun (_ : nat) (r : Row) => r) (rows t)).
  - apply imap_ext. intros i r Hr.
    assert (Hin : In r (rows t)) by (apply list_elem_of_In, list_elem_of_lookup; now exists i).
    simpl. rewrite orb_false_r. destruct r as [h' cs]. unfold createRow. f_equal.
    simpl. transitivity (map (fun c : Cell => c) cs); [|apply map_id].
    apply map_ext_in. intros c Hc.
    destruct (Hrows _ Hin) as (_ & Hunit). destruct (Hunit c Hc) as (Hcol & Hrow).
    rewrite (Hnormal _ c Hin Hc). destruct c. simpl in *. now subst.
  - rewrite imap_const_index. apply map_id.
Qed.

Lemma markdown_html_model_witness :
  exists tableEl,
    DOMParser.parseTable declaredTextAlign
      (tableModelToHtml (createTable [createRow [createCell1 (lit "A")] true;
                                      createRow [createCell1 (lit "b c")] false]
                                     [lit "center"]))
    = Some tableEl
    /\ htmlTableToModel tableEl
       = Some (createTable [createRow [createCell1 (lit "A")] true;
                            createRow [createCell1 (lit "b c")] false]
                           [lit "center"]).
Proof.
  destruct (markdown_html_model declaredTextAlign
              (lit "| A |" ++ nl :: lit "|:-:|" ++ nl :: lit "| b c |")
              (createTable [createRow [createCell1 (lit "A")] true;
                            createRow [createCell1 (lit "b c")] false]
                           [lit "center"]))
    as (tableEl & Hdom & _ & Hsame).
  - intros bold align. unfold cellStyleAttr, alignStyle, alignWord.
    destruct (jsEq align "center"); [|destruct (jsEq align "right")];
      destruct bold; reflexivity.
  - reflexivity.
  - exists tableEl. split; [exact Hdom|]. apply Hsame.
    + discriminate.
    + intros r c [<-|[<-|[]]] [<-|[]]; reflexivity.
Defined.

(** ** The Markdown text is stable *)

Lemma fold_left_permutation {A B} (f : B -> A -> B) (l l' : list A) :
  (forall acc a b, f (f acc a) b = f (f acc b) a) ->
  Permutation l l' -> forall acc, fold_left f l acc = fold_left f l' acc.
Proof.
  intros Hcomm Hperm. induction Hperm as [|x l l' _ IH|x y l|l l' l'' _ IH1 _ IH2]; intros acc.
  - reflexivity.
  - simpl. apply IH.
  - simpl. now rewrite Hcomm.
  - now rewrite IH1.
Qed.

Lemma widenBy_comm (r1 r2 : Row) (widths : list nat) :
  widenBy r2 (widenBy r1 widths) = widenBy r1 (widenBy r2 widths).
Proof.
  apply list_eq. intros i. rewrite !lookup_widenBy.
  destruct (widths !! i) as [w|]; [|reflexivity]. simpl. f_equal.
  destruct (cells r1 !! i), (cells r2 !! i); lia.
Qed.

Lemma widenBy_cells (r r' : Row) (widths : list nat) :
  cells r = cells r' -> widenBy r widths = widenBy r' widths.
Proof. unfold widenBy. now intros ->. Qed.

Lemma columnWidths_cells (n : nat) (rs rs' : list Row) :
  map cells rs = map cells rs' -> columnWidths n rs = columnWidths n rs'.
Proof.
  unfold columnWidths. generalize (replicate n 3%nat). revert rs'.
  induction rs as [|r rs IH]; intros [|r' rs'] widths Heq; try discriminate; [reflexivity|].
  simpl in Heq. injection Heq as Hr Hrs.
  simpl. rewrite (widenBy_cells r r' widths Hr). now apply IH.
Qed.

Lemma columnWidths_permutation (n : nat) (rs rs' : list Row) :
  Permutation rs rs' -> columnWidths n rs = columnWidths n rs'.
Proof.
  intros Hperm. unfold columnWidths. apply fold_left_permutation; [|exact Hperm].
  intros acc a b. apply widenBy_comm.
Qed.

Lemma filter_partition (p : Row -> bool) (l : list Row) :
  Permutation (List.filter p l ++ List.filter (fun r => negb (p r)) l) l.
Proof.
  induction l as [|x l IH]; [constructor|]. simpl. destruct (p x); simpl.
  - now constructor.
  - etransitivity; [symmetry; apply Permutation_middle|]. now constructor.
Qed.

Lemma actual_rows_permutation (t : Table) :
  Permutation (actualHeaders t ++ actualData t) (rows t).
Proof.
  unfold actualHeaders, actualData. destruct (is_nil (List.filter isHeader (rows t))).
  - now rewrite take_drop.
  - apply filter_partition.
Qed.

Lemma markdownSeparator_words (n : nat) (widths : list nat) (al : list jsstring) :
  markdownSeparator n widths (map alignWord al) = markdownSeparator n widths al.
Proof.
  unfold markdownSeparator. cbv zeta. do 3 f_equal. apply map_ext. intros i.
  assert (Hword : forall k : string,
            k = "center"%string \/ k = "right"%string ->
            jsEq (alignmentAt (map alignWord al) i) k = jsEq (alignmentAt al i) k).
  { intros k Hk. unfold alignmentAt. rewrite lookup_map.
    destruct (al !! i) as [a|]; [|reflexivity]. simpl.
    unfold alignWord, jsEq.
    destruct (decide (a = lit "center")) as [->|Hc];
      [destruct Hk as [->| ->]; reflexivity|].
    destruct (decide (a = lit "right")) as [->|Hr];
      [destruct Hk as [->| ->]; reflexivity|].
    rewrite (bool_decide_eq_false_2 (a = lit "center")) by exact Hc.
    rewrite (bool_decide_eq_false_2 (a = lit "right")) by exact Hr.
    destruct a as [|c s]; [reflexivity|].
    destruct Hk as [->| ->]; simpl.
    - now rewrite (bool_decide_eq_false_2 (c :: s = lit "center")) by exact Hc.
    - now rewrite (bool_decide_eq_false_2 (c :: s = lit "right")) by exact Hr. }
  rewrite !Hword by auto. reflexivity.
Qed.

(** The text of the table that is read from the text of a table is that
    text again. *)
Lemma tableModelToMarkdown_reordered (t : Table) :
  rows t <> [] ->
  tableModelToMarkdown
    {| alignments := map alignWord (alignments t);
       rows := map (fun r => createRow (cells r) true) (actualHeaders t)
                 ++ map (fun r => createRow (cells r) false) (actualData t) |}
  = tableModelToMarkdown t.
Proof.
  intros Hne.
  set (t' := {| alignments := map alignWord (alignments t);
                rows := map (fun r => createRow (cells r) true) (actualHeaders t)
                          ++ map (fun r => createRow (cells r) false) (actualData t) |}).
  pose proof (actualHeaders_nonempty t Hne) as Hh.
  assert (Hne' : rows t' <> []).
  { unfold t'. simpl. destruct (actualHeaders t); [congruence|discriminate]. }
  assert (Hheads : List.filter isHeader (rows t')
                   = map (fun r => createRow (cells r) true) (actualHeaders t)).
  { unfold t'. cbn [rows]. rewrite List.filter_app.
    rewrite filter_all by (intros r Hr; now apply in_map_iff in Hr as (r0 & <- & _)).
    rewrite filter_none by (intros r Hr; now apply in_map_iff in Hr as (r0 & <- & _)).
    apply app_nil_r. }
  assert (Hdata : List.filter (fun r => negb (isHeader r)) (rows t')
                  = map (fun r => createRow (cells r) false) (actualData t)).
  { unfold t'. cbn [rows]. rewrite List.filter_app.
    rewrite filter_none by (intros r Hr; now apply in_map_iff in Hr as (r0 & <- & _)).
    rewrite filter_all by (intros r Hr; now apply in_map_iff in Hr as (r0 & <- & _)).
    reflexivity. }
  assert (Hah : actualHeaders t' = map (fun r => createRow (cells r) true) (actualHeaders t)).
  { unfold actualHeaders at 1. rewrite Hheads.
    destruct (actualHeaders t); [congruence|reflexivity]. }
  assert (Had : actualData t' = map (fun r => createRow (cells r) false) (actualData t)).
  { unfold actualData at 1. rewrite Hheads, Hdata.
    destruct (actualHeaders t); [congruence|reflexivity]. }
  assert (Hwidths : columnWidths (length (alignments t')) (rows t')
                    = columnWidths (length (alignments t)) (rows t)).
  { unfold t'. cbn [alignments rows]. rewrite length_map.
    rewrite <- (columnWidths_permutation _ _ _ (actual_rows_permutation t)).
    apply columnWidths_cells. rewrite !map_app, !map_map. reflexivity. }
  rewrite (tableModelToMarkdown_parts t' Hne'), (tableModelToMarkdown_parts t Hne).
  assert (Hlen : length (alignments t') = length (alignments t)) by apply length_map.
  cbv zeta. rewrite Hwidths, Hah, Had, Hlen.
  change (alignments t') with (map alignWord (alignments t)).
  rewrite markdownSeparator_words, !map_map. reflexivity.
Qed.

(** X22.  The Markdown text is stable.  For a well-formed table with at
    least one column whose contents are trimmed and without line breaks,
    and whose rows above the separator each have a character other than
    dashes, colons and white space, the table that [parseMarkdownTable]
    reads from the text of [tableModelToMarkdown] is written again by
    [tableModelToMarkdown] as the very same text, and read again from it
    as the very same table; the header rows need not come first. *)
Theorem tableModelToMarkdown_stable (t : Table) :
  WellFormed t -> 0 < getColumnCount t ->
  (forall r c, In r (rows t) -> In c (cells r) ->
     ~ In nl (content c) /\ Js.trim (content c) = content c) ->
  (forall r, In r (actualHeaders t) ->
     exists c x, In c (cells r) /\ In x (content c) /\ dashLike x = false) ->
  exists t',
    parseMarkdownTable (tableModelToMarkdown t) = Some t'
    /\ tableModelToMarkdown t' = tableModelToMarkdown t
    /\ parseMarkdownTable (tableModelToMarkdown t') = Some t'.
Proof.
  intros Hwf Hcols Hcontents Hheaders.
  pose proof (parse_tableModelToMarkdown t Hwf Hcols Hcontents Hheaders) as Hparse.
  destruct Hwf as (Hne & _).
  pose proof (tableModelToMarkdown_reordered t Hne) as Hsame.
  eexists. split; [exact Hparse|]. split; [exact Hsame|].
  rewrite Hsame. exact Hparse.
Qed.

Lemma tableModelToMarkdown_stable_witness :
  exists t',
    parseMarkdownTable
      (tableModelToMarkdown
         (createTable [createRow [createCell1 (lit "x"); createCell1 (lit "1")] false;
                       createRow [createCell1 (lit "Name"); createCell1 (lit "n")] true]
                      [lit "justify"; lit "right"]))
    = Some t'
    /\ tableModelToMarkdown t'
       = tableModelToMarkdown
           (createTable [createRow [createCell1 (lit "x"); createCell1 (lit "1")] false;
                         createRow [createCell1 (lit "Name"); createCell1 (lit "n")] true]
                        [lit "justify"; lit "right"])
    /\ parseMarkdownTable (tableModelToMarkdown t') = Some t'.
Proof.
  apply (tableModelToMarkdown_stable
           (createTable [createRow [createCell1 (lit "x"); createCell1 (lit "1")] false;
                         createRow [createCell1 (lit "Name"); createCell1 (lit "n")] true]
                        [lit "justify"; lit "right"])).
  - split; [discriminate|]. split; [|reflexivity].
    intros r [<-|[<-|[]]]; (split; [reflexivity|]);
      intros c Hc; simpl in Hc; intuition (subst; split; reflexivity).
  - reflexivity.
  - intros r c [<-|[<-|[]]] Hc; simpl in Hc;
      destruct Hc as [<-|[<-|[]]]; (split; [|reflexivity]); simpl;
      intros Hnl; repeat (destruct Hnl as [Hnl|Hnl]; [discriminate Hnl|]); exact Hnl.
  - intros r [<-|[]]. exists (createCell1 (lit "Name")), "N"%char.
    split; [now left|]. split; [now left|reflexivity].
Defined.

(** ** The tables that [parseMarkdownTable] returns *)

Lemma split_no_separator (sep : ascii) (s p : jsstring) :
  In p (Js.split sep s) -> ~ In sep p.
Proof.
  revert p. induction s as [|c s IH]; intros p; simpl.
  - intros [<-|[]] [].
  - destruct (Ascii.eqb_spec c sep) as [->|Hne].
    + intros [<-|Hp]; [intros []|now apply IH].
    + destruct (Js.split sep s) as [|q qs] eqn:Hsplit; simpl.
      * intros [<-|[]] [Heq|[]]. congruence.
      * intros [<-|Hp].
        -- intros [Heq|Hin]; [congruence|]. apply (IH q); [now left|exact Hin].
        -- apply IH. now right.
Qed.

Lemma in_trimStart (s : jsstring) (x : ascii) : In x (Js.trimStart s) -> In x s.
Proof.
  induction s as [|c s IH]; [trivial|]. rewrite trimStart_cons.
  destruct (Js.isSpace c); [intros H; right; now apply IH|trivial].
Qed.

Lemma in_trimEnd (s : jsstring) (x : ascii) : In x (Js.trimEnd s) -> In x s.
Proof.
  induction s as [|c s IH]; [trivial|]. rewrite trimEnd_cons.
  destruct (Js.trimEnd s) as [|d r].
  - destruct (Js.isSpace c); [intros []|intros [<-|[]]; now left].
  - intros [<-|H]; [now left|]. right. apply IH. exact H.
Qed.

Lemma in_trim (s : jsstring) (x : ascii) : In x (Js.trim s) -> In x s.
Proof. intros H. now apply in_trimStart, in_trimEnd. Qed.

Lemma in_stripPipes (s : jsstring) (x : ascii) : In x (stripPipes s) -> In x s.
Proof.
  unfold stripPipes.
  assert (Hlead : forall r, In x (stripLeadingPipe r) -> In x r).
  { intros [|c r]; [trivial|]. simpl.
    destruct c as [[] [] [] [] [] [] [] []]; trivial; intros H; now right. }
  assert (Htrail : forall r, In x (stripTrailingPipe r) -> In x r).
  { intros r. unfold stripTrailingPipe. destruct (rev r) as [|c r'] eqn:Hrev; [trivial|].
    assert (Hr : r = rev r' ++ [c]) by (rewrite <- (rev_involutive r), Hrev; reflexivity).
    destruct c as [[] [] [] [] [] [] [] []]; trivial;
      intros H; rewrite Hr; apply in_app_iff; now left. }
  intros H. now apply Hlead, Htrail.
Qed.

Lemma in_splitPipes (b : bool) (s p : jsstring) (x : ascii) :
  In p (splitPipes b s) -> In x p -> In x s.
Proof.
  revert b p. induction s as [|c s IH]; intros b p; simpl.
  - intros [<-|[]] [].
  - destruct (Ascii.eqb c "|" && negb b).
    + intros [<-|Hp] Hx; [destruct Hx|]. right. now apply (IH false p).
    + destruct (splitPipes (Ascii.eqb c "\") s) as [|q qs] eqn:Hsplit; simpl.
      * intros [<-|[]] [<-|[]]. now left.
      * intros [<-|Hp] Hx.
        -- destruct Hx as [<-|Hx]; [now left|]. right.
           apply (IH (Ascii.eqb c "\") q); [rewrite Hsplit; now left|exact Hx].
        -- right. apply (IH (Ascii.eqb c "\") p); [rewrite Hsplit; now right|exact Hx].
Qed.

Lemma in_unescapePipes (s : jsstring) (x : ascii) : In x (unescapePipes s) -> In x s.
Proof.
  remember (length s) as n eqn:Hn. revert s Hn.
  induction n as [n IH] using lt_wf_ind. intros s Hn.
  destruct s as [|c s]; [trivial|].
  destruct (unescapePipes_step c s) as [(r & Hc & Hs & Heq)|Heq]; rewrite Heq.
  - subst c s. intros [<-|H]; [right; now left|].
    right. right. apply (IH (length r)); [simpl in Hn; lia|reflexivity|exact H].
  - intros [<-|H]; [now left|]. right.
    apply (IH (length s)); [simpl in Hn; lia|reflexivity|exact H].
Qed.

Lemma parseCells_one_line (line c : jsstring) :
  ~ In nl line -> In c (parseCells line) -> ~ In nl c /\ Js.trim c = c.
Proof.
  intros Hline Hc. split.
  - intros Hnl. apply Hline. unfold parseCells in Hc.
    apply in_map_iff in Hc as (p & <- & Hp).
    apply in_unescapePipes, in_trim in Hnl.
    apply in_stripPipes. now apply (in_splitPipes false _ p).
  - unfold parseCells in Hc. apply in_map_iff in Hc as (p & <- & _).
    destruct (trim_ends p) as (Hfirst & Hlast).
    destruct (unescapePipes_ends _ Hfirst Hlast). now apply trim_fixed.
Qed.

Lemma markdownLines_one_line (markdown line : jsstring) :
  In line (markdownLines markdown) -> ~ In nl line.
Proof.
  unfold markdownLines. intros Hl Hnl. apply filter_In in Hl as (Hl & _).
  apply in_map_iff in Hl as (p & <- & Hp). apply in_trim in Hnl.
  now apply (split_no_separator nl markdown p).
Qed.

(** The cells and the columns of a table read from a Markdown text. *)
Lemma parseMarkdownTable_contents (markdown : jsstring) (t : Table) :
  parseMarkdownTable markdown = Some t ->
  0 < getColumnCount t
  /\ forall r c, In r (rows t) -> In c (cells r) ->
       ~ In nl (content c) /\ Js.trim (content c) = content c.
Proof.
  intros Hparse.
  destruct (parseMarkdownTable_WellFormed _ _ Hparse) as ((Hne & Hrows & _) & _).
  unfold parseMarkdownTable in Hparse.
  destruct (length (markdownLines markdown) <? 2)%nat; [discriminate|].
  destruct (findSeparator 0 (markdownLines markdown)) as [k|]; [|discriminate].
  injection Hparse as <-.
  set (raw := map (rowOfLine true) (take k (markdownLines markdown))
                ++ map (rowOfLine false) (drop (S k) (markdownLines markdown))) in *.
  assert (Hraw : forall r0, In r0 raw ->
                   exists h line, In line (markdownLines markdown) /\ r0 = rowOfLine h line).
  { intros r0 Hr0. unfold raw in Hr0.
    apply in_app_iff in Hr0 as [Hr0|Hr0]; apply in_map_iff in Hr0 as (line & <- & Hline).
    - exists true, line. split; [|reflexivity].
      apply list_elem_of_In in Hline. apply list_elem_of_In.
      now apply (subseteq_take k (markdownLines markdown)).
    - exists false, line. split; [|reflexivity].
      apply list_elem_of_In in Hline. apply list_elem_of_In.
      now apply (subseteq_drop (S k) (markdownLines markdown)). }
  generalize dependent (parseAlignments (nth k (markdownLines markdown) [])).
  intros al Hrows Hne. clearbody raw. split.
  - destruct raw as [|r0 raw']; [exfalso; apply Hne; reflexivity|].
    destruct (Hrows (padRow (getColumnCount (createTable (r0 :: raw') al)) r0)
                (or_introl eq_refl)) as (Hlen & _).
    rewrite <- Hlen.
    destruct (Hraw r0 (or_introl eq_refl)) as (h & line & _ & ->).
    cbn [cells padRow rowOfLine createRow]. unfold padCells.
    rewrite length_app, length_map.
    pose proof (splitPipes_nonempty false (stripPipes line)) as Hsome.
    unfold parseCells. rewrite length_map.
    destruct (splitPipes false (stripPipes line)); [congruence|simpl; lia].
  - intros r c Hr Hc. cbn [rows normalizeTable] in Hr.
    apply in_map_iff in Hr as (r0 & <- & Hr0).
    destruct (Hraw r0 Hr0) as (h & line & Hline & ->).
    cbn [cells padRow rowOfLine createRow] in Hc. unfold padCells in Hc.
    apply in_app_iff in Hc as [Hc|Hc].
    + apply in_map_iff in Hc as (p & <- & Hp). cbn [content createCell1 createCell].
      apply (parseCells_one_line line); [|exact Hp].
      now apply (markdownLines_one_line markdown).
    + apply list_elem_of_In, elem_of_replicate in Hc as [-> _].
      split; [intros []|reflexivity].
Qed.

(** X23.  From a Markdown text to the model, to the text of
    [tableModelToMarkdown] and back.  Every table that
    [parseMarkdownTable] returns has at least one column, and its contents
    are trimmed and without line breaks.  When it has a header row and
    each of its header rows has a character other than dashes, colons and
    white space, [parseMarkdownTable] reads from the text that
    [tableModelToMarkdown] writes for it the very same table. *)
Theorem parseMarkdownTable_written_back (markdown : jsstring) (t : Table) :
  parseMarkdownTable markdown = Some t ->
  (0 < getColumnCount t
   /\ forall r c, In r (rows t) -> In c (cells r) ->
        ~ In nl (content c) /\ Js.trim (content c) = content c)
  /\ (List.filter isHeader (rows t) <> [] ->
      (forall r, In r (rows t) -> isHeader r = true ->
         exists c x, In c (cells r) /\ In x (content c) /\ dashLike x = false) ->
      parseMarkdownTable (tableModelToMarkdown t) = Some t).
Proof.
  intros Hparse.
  destruct (parseMarkdownTable_contents _ _ Hparse) as (Hcols & Hcontents).
  split; [now split|]. intros Hsome Hheaders.
  destruct (parseMarkdownTable_WellFormed _ _ Hparse) as (Hwf & Hfirst).
  assert (Hah : actualHeaders t = List.filter isHeader (rows t)).
  { unfold actualHeaders. destruct (List.filter isHeader (rows t)); [congruence|reflexivity]. }
  assert (Had : actualData t = List.filter (fun r => negb (isHeader r)) (rows t)).
  { unfold actualData. destruct (List.filter isHeader (rows t)); [congruence|reflexivity]. }
  rewrite (parse_tableModelToMarkdown t Hwf Hcols Hcontents).
  - f_equal. apply table_eq.
    + cbn [alignments]. now apply (parseMarkdownTable_alignment_words markdown).
    + cbn [rows]. rewrite Hah, Had. unfold headersFirst in Hfirst. rewrite <- Hfirst at 3.
      f_equal.
      * transitivity (map (fun r => r) (List.filter isHeader (rows t))); [|apply map_id].
        apply map_ext_in. intros r Hr. apply filter_In in Hr as (_ & Hr).
        destruct r as [h' cs]. simpl in *. now subst.
      * transitivity (map (fun r => r) (List.filter (fun r => negb (isHeader r)) (rows t)));
          [|apply map_id].
        apply map_ext_in. intros r Hr. apply filter_In in Hr as (_ & Hr).
        destruct r as [h' cs]. simpl in *. destruct h'; [discriminate|reflexivity].
  - intros r Hr. rewrite Hah in Hr. apply filter_In in Hr as (Hr & Hh). now apply Hheaders.
Qed.

Lemma parseMarkdownTable_written_back_witness :
  parseMarkdownTable
    (tableModelToMarkdown
       (createTable [createRow [createCell1 (lit "Name"); createCell1 (lit "n")] true;
                     createRow [createCell1 (lit "a|b"); createCell1 []] false]
                    [lit "left"; lit "right"]))
  = Some (createTable [createRow [createCell1 (lit "Name"); createCell1 (lit "n")] true;
                       createRow [createCell1 (lit "a|b"); createCell1 []] false]
                      [lit "left"; lit "right"]).
Proof.
  apply (proj2 (parseMarkdownTable_written_back
                  (lit "Name | n" ++ nl :: lit "|---|--:|" ++ nl :: lit "a\|b")
                  (createTable [createRow [createCell1 (lit "Name"); createCell1 (lit "n")] true;
                                createRow [createCell1 (lit "a|b"); createCell1 []] false]
                               [lit "left"; lit "right"])
                  eq_refl)).
  - discriminate.
  - intros r [<-|[<-|[]]] Hh; [|discriminate Hh].
    exists (createCell1 (lit "Name")), "N"%char.
    split; [now left|]. split; [now left|reflexivity].
Defined.
